(** * NnK: far-field radiation patterns and grid-search source scanning

    A shallow embedding of [src/NnK/scanner.py] (the more complete of the
    two variants; [src/NnK/source.py] shares the geometry and forward-model
    code) and the properties of it that the specification states.

    Numbers.  The program computes with numpy [float64] arrays, inspects
    and produces NaN, and divides by quantities that can be zero.  The
    embedding keeps NaN and the two infinities and idealises the rest: a
    finite value is a real number and arithmetic on finite values is exact
    (no rounding, no overflow, no signed zero).  An array of shape [(3, n)]
    is read column-wise, as the list of its [n] three-component points;
    numpy's element-wise operations are [map]s and [zip_with]s. *)

From Stdlib Require Import Reals Lra Lia RNsatz.
From stdpp Require Import gmap strings list.

(** * Part 1: the program *)

#[global] Instance Rlt_decision : RelDecision Rlt := Rlt_dec.
#[global] Instance Rle_decision : RelDecision Rle := Rle_dec.
#[global] Instance Req_decision : EqDecision R := Req_dec_T.

(** ** Values of a [float64] array *)

Inductive npfloat : Type :=
| Fin (r : R)
| PInf
| NInf
| NaN.

Coercion Fin : R >-> npfloat.

Declare Scope npfloat_scope.
Delimit Scope npfloat_scope with npf.
Bind Scope npfloat_scope with npfloat.

(** Python exceptions and the outcome of a call. *)
Inductive exn : Type :=
| Exception (msg : string)
| UnboundLocalError (name : string)
| KeyError
| IndexError
| ValueError
| OverflowError
| TypeError.

Inductive result (A : Type) : Type :=
| Ok (a : A)
| Raise (e : exn).
Arguments Ok {A} a.
Arguments Raise {A} e.

#[global] Instance result_ret : MRet result := @Ok.
#[global] Instance result_bind : MBind result := fun A B f m =>
  match m with Ok a => f a | Raise e => Raise e end.

(** ** numpy functions *)

Module np.

Local Open Scope R_scope.

Definition isnan (x : npfloat) : bool :=
  match x with NaN => true | _ => false end.

Definition isfinite (x : npfloat) : bool :=
  match x with Fin _ => true | _ => false end.

Definition neg (x : npfloat) : npfloat :=
  match x with
  | Fin a => Fin (- a)
  | PInf => NInf
  | NInf => PInf
  | NaN => NaN
  end.

Definition add (x y : npfloat) : npfloat :=
  match x, y with
  | NaN, _ | _, NaN => NaN
  | Fin a, Fin b => Fin (a + b)
  | PInf, NInf | NInf, PInf => NaN
  | PInf, _ | _, PInf => PInf
  | NInf, _ | _, NInf => NInf
  end.

Definition sub (x y : npfloat) : npfloat := add x (neg y).

(** An infinity with the sign of [a]; [0 * inf] is NaN. *)
Definition signed_inf (a : R) : npfloat :=
  if decide (0 < a) then PInf else if decide (a < 0) then NInf else NaN.

Definition mul (x y : npfloat) : npfloat :=
  match x, y with
  | NaN, _ | _, NaN => NaN
  | Fin a, Fin b => Fin (a * b)
  | Fin a, PInf | PInf, Fin a => signed_inf a
  | Fin a, NInf | NInf, Fin a => signed_inf (- a)
  | PInf, PInf | NInf, NInf => PInf
  | PInf, NInf | NInf, PInf => NInf
  end.

(** Division: [a / 0] is an infinity with the sign of [a], [0 / 0] and
    [inf / inf] are NaN. *)
Definition div (x y : npfloat) : npfloat :=
  match x, y with
  | NaN, _ | _, NaN => NaN
  | Fin a, Fin b => if decide (b = 0) then signed_inf a else Fin (a / b)
  | Fin _, (PInf | NInf) => Fin 0
  | PInf, Fin b => if decide (b < 0) then NInf else PInf
  | NInf, Fin b => if decide (b < 0) then PInf else NInf
  | (PInf | NInf), (PInf | NInf) => NaN
  end.

Definition square (x : npfloat) : npfloat := mul x x.

Definition abs (x : npfloat) : npfloat :=
  match x with
  | Fin a => Fin (Rabs a)
  | PInf | NInf => PInf
  | NaN => NaN
  end.

(** [np.sign] on a real: -1, 0 or 1. *)
Definition Rsign (a : R) : R :=
  if decide (0 < a) then 1 else if decide (a < 0) then -1 else 0.

Definition sign (x : npfloat) : npfloat :=
  match x with
  | Fin a => Fin (Rsign a)
  | PInf => Fin 1
  | NInf => Fin (-1)
  | NaN => NaN
  end.

Definition sqrt (x : npfloat) : npfloat :=
  match x with
  | Fin a => if decide (0 <= a) then Fin (R_sqrt.sqrt a) else NaN
  | PInf => PInf
  | NInf | NaN => NaN
  end.

Definition sin (x : npfloat) : npfloat :=
  match x with Fin a => Fin (Rtrigo_def.sin a) | _ => NaN end.

Definition cos (x : npfloat) : npfloat :=
  match x with Fin a => Fin (Rtrigo_def.cos a) | _ => NaN end.

Definition arcsin (x : npfloat) : npfloat :=
  match x with
  | Fin a => if decide (-1 <= a <= 1) then Fin (asin a) else NaN
  | _ => NaN
  end.

Definition arccos (x : npfloat) : npfloat :=
  match x with
  | Fin a => if decide (-1 <= a <= 1) then Fin (acos a) else NaN
  | _ => NaN
  end.

(** [np.arctan2(y, x)] on reals: the angle of [(x, y)] in (-pi, pi]. *)
Definition Rarctan2 (y x : R) : R :=
  if decide (0 < x) then atan (y / x)
  else if decide (x < 0) then
         if decide (0 <= y) then atan (y / x) + PI else atan (y / x) - PI
  else if decide (0 < y) then PI / 2
  else if decide (y < 0) then - (PI / 2)
  else 0.

Definition arctan2 (y x : npfloat) : npfloat :=
  match y, x with
  | NaN, _ | _, NaN => NaN
  | Fin b, Fin a => Fin (Rarctan2 b a)
  | Fin b, PInf => Fin 0
  | Fin b, NInf => if decide (0 <= b) then Fin PI else Fin (- PI)
  | PInf, Fin _ => Fin (PI / 2)
  | NInf, Fin _ => Fin (- (PI / 2))
  | PInf, PInf => Fin (PI / 4)
  | PInf, NInf => Fin (3 * PI / 4)
  | NInf, PInf => Fin (- (PI / 4))
  | NInf, NInf => Fin (- (3 * PI / 4))
  end.

Definition deg2rad (x : npfloat) : npfloat := mul x (Fin (PI / 180)).
Definition rad2deg (x : npfloat) : npfloat := mul x (Fin (180 / PI)).

(** Comparisons; any comparison with NaN is false. *)
Definition lt (x y : npfloat) : bool :=
  match x, y with
  | NaN, _ | _, NaN => false
  | Fin a, Fin b => bool_decide (a < b)
  | NInf, (Fin _ | PInf) | Fin _, PInf => true
  | _, _ => false
  end.

Definition eqb (x y : npfloat) : bool :=
  match x, y with
  | Fin a, Fin b => bool_decide (a = b)
  | PInf, PInf | NInf, NInf => true
  | _, _ => false
  end.

Definition le (x y : npfloat) : bool := lt x y || eqb x y.
Definition gt (x y : npfloat) : bool := lt y x.
Definition ge (x y : npfloat) : bool := le y x.

(** *** Reductions of one-dimensional arrays *)

Definition sum (l : list npfloat) : npfloat := foldl add (Fin 0) l.

(** [np.nansum]: NaN entries count as zero. *)
Definition nan_to_zero (x : npfloat) : npfloat := if isnan x then Fin 0 else x.
Definition nansum (l : list npfloat) : npfloat := sum (map nan_to_zero l).

(** [np.maximum] and [np.minimum] of two values; NaN propagates. *)
Definition maximum (x y : npfloat) : npfloat :=
  if isnan x then x else if isnan y then y else if lt x y then y else x.
Definition minimum (x y : npfloat) : npfloat :=
  if isnan x then x else if isnan y then y else if lt y x then y else x.

(** [np.max] and [np.min]; an empty array is a [ValueError]. *)
Definition max (l : list npfloat) : result npfloat :=
  match l with
  | [] => Raise ValueError
  | x :: l => Ok (foldl maximum x l)
  end.
Definition min (l : list npfloat) : result npfloat :=
  match l with
  | [] => Raise ValueError
  | x :: l => Ok (foldl minimum x l)
  end.

(** [np.nanmax] and [np.nanmin] ignore NaN entries; an array of NaN only
    gives NaN (with a warning), an empty array is a [ValueError]. *)
Definition not_nan (x : npfloat) : bool := negb (isnan x).
Definition nanmax (l : list npfloat) : result npfloat :=
  match l with
  | [] => Raise ValueError
  | _ => match filter (fun x => not_nan x = true) l with
         | [] => Ok NaN
         | x :: l' => Ok (foldl maximum x l')
         end
  end.
Definition nanmin (l : list npfloat) : result npfloat :=
  match l with
  | [] => Raise ValueError
  | _ => match filter (fun x => not_nan x = true) l with
         | [] => Ok NaN
         | x :: l' => Ok (foldl minimum x l')
         end
  end.

(** [np.argmax] and [np.argmin]: the first index of the extremum, where a
    NaN counts as the extremum; [best] is the index found so far, [i] the
    index of the head of the list. *)
Fixpoint argmax_from (best : nat) (vbest : npfloat) (i : nat)
    (l : list npfloat) : nat :=
  match l with
  | [] => best
  | x :: l =>
      if isnan vbest then best
      else if isnan x || lt vbest x then argmax_from i x (S i) l
      else argmax_from best vbest (S i) l
  end.
Definition argmax (l : list npfloat) : result nat :=
  match l with
  | [] => Raise ValueError
  | x :: l => Ok (argmax_from 0 x 1 l)
  end.

Fixpoint argmin_from (best : nat) (vbest : npfloat) (i : nat)
    (l : list npfloat) : nat :=
  match l with
  | [] => best
  | x :: l =>
      if isnan vbest then best
      else if isnan x || lt x vbest then argmin_from i x (S i) l
      else argmin_from best vbest (S i) l
  end.
Definition argmin (l : list npfloat) : result nat :=
  match l with
  | [] => Raise ValueError
  | x :: l => Ok (argmin_from 0 x 1 l)
  end.

(** The length of an array as a float. *)
Definition len (A : Type) (l : list A) : npfloat := Fin (INR (length l)).
Arguments len {A} l.

(** [np.mean], [np.nanmean] and [np.std]. *)
Definition mean (l : list npfloat) : npfloat := div (sum l) (len l).
Definition nanmean (l : list npfloat) : npfloat :=
  let l' := filter (fun x => not_nan x = true) l in div (sum l') (len l').
Definition std (l : list npfloat) : npfloat :=
  let m := mean l in
  sqrt (mean (map (fun x => square (abs (sub x m))) l)).

(** [np.corrcoef(x, y)[0, 1]]: the covariance over the product of the
    standard deviations. *)
Definition cov (x y : list npfloat) : npfloat :=
  let mx := mean x in
  let my := mean y in
  div (sum (zip_with (fun a b => mul (sub a mx) (sub b my)) x y))
      (sub (len x) (Fin 1)).
Definition corrcoef (x y : list npfloat) : result npfloat :=
  if decide (length x = length y) then
    Ok (div (div (cov x y) (sqrt (cov x x))) (sqrt (cov y y)))
  else Raise ValueError.

End np.

Notation "x + y" := (np.add x y) : npfloat_scope.
Notation "x - y" := (np.sub x y) : npfloat_scope.
Notation "x * y" := (np.mul x y) : npfloat_scope.
Notation "x / y" := (np.div x y) : npfloat_scope.
Notation "- x" := (np.neg x) : npfloat_scope.
Notation "x ²" := (np.square x) (at level 1, format "x ²") : npfloat_scope.
Notation "x <? y" := (np.lt x y) : npfloat_scope.
Notation "x >? y" := (np.gt x y) : npfloat_scope.
Notation "x <=? y" := (np.le x y) : npfloat_scope.
Notation "x >=? y" := (np.ge x y) : npfloat_scope.
Notation "x =? y" := (np.eqb x y) : npfloat_scope.

(** ** Geometry utilities *)

Module Geometry.

Local Open Scope R_scope.
Local Open Scope npfloat_scope.

(** A point [(v[0], v[1], v[2])] and an array of points. *)
Definition vec3 : Type := npfloat * npfloat * npfloat.
Definition field : Type := list vec3.

(** The element-wise kernel of [haversine] (the "haversine formula" lines). *)
Definition haversine_formula (lon1 lat1 lon2 lat2 radius : npfloat) : npfloat :=
  let dlon := lon2 - lon1 in
  let dlat := lat2 - lat1 in
  let a := (np.sin (dlat / 2))² + np.cos lat1 * np.cos lat2 * (np.sin (dlon / 2))² in
  let c := 2 * np.arcsin (np.sqrt a) in
  radius * c.

(** [haversine] on two points.  When [phi1] is given, the latitudes are
    replaced by [pi/2 - phi1] and [pi/2 - phi2]; [phi1] without [phi2] is a
    [TypeError]. *)
Definition haversine (lon1 lat1 lon2 lat2 radius : npfloat)
    (phi1 phi2 : option npfloat) : result npfloat :=
  '(lat1, lat2) ←
    match phi1 with
    | None => Ok (lat1, lat2)
    | Some phi1 =>
        match phi2 with
        | Some phi2 => Ok (PI / 2 - phi1, PI / 2 - phi2)
        | None => Raise TypeError
        end
    end;
  Ok (haversine_formula lon1 lat1 lon2 lat2 radius).

(** The broadcasting branch of [haversine]: [lon1], [lat1] one-dimensional
    with more than one entry, [lon2], [lat2] two-dimensional.  [lon2] is
    repeated along a new last axis and [lon1] tiled over the grid, so entry
    [i, j, k] pairs grid node [(i, j)] with point [k]. *)
Definition haversine_grid (lon1 lat1 : list npfloat)
    (lon2 lat2 : list (list npfloat)) (radius : npfloat)
  : list (list (list npfloat)) :=
  zip_with (fun lon2_i lat2_i =>
    zip_with (fun lon2_ij lat2_ij =>
      zip_with (fun lon1_k lat1_k =>
        haversine_formula lon1_k lat1_k lon2_ij lat2_ij radius) lon1 lat1)
      lon2_i lat2_i) lon2 lat2.

(** [cartesian_to_spherical] at one point.  Where the radius is zero the
    polar angle [arccos (z / radius)] is overwritten by [pi/2 * sign z]. *)
Definition cartesian_to_spherical1 (vector : vec3) : vec3 :=
  let '(x, y, z) := vector in
  let radius := np.sqrt (x² + y² + z²) in
  let takeoff := np.arccos (z / radius) in
  let takeoff := if radius =? 0 then PI / 2 * np.sign z else takeoff in
  let azimuth_trig := np.arctan2 y x in
  (azimuth_trig, takeoff, radius).

Definition cartesian_to_spherical (vector : field) : field :=
  map cartesian_to_spherical1 vector.

(** The argument of [spherical_to_cartesian]: two components (azimuth and
    polar angle) or three (with the radius). *)
Inductive spherical : Type :=
| AT (azimuth takeoff : npfloat)
| ATR (azimuth takeoff radius : npfloat).

Definition spherical_to_cartesian1 (vector : spherical) : vec3 :=
  let '(azimuth, takeoff, radius) :=
    match vector with
    | AT a t => (a, t, Fin 1)
    | ATR a t r => (a, t, r)
    end in
  let sin_takeoff := np.sin takeoff in
  let x := radius * sin_takeoff * np.cos azimuth in
  let y := radius * sin_takeoff * np.sin azimuth in
  let z := radius * np.cos takeoff in
  (x, y, z).

Definition spherical_to_cartesian (vector : list spherical) : field :=
  map spherical_to_cartesian1 vector.

(** A three-component result read back as an argument. *)
Definition atr (v : vec3) : spherical := let '(a, t, r) := v in ATR a t r.

(** [project_vectors b a] at one point. *)
Definition project_vectors1 (b a : vec3) : vec3 :=
  let '(b0, b1, b2) := b in
  let '(a0, a1, a2) := a in
  let proj_norm := a0 * b0 + a1 * b1 + a2 * b2 in
  let proj_norm := proj_norm / ((a0² + a1² + a2²) + 0.0000000001) in
  (proj_norm * a0, proj_norm * a1, proj_norm * a2).

(** On arrays the two operands must have the same shape (numpy's
    broadcasting error is a [ValueError]). *)
Definition project_vectors (b a : field) : result field :=
  if decide (length b = length a) then Ok (zip_with project_vectors1 b a)
  else Raise ValueError.

(** The four groups of names [vector_normal] accepts. *)
Inductive normal_kind : Type := Meridian | Horizontal | Vertical | Radial.

Definition kinds_meridian : list string :=
  ["Q"; "m"; "meridian"; "n"; "nhr"; "normal horizontal radial";
   "norm horiz rad"]%string.
Definition kinds_horizontal : list string :=
  ["T"; "h"; "horizontal"; "horiz"]%string.
Definition kinds_vertical : list string :=
  ["v"; "vertical"; "vertical"]%string.
Definition kinds_radial : list string :=
  ["L"; "r"; "radial"; "self"]%string.

(** The [if]/[elif] chain on [v_or_h]. *)
Definition kind_of (v_or_h : string) : option normal_kind :=
  if decide (v_or_h ∈ kinds_meridian) then Some Meridian
  else if decide (v_or_h ∈ kinds_horizontal) then Some Horizontal
  else if decide (v_or_h ∈ kinds_vertical) then Some Vertical
  else if decide (v_or_h ∈ kinds_radial) then Some Radial
  else None.

(** [vector_normal] at one point, for each branch. *)
Definition vector_normal1 (k : normal_kind) (xyz : vec3) : vec3 :=
  let ninetydeg : npfloat := 1 * PI / 2 in
  let '(A, T, R_) := cartesian_to_spherical1 xyz in
  match k with
  | Meridian => spherical_to_cartesian1 (ATR A (T - ninetydeg) R_)
  | Horizontal =>
      spherical_to_cartesian1 (ATR (A - ninetydeg) (T + (ninetydeg - T)) R_)
  | Vertical => spherical_to_cartesian1 (ATR A (T - T) R_)
  | Radial => xyz
  end.

(** [vector_normal XYZ v_or_h].  With a name outside the four groups no
    branch assigns [XYZ_n] and the [return] raises [UnboundLocalError]. *)
Definition vector_normal (XYZ : field) (v_or_h : string) : result field :=
  match kind_of v_or_h with
  | Some k => Ok (map (vector_normal1 k) XYZ)
  | None => Raise (UnboundLocalError "XYZ_n")
  end.

(** [np.sum(u * v, axis=0)] and the Euclidean norm, at one point. *)
Definition dot (u v : vec3) : npfloat :=
  let '(u0, u1, u2) := u in
  let '(v0, v1, v2) := v in
  u0 * v0 + u1 * v1 + u2 * v2.

Definition norm (u : vec3) : npfloat :=
  let '(u0, u1, u2) := u in np.sqrt (u0² + u1² + u2²).

(** [disp_component xyz disp comp]: the signed amplitudes and the projected
    displacements.  [comp = None] projects the displacement on itself. *)
Definition disp_component (xyz disp : field) (comp : option string)
  : result (list npfloat * field) :=
  amplitude_direction ←
    match comp with
    | None => Ok disp
    | Some c => vector_normal xyz c
    end;
  disp_projected ← project_vectors disp amplitude_direction;
  let amplitudes := map norm disp_projected in
  let amplitudes :=
    zip_with (fun a s => a * np.sign (s + 0.00001)) amplitudes
      (zip_with dot disp amplitude_direction) in
  Ok (amplitudes, disp_projected).

(** A 3x3 array, row by row. *)
Definition mat3 : Type := vec3 * vec3 * vec3.

(** [rotation_matrix axis theta], for an axis of three components. *)
Definition rotation_matrix (axis : vec3) (theta : npfloat) : mat3 :=
  let '(x, y, z) := axis in
  let length := np.sqrt (x * x + y * y + z * z) in
  let '(x, y, z) := (x / length, y / length, z / length) in
  let a := np.cos (theta / 2) in
  let '(b, c, d) := (- x * np.sin (theta / 2), - y * np.sin (theta / 2),
                     - z * np.sin (theta / 2)) in
  let '(aa, bb, cc, dd) := (a * a, b * b, c * c, d * d) in
  let '(bc, ad, ac, ab, bd, cd) := (b * c, a * d, a * c, a * b, b * d, c * d) in
  ((aa + bb - cc - dd, 2 * (bc + ad), 2 * (bd - ac)),
   (2 * (bc - ad), aa + cc - bb - dd, 2 * (cd + ab)),
   (2 * (bd + ac), 2 * (cd - ab), aa + dd - bb - cc)).

(** [np.dot(matrix, v)]. *)
Definition mat_vec (m : mat3) (v : vec3) : vec3 :=
  let '(r0, r1, r2) := m in (dot r0 v, dot r1 v, dot r2 v).

(** [energy_seismicsourcemodel G XYZ]: the rms, the Euclidean norm and the
    average of the amplitudes of a radiation pattern, each weighted by the
    squared distance of the amplitude to the largest one.  [XYZ] is not
    read. *)
Definition energy_seismicsourcemodel (G XYZ : field)
  : result (npfloat * npfloat * npfloat) :=
  let amplitudes := map norm G in
  top ← np.max (map np.abs amplitudes);
  let weigths := map (fun a => (top - a)²) amplitudes in
  let rms :=
    np.sqrt (np.nansum (map np.square (zip_with np.mul weigths amplitudes))
             / np.sum weigths) in
  let norm :=
    np.sqrt (np.nansum (map np.square (zip_with np.mul weigths amplitudes))) in
  let average :=
    np.nansum (map np.abs (zip_with np.mul amplitudes weigths))
    / np.sum weigths in
  Ok (rms, norm, average).

End Geometry.

(** ** Moment-tensor algebra *)

(** A mechanism as the code receives it: an array whose shape is sniffed. *)
Inductive ndarray : Type :=
| Arr0 (x : npfloat)
| Arr1 (v : list npfloat)
| Arr2 (m : list (list npfloat)).

(** What the code reads from the external decomposition
    [obspy.imaging.scripts.mopad.MomentTensor]. *)
Record mopad : Type := {
  get_DC_percentage : npfloat;
  get_CLVD_percentage : npfloat;
  get_iso_percentage : npfloat;
  get_devi_percentage : npfloat;
  get_fps : (npfloat * npfloat * npfloat) * (npfloat * npfloat * npfloat)
}.

Section MomentTensorAlgebra.

(** The external collaborator, [MomentTensor(mt, system='XYZ')] on a
    six-component tensor. *)
Variable MomentTensor : list npfloat -> mopad.

Local Open Scope R_scope.
Local Open Scope npfloat_scope.

Definition mt_full (mt : ndarray) : result (list (list npfloat)) :=
  match mt with
  | Arr1 [mt0; mt1; mt2; mt3; mt4; mt5] =>
      Ok [[mt0; mt3; mt4]; [mt3; mt1; mt5]; [mt4; mt5; mt2]]
  | Arr2 [[m00; m01; m02]; [m10; m11; m12]; [m20; m21; m22]] =>
      Ok [[m00; m01; m02]; [m10; m11; m12]; [m20; m21; m22]]
  | Arr0 _ => Raise TypeError (* [len] of an array without dimension *)
  | _ => Raise (Exception "I/O dimensions: only 1x6 or 3x3 input supported.")
  end.

Definition angles : Type := npfloat * npfloat * npfloat.
Definition percentages : Type := npfloat * npfloat * npfloat * npfloat.

(** The shape [(2, 3)] branch, also reached with the pair of planes that
    [get_fps] returns. *)
Definition mt_angles_pair (row0 row1 : angles) : angles * percentages :=
  let '(strike, dip, rake) :=
    if np.abs row0.1.1 <? np.abs row1.1.1 then row0 else row1 in
  let DC : npfloat := 100 in
  let CLVD : npfloat := 0 in
  let iso : npfloat := 0 in
  let devi : npfloat := 100 in
  ((strike, dip, rake), (DC, CLVD, iso, devi)).

(** The shape [(6,)] branch. *)
Definition mt_angles_six (mt : list npfloat) : angles * percentages :=
  let mt := MomentTensor mt in
  let DC := get_DC_percentage mt in
  let CLVD := get_CLVD_percentage mt in
  let iso := get_iso_percentage mt in
  let devi := get_devi_percentage mt in
  let mt := mt_angles_pair (get_fps mt).1 (get_fps mt).2 in
  (mt.1, (DC, CLVD, iso, devi)).

Definition mt_angles (mt : ndarray) : result (angles * percentages) :=
  match mt with
  | Arr1 [strike; dip; rake] =>
      let DC : npfloat := 100 in
      let CLVD : npfloat := 0 in
      let iso : npfloat := 0 in
      let devi : npfloat := 100 in
      Ok ((strike, dip, rake), (DC, CLVD, iso, devi))
  | Arr2 [[s0; d0; r0]; [s1; d1; r1]] =>
      Ok (mt_angles_pair (s0, d0, r0) (s1, d1, r1))
  | Arr1 [strike; dip; rake; devi] =>
      let DC := NaN in
      let CLVD := NaN in
      let iso : npfloat := 0 in
      Ok ((strike, dip, rake), (DC, CLVD, iso, devi))
  | Arr1 ([_; _; _; _; _; _] as mt) => Ok (mt_angles_six mt)
  | Arr2 [[m00; m01; m02]; [m10; m11; m12]; [m20; m21; m22]] =>
      Ok (mt_angles_six [m00; m11; m22; m01; m02; m12])
  | _ =>
      Raise (Exception
        "I/O dimensions: only [1|2]x3, 1x[4|6] and 3x3 inputs supported.")
  end.

End MomentTensorAlgebra.

(** ** Forward radiation-pattern model of Vavryeuk *)

Module Vavryeuk.

Import Geometry.
Local Open Scope R_scope.
Local Open Scope npfloat_scope.

(** [np.linspace(start, stop, num)] with both end points. *)
Definition linspace (start stop : R) (num : nat) : list npfloat :=
  map (fun i => Fin (start + INR i * ((stop - start) / INR (num - 1)))%R)
      (seq 0 num).

(** [sphere(r, n)]: the azimuth/polar-angle mesh, row by row; the point
    counts are the real powers of [n] truncated to integers. *)
Definition sphere (r n : R) : list spherical :=
  let c := 0.038%R in
  let na := Rpower n (0.5 + c) in
  let nt := Rpower n (0.5 - c) in
  let a := linspace 0 (2 * PI) (Z.to_nat (Int_part (na + 1))) in
  let t := linspace 0 (1 * PI) (Z.to_nat (Int_part nt)) in
  flat_map (fun t_i => map (fun a_j => ATR a_j t_i (1 * r)) a) t.

(** The tensile-source amplitudes of the [P], [SH] and [SV] branches. *)
Definition G_P (poisson strike dip rake MODE1 AZM TKO : npfloat) : npfloat :=
  np.cos (TKO) * (np.cos (TKO) * (np.sin (MODE1) * (2 * (np.cos dip)² - (2 *
  poisson) / (2 * poisson - 1)) + np.sin (2 * dip) * np.cos (MODE1) * np.sin
  (rake)) - np.cos (AZM) * np.sin (TKO) * (np.cos (MODE1) * (np.cos (2 *
  dip) * np.sin (rake) * np.sin (strike) + np.cos (dip) * np.cos (rake) *
  np.cos (strike)) - np.sin (2 * dip) * np.sin (MODE1) * np.sin (strike)) +
  np.sin (AZM) * np.sin (TKO) * (np.cos (MODE1) * (np.cos (2 * dip) * np.cos
  (strike) * np.sin (rake) - np.cos (dip) * np.cos (rake) * np.sin (strike))
  - np.sin (2 * dip) * np.cos (strike) * np.sin (MODE1))) + np.sin (AZM) *
  np.sin (TKO) * (np.cos (TKO) * (np.cos (MODE1) * (np.cos (2 * dip) *
  np.cos (strike) * np.sin (rake) - np.cos (dip) * np.cos (rake) * np.sin
  (strike)) - np.sin (2 * dip) * np.cos (strike) * np.sin (MODE1)) + np.cos
  (AZM) * np.sin (TKO) * (np.cos (MODE1) * (np.cos (2 * strike) * np.cos
  (rake) * np.sin (dip) + (np.sin (2 * dip) * np.sin (2 * strike) * np.sin
  (rake)) / 2) - np.sin (2 * strike) * (np.sin dip)² * np.sin (MODE1)) +
  np.sin (AZM) * np.sin (TKO) * (np.cos (MODE1) * (np.sin (2 * strike) *
  np.cos (rake) * np.sin (dip) - np.sin (2 * dip) * (np.cos strike)² *
  np.sin (rake)) - np.sin (MODE1) * ((2 * poisson) / (2 * poisson - 1) - 2 *
  (np.cos strike)² * (np.sin dip)²))) - np.cos (AZM) * np.sin (TKO) *
  (np.cos (TKO) * (np.cos (MODE1) * (np.cos (2 * dip) * np.sin (rake) *
  np.sin (strike) + np.cos (dip) * np.cos (rake) * np.cos (strike)) - np.sin
  (2 * dip) * np.sin (MODE1) * np.sin (strike)) - np.sin (AZM) * np.sin
  (TKO) * (np.cos (MODE1) * (np.cos (2 * strike) * np.cos (rake) * np.sin
  (dip) + (np.sin (2 * dip) * np.sin (2 * strike) * np.sin (rake)) / 2) -
  np.sin (2 * strike) * (np.sin dip)² * np.sin (MODE1)) + np.cos (AZM) *
  np.sin (TKO) * (np.cos (MODE1) * (np.sin (2 * dip) * np.sin (rake) *
  (np.sin strike)² + np.sin (2 * strike) * np.cos (rake) * np.sin (dip)) +
  np.sin (MODE1) * ((2 * poisson) / (2 * poisson - 1) - 2 * (np.sin dip)² *
  (np.sin strike)²))).

Definition G_SH (poisson strike dip rake MODE1 AZM TKO : npfloat) : npfloat :=
  np.cos (TKO) * (np.cos (AZM) * (np.cos (MODE1) * (np.cos (2 * dip) *
  np.cos (strike) * np.sin (rake) - np.cos (dip) * np.cos (rake) * np.sin
  (strike)) - np.sin (2 * dip) * np.cos (strike) * np.sin (MODE1)) + np.sin
  (AZM) * (np.cos (MODE1) * (np.cos (2 * dip) * np.sin (rake) * np.sin
  (strike) + np.cos (dip) * np.cos (rake) * np.cos (strike)) - np.sin (2 *
  dip) * np.sin (MODE1) * np.sin (strike))) - np.sin (AZM) * np.sin (TKO) *
  (np.sin (AZM) * (np.cos (MODE1) * (np.cos (2 * strike) * np.cos (rake) *
  np.sin (dip) + (np.sin (2 * dip) * np.sin (2 * strike) * np.sin (rake)) /
  2) - np.sin (2 * strike) * (np.sin dip)² * np.sin (MODE1)) - np.cos (AZM)
  * (np.cos (MODE1) * (np.sin (2 * strike) * np.cos (rake) * np.sin (dip) -
  np.sin (2 * dip) * (np.cos strike)² * np.sin (rake)) - np.sin (MODE1) *
  ((2 * poisson) / (2 * poisson - 1) - 2 * (np.cos strike)² * (np.sin
  dip)²))) + np.cos (AZM) * np.sin (TKO) * (np.sin (AZM) * (np.cos (MODE1) *
  (np.sin (2 * dip) * np.sin (rake) * (np.sin strike)² + np.sin (2 * strike)
  * np.cos (rake) * np.sin (dip)) + np.sin (MODE1) * ((2 * poisson) / (2 *
  poisson - 1) - 2 * (np.sin dip)² * (np.sin strike)²)) + np.cos (AZM) *
  (np.cos (MODE1) * (np.cos (2 * strike) * np.cos (rake) * np.sin (dip) +
  (np.sin (2 * dip) * np.sin (2 * strike) * np.sin (rake)) / 2) - np.sin (2
  * strike) * (np.sin dip)² * np.sin (MODE1))).

Definition G_SV (poisson strike dip rake MODE1 AZM TKO : npfloat) : npfloat :=
  np.sin (AZM) * np.sin (TKO) * (np.cos (AZM) * np.cos (TKO) * (np.cos
  (MODE1) * (np.cos (2 * strike) * np.cos (rake) * np.sin (dip) + (np.sin (2
  * dip) * np.sin (2 * strike) * np.sin (rake)) / 2) - np.sin (2 * strike) *
  (np.sin dip)² * np.sin (MODE1)) - np.sin (TKO) * (np.cos (MODE1) * (np.cos
  (2 * dip) * np.cos (strike) * np.sin (rake) - np.cos (dip) * np.cos (rake)
  * np.sin (strike)) - np.sin (2 * dip) * np.cos (strike) * np.sin (MODE1))
  + np.cos (TKO) * np.sin (AZM) * (np.cos (MODE1) * (np.sin (2 * strike) *
  np.cos (rake) * np.sin (dip) - np.sin (2 * dip) * (np.cos strike)² *
  np.sin (rake)) - np.sin (MODE1) * ((2 * poisson) / (2 * poisson - 1) - 2 *
  (np.cos strike)² * (np.sin dip)²))) - np.cos (TKO) * (np.sin (TKO) *
  (np.sin (MODE1) * (2 * (np.cos dip)² - (2 * poisson) / (2 * poisson - 1))
  + np.sin (2 * dip) * np.cos (MODE1) * np.sin (rake)) + np.cos (AZM) *
  np.cos (TKO) * (np.cos (MODE1) * (np.cos (2 * dip) * np.sin (rake) *
  np.sin (strike) + np.cos (dip) * np.cos (rake) * np.cos (strike)) - np.sin
  (2 * dip) * np.sin (MODE1) * np.sin (strike)) - np.cos (TKO) * np.sin
  (AZM) * (np.cos (MODE1) * (np.cos (2 * dip) * np.cos (strike) * np.sin
  (rake) - np.cos (dip) * np.cos (rake) * np.sin (strike)) - np.sin (2 *
  dip) * np.cos (strike) * np.sin (MODE1))) + np.cos (AZM) * np.sin (TKO) *
  (np.sin (TKO) * (np.cos (MODE1) * (np.cos (2 * dip) * np.sin (rake) *
  np.sin (strike) + np.cos (dip) * np.cos (rake) * np.cos (strike)) - np.sin
  (2 * dip) * np.sin (MODE1) * np.sin (strike)) + np.cos (TKO) * np.sin
  (AZM) * (np.cos (MODE1) * (np.cos (2 * strike) * np.cos (rake) * np.sin
  (dip) + (np.sin (2 * dip) * np.sin (2 * strike) * np.sin (rake)) / 2) -
  np.sin (2 * strike) * (np.sin dip)² * np.sin (MODE1)) - np.cos (AZM) *
  np.cos (TKO) * (np.cos (MODE1) * (np.sin (2 * dip) * np.sin (rake) *
  (np.sin strike)² + np.sin (2 * strike) * np.cos (rake) * np.sin (dip)) +
  np.sin (MODE1) * ((2 * poisson) / (2 * poisson - 1) - 2 * (np.sin dip)² *
  (np.sin strike)²))).

Definition azimuth_of (v : spherical) : npfloat :=
  match v with AT a _ | ATR a _ _ => a end.
Definition takeoff_of (v : spherical) : npfloat :=
  match v with AT _ t | ATR _ t _ => t end.

Record t : Type := { mt : ndarray; poisson : npfloat }.

(** What a call prints and how it ends. *)
Definition outcome : Type := list string * result (field * field).

(** [tuple / tuple]: both operands are evaluated, then the division of two
    tuples is a [TypeError]. *)
Definition divide_tuples (num den : outcome) : outcome :=
  match num.2, den.2 with
  | Raise e, _ => (num.1, Raise e)
  | Ok _, Raise e => (num.1 ++ den.1, Raise e)
  | Ok _, Ok _ => (num.1 ++ den.1, Raise TypeError)
  end.

Section Radpat.

Variable MomentTensor : list npfloat -> mopad.

(** The body of [radpat]; [self_radpat] stands for the method in the
    recursive calls of the ratio branches. *)
Definition radpat_body
    (self_radpat : string -> option field -> option (list spherical) -> outcome)
    (self : t) (wave : string) (obs_cart : option field)
    (obs_sph : option (list spherical)) : outcome :=
  let poisson := poisson self in
  match mt_angles MomentTensor (mt self) with
  | Raise e => ([], Raise e)
  | Ok ((strike, dip, rake), (DC, CLVD, iso, deviatoric)) =>
      let strike := np.deg2rad strike in
      let dip := np.deg2rad dip in
      let rake := np.deg2rad rake in
      let MODE1 := np.arcsin ((100 - DC) / 100) in
      let obs_cart :=
        match obs_cart with
        | None => spherical_to_cartesian (sphere 1 1000)
        | Some obs_cart => obs_cart
        end in
      let obs_sph :=
        match obs_sph with
        | None => map atr (cartesian_to_spherical obs_cart)
        | Some obs_sph => obs_sph
        end in
      let AZM := map azimuth_of obs_sph in
      let TKO := map takeoff_of obs_sph in
      let finish (G : list npfloat) : outcome :=
        let G_cart :=
          spherical_to_cartesian
            (zip_with (fun at_ g => ATR at_.1 at_.2 g) (zip AZM TKO) G) in
        let obs_cart := spherical_to_cartesian (zip_with AT AZM TKO) in
        ([], Ok (G_cart, obs_cart)) in
      if decide (wave ∈ ["P"; "P-wave"; "P wave"]%string) then
        finish (zip_with (G_P poisson strike dip rake MODE1) AZM TKO)
      else if decide (wave ∈ ["ST"; "St"; "SH"; "Sh"; "Sh-wave"; "Sh wave";
                              "SH-wave"; "SH wave"]%string) then
        finish (zip_with (G_SH poisson strike dip rake MODE1) AZM TKO)
      else if decide (wave ∈ ["SV"; "Sv"; "Sv-wave"; "Sv wave"; "SV-wave";
                              "SV wave"]%string) then
        finish (zip_with (G_SV poisson strike dip rake MODE1) AZM TKO)
      else if decide (wave ∈ ["S"; "S-wave"; "S wave"]%string) then
        let Gsh := zip_with (G_SH poisson strike dip rake MODE1) AZM TKO in
        let Gsv := zip_with (G_SV poisson strike dip rake MODE1) AZM TKO in
        finish (zip_with (fun gsh gsv => np.sqrt (gsh² + gsv²)) Gsh Gsv)
      else if decide (wave ∈ ["S/P"; "s/p"]%string) then
        divide_tuples (self_radpat "S" None None)
                      (self_radpat "P" None (Some obs_sph))
      else if decide (wave ∈ ["P/S"; "p/s"]%string) then
        divide_tuples (self_radpat "P" None (Some obs_sph))
                      (self_radpat "S" None (Some obs_sph))
      else if decide (wave ∈ ["SH/P"; "sh/p"]%string) then
        divide_tuples (self_radpat "SH" None (Some obs_sph))
                      (self_radpat "P" None (Some obs_sph))
      else if decide (wave ∈ ["SV/P"; "sv/p"]%string) then
        divide_tuples (self_radpat "SV" None (Some obs_sph))
                      (self_radpat "P" None (Some obs_sph))
      else if decide (wave ∈ ["SH/S"; "sh/s"]%string) then
        divide_tuples (self_radpat "SH" None (Some obs_sph))
                      (self_radpat "S" None (Some obs_sph))
      else if decide (wave ∈ ["SV/S"; "sv/s"]%string) then
        divide_tuples (self_radpat "SV" None (Some obs_sph))
                      (self_radpat "S" None (Some obs_sph))
      else
        (* print 'Can t yet compute this wave type.' and go on: [G] is
           read before any branch assigned it *)
        (["Can t yet compute this wave type."%string],
         Raise (UnboundLocalError "G"))
  end.

(** [radpat]: the ratio branches call the method with the plain wave names
    only, so the recursion is one call deep. *)
Definition radpat (self : t) : string -> option field ->
    option (list spherical) -> outcome :=
  radpat_body
    (radpat_body (fun _ _ _ => ([], Raise TypeError)) self) self.

End Radpat.

(** The names the dispatch of [radpat] knows. *)
Definition recognized_waves : list string :=
  ["P"; "P-wave"; "P wave";
   "ST"; "St"; "SH"; "Sh"; "Sh-wave"; "Sh wave"; "SH-wave"; "SH wave";
   "SV"; "Sv"; "Sv-wave"; "Sv wave"; "SV-wave"; "SV wave";
   "S"; "S-wave"; "S wave";
   "S/P"; "s/p"; "P/S"; "p/s"; "SH/P"; "sh/p"; "SV/P"; "sv/p";
   "SH/S"; "sh/s"; "SV/S"; "sv/s"]%string.

End Vavryeuk.

(** ** The mesh of observation directions *)

Section Globe.

Import Geometry.
Local Open Scope R_scope.
Local Open Scope npfloat_scope.

(** [globe(r, n)]: [n] points wound around the sphere of radius [r] by the
    golden angle, from the top to the bottom. *)
Definition globe (r : npfloat) (n : nat) : field :=
  let golden_angle := PI * (3 - np.sqrt 5) in
  let theta := map (fun k : nat => golden_angle * Fin (INR k)) (seq 0 n) in
  let z := Vavryeuk.linspace (1 - 1 / INR n) (1 / INR n - 1) n in
  let radius := map (fun z => np.sqrt (1 - z * z)) z in
  zip_with (fun (rt : npfloat * npfloat) (z : npfloat) =>
              (r * rt.1 * np.cos rt.2, r * rt.1 * np.sin rt.2, r * z))
           (zip radius theta) z.

End Globe.

(** ** Forward radiation-pattern model of Aki and Richards *)

Module Aki_Richards.

Import Geometry.
Local Open Scope R_scope.
Local Open Scope npfloat_scope.

Record t : Type := { mt : ndarray }.

Definition waves_Sv : list string :=
  ["Sv"; "Sv"; "S_v"; "Sv wave"; "Sv-wave"]%string.
Definition waves_Sm : list string :=
  ["Sq"; "SQ"; "Sm"; "SM"; "SN"; "Sn"; "Snrh"; "Snrh wave"; "Snrh-wave"]%string.
Definition waves_Sh : list string :=
  ["St"; "ST"; "SH"; "Sh"; "S_h"; "Sh wave"; "Sh-wave"]%string.
Definition waves_S : list string := ["S"; "S wave"; "S-wave"]%string.
Definition waves_P : list string := ["P"; "P wave"; "P-wave"]%string.

(** The point taken to unit distance: [obs_cart / dists]. *)
Definition gamma_of (p : vec3) : vec3 :=
  let '(x, y, z) := p in
  let dist := np.sqrt (x * x + y * y + z * z) in
  (x / dist, y / dist, z / dist).

(** The [S] branch at one point: with [Mp = np.dot(Mpq, gamma)], component
    [n] is the sum over [p] of [(gamma[n] * gamma[p] - delta) * Mp[p]],
    accumulated from zero. *)
Definition disp_S (Mpq : mat3) (gamma : vec3) : vec3 :=
  let '(g0, g1, g2) := gamma in
  let '(Mp0, Mp1, Mp2) := mat_vec Mpq gamma in
  (0 + (g0 * g0 - 1) * Mp0 + (g0 * g1 - 0) * Mp1 + (g0 * g2 - 0) * Mp2,
   0 + (g1 * g0 - 0) * Mp0 + (g1 * g1 - 1) * Mp1 + (g1 * g2 - 0) * Mp2,
   0 + (g2 * g0 - 0) * Mp0 + (g2 * g1 - 0) * Mp1 + (g2 * g2 - 1) * Mp2).

(** The [P] branch at one point: [gamma[n]] times the sum of the entries of
    [np.outer(gamma, gamma) * Mpq]. *)
Definition disp_P (Mpq : mat3) (gamma : vec3) : vec3 :=
  let '(g0, g1, g2) := gamma in
  let '((m00, m01, m02), (m10, m11, m12), (m20, m21, m22)) := Mpq in
  let total :=
    np.sum [g0 * g0 * m00; g0 * g1 * m01; g0 * g2 * m02;
            g1 * g0 * m10; g1 * g1 * m11; g1 * g2 * m12;
            g2 * g0 * m20; g2 * g1 * m21; g2 * g2 * m22] in
  (g0 * total, g1 * total, g2 * total).

Section Radpat.

(** What [np.empty] holds at a point that no branch writes. *)
Variable empty : nat -> vec3.

(** [radpat] past the special cases.  [mt_full] returns a 3x3 array or
    raises, so the last case of the match on its result is not reached. *)
Definition radpat_plain (self : t) (wave : string) (obs_cart : option field)
    (obs_sph : option (list spherical)) : result (field * field) :=
  Mpq ← mt_full (mt self);
  match Mpq with
  | [[m00; m01; m02]; [m10; m11; m12]; [m20; m21; m22]] =>
      let Mpq := ((m00, m01, m02), (m10, m11, m12), (m20, m21, m22)) in
      let obs_sph :=
        match obs_sph with
        | None => Vavryeuk.sphere 1 1000
        | Some obs_sph => obs_sph
        end in
      let obs_cart :=
        match obs_cart with
        | None => spherical_to_cartesian obs_sph
        | Some obs_cart => obs_cart
        end in
      let gammas := map gamma_of obs_cart in
      let disp :=
        imap (fun ipoint gamma =>
                if decide (wave ∈ waves_S) then disp_S Mpq gamma
                else if decide (wave ∈ waves_P) then disp_P Mpq gamma
                else empty ipoint) gammas in
      Ok (disp, obs_cart)
  | _ => Raise (Exception "I/O dimensions: only 1x6 or 3x3 input supported.")
  end.

(** [radpat]: the projections of the [S] displacement first. *)
Definition radpat (self : t) (wave : string) (obs_cart : option field)
    (obs_sph : option (list spherical)) : result (field * field) :=
  let projected (v_or_h : string) : result (field * field) :=
    '(disp, obs_cart) ← radpat_plain self "S" obs_cart obs_sph;
    normal ← vector_normal obs_cart v_or_h;
    disp ← project_vectors disp normal;
    Ok (disp, obs_cart) in
  if decide (wave ∈ waves_Sv) then projected "v"
  else if decide (wave ∈ waves_Sm) then projected "Q"
  else if decide (wave ∈ waves_Sh) then projected "T"
  else radpat_plain self wave obs_cart obs_sph.

(** [energy]. *)
Definition energy (self : t) (wave : string)
  : result (npfloat * npfloat * npfloat) :=
  '(G, XYZ) ← radpat self wave None None;
  energy_seismicsourcemodel G XYZ.

End Radpat.

End Aki_Richards.

(** ** Distance between two mechanisms *)

Section MechanismDistance.

Import Geometry.
Local Open Scope R_scope.
Local Open Scope npfloat_scope.

(** [while test > np.pi/2: test -= np.pi/2], with a bound on the number of
    tests of the condition. *)
Fixpoint fold_quarter (fuel : nat) (test : npfloat) : option npfloat :=
  match fuel with
  | O => None
  | S fuel =>
      if test >? PI / 2 then fold_quarter fuel (test - PI / 2) else Some test
  end.

(** The body of the inner loop of [mt_diff]: the distance between fault
    plane [p] of the first mechanism and fault plane [q] of the second, on
    the unit sphere, by strike as longitude and dip as polar angle, folded;
    [diff_i] is lowered to it. *)
Definition mt_diff_step (fuel : nat) (p q : angles) (diff_i : npfloat)
  : option (result npfloat) :=
  match haversine p.1.1 0 q.1.1 (PI / 2) 1 (Some p.1.2) (Some q.1.2) with
  | Raise e => Some (Raise e)
  | Ok test =>
      test ← fold_quarter fuel test;
      Some (Ok (if test <? diff_i then test else diff_i))
  end.

(** The two steps of the loop over [j], for one plane of the first
    mechanism. *)
Definition mt_diff_row (fuel : nat) (p q0 q1 : angles)
  : option (result npfloat) :=
  match mt_diff_step fuel p q0 999999999 with
  | Some (Ok diff_i) => mt_diff_step fuel p q1 diff_i
  | other => other
  end.

(** [mt_diff mt1 mt2]; [None] when a [while] loop outlasts [fuel]. *)
Definition mt_diff (fuel : nat) (mt1 mt2 : mopad) : option (result npfloat) :=
  let rad (p : angles) : angles :=
    (np.deg2rad p.1.1, np.deg2rad p.1.2, np.deg2rad p.2) in
  let '(p0, p1) := get_fps mt1 in
  let '(q0, q1) := get_fps mt2 in
  match mt_diff_row fuel (rad p0) (rad q0) (rad q1) with
  | Some (Ok d0) =>
      match mt_diff_row fuel (rad p1) (rad q0) (rad q1) with
      | Some (Ok d1) => Some (Ok (np.rad2deg (np.mean [d0; d1])))
      | other => other
      end
  | other => other
  end.

End MechanismDistance.

(** ** The grid-search engine *)

(** One waveform of the observed data: its samples and its channel code,
    whose last letter names the polarization component. *)
Record Trace : Type := { tr_data : list npfloat; channel : string }.

(** The observed-data adapter: the stream of waveforms and, per waveform,
    the wave type ([observations['types'][j, 0]]) and the observation
    direction in spherical and in cartesian coordinates. *)
Record Wavelets : Type := {
  Stream : list Trace;
  types : list string;
  sph : list Geometry.vec3;
  cart : list Geometry.vec3
}.

Module SourceScan.

Import Geometry.
Local Open Scope R_scope.
Local Open Scope npfloat_scope.

(** What the constructor sets and [scan] only reads: the configuration,
    the grid of observation directions [atr] and the cache of modeled
    amplitudes, a dictionary from (mechanism, wave, component) to the
    amplitude at every grid direction. *)
Record setup : Type := {
  file : string;
  n_model : nat;
  n_obs : nat;
  n_dims : nat;
  waves : list string;
  components : list (list string);
  atr : list vec3;
  precision : npfloat;
  modeled_amplitudes : list ((list npfloat * string * string) * list npfloat)
}.

(** The attributes [_data_init] binds. *)
Record binding : Type := {
  data : option Wavelets;
  data_wavelets : list (list npfloat);
  data_taperwindows : list (list npfloat);
  data_amplitudes : list (list npfloat);
  data_indexes : list nat;
  synth_stack : list npfloat;
  power_synth_stack : npfloat;
  opt_stack : list npfloat;
  power_opt_stack : npfloat;
  model_perfectmodel_corr : npfloat
}.

(** The object: [source_mechanisms] is the dictionary of per-mechanism
    arrays, with the keys ['Mt'], ['fullMt'], ['P-axis'], ['T-axis'],
    ['rms'], ['xcorr'], ['P(d|Mt)'], ['P(Mt|d)'], ['P(d)'] and ['P(Mt)']. *)
Record t : Type := {
  grid : setup;
  source_mechanisms : gmap string ndarray;
  scanned : nat;
  bound : binding;
  best_likelyhood : option (list npfloat * npfloat);
  centroid : option (list npfloat * npfloat)
}.

(** Attribute assignment. *)
Definition with_data v (s : binding) : binding :=
  {| data := v; data_wavelets := data_wavelets s; data_taperwindows :=
     data_taperwindows s; data_amplitudes := data_amplitudes s;
     data_indexes := data_indexes s; synth_stack := synth_stack s;
     power_synth_stack := power_synth_stack s; opt_stack := opt_stack s;
     power_opt_stack := power_opt_stack s; model_perfectmodel_corr :=
     model_perfectmodel_corr s |}.
Definition with_data_wavelets v (s : binding) : binding :=
  {| data := data s; data_wavelets := v; data_taperwindows :=
     data_taperwindows s; data_amplitudes := data_amplitudes s;
     data_indexes := data_indexes s; synth_stack := synth_stack s;
     power_synth_stack := power_synth_stack s; opt_stack := opt_stack s;
     power_opt_stack := power_opt_stack s; model_perfectmodel_corr :=
     model_perfectmodel_corr s |}.
Definition with_data_taperwindows v (s : binding) : binding :=
  {| data := data s; data_wavelets := data_wavelets s; data_taperwindows
     := v; data_amplitudes := data_amplitudes s; data_indexes :=
     data_indexes s; synth_stack := synth_stack s; power_synth_stack :=
     power_synth_stack s; opt_stack := opt_stack s; power_opt_stack :=
     power_opt_stack s; model_perfectmodel_corr := model_perfectmodel_corr
     s |}.
Definition with_data_amplitudes v (s : binding) : binding :=
  {| data := data s; data_wavelets := data_wavelets s; data_taperwindows
     := data_taperwindows s; data_amplitudes := v; data_indexes :=
     data_indexes s; synth_stack := synth_stack s; power_synth_stack :=
     power_synth_stack s; opt_stack := opt_stack s; power_opt_stack :=
     power_opt_stack s; model_perfectmodel_corr := model_perfectmodel_corr
     s |}.
Definition with_data_indexes v (s : binding) : binding :=
  {| data := data s; data_wavelets := data_wavelets s; data_taperwindows
     := data_taperwindows s; data_amplitudes := data_amplitudes s;
     data_indexes := v; synth_stack := synth_stack s; power_synth_stack :=
     power_synth_stack s; opt_stack := opt_stack s; power_opt_stack :=
     power_opt_stack s; model_perfectmodel_corr := model_perfectmodel_corr
     s |}.
Definition with_synth_stack v (s : binding) : binding :=
  {| data := data s; data_wavelets := data_wavelets s; data_taperwindows
     := data_taperwindows s; data_amplitudes := data_amplitudes s;
     data_indexes := data_indexes s; synth_stack := v; power_synth_stack
     := power_synth_stack s; opt_stack := opt_stack s; power_opt_stack :=
     power_opt_stack s; model_perfectmodel_corr := model_perfectmodel_corr
     s |}.
Definition with_power_synth_stack v (s : binding) : binding :=
  {| data := data s; data_wavelets := data_wavelets s; data_taperwindows
     := data_taperwindows s; data_amplitudes := data_amplitudes s;
     data_indexes := data_indexes s; synth_stack := synth_stack s;
     power_synth_stack := v; opt_stack := opt_stack s; power_opt_stack :=
     power_opt_stack s; model_perfectmodel_corr := model_perfectmodel_corr
     s |}.
Definition with_opt_stack v (s : binding) : binding :=
  {| data := data s; data_wavelets := data_wavelets s; data_taperwindows
     := data_taperwindows s; data_amplitudes := data_amplitudes s;
     data_indexes := data_indexes s; synth_stack := synth_stack s;
     power_synth_stack := power_synth_stack s; opt_stack := v;
     power_opt_stack := power_opt_stack s; model_perfectmodel_corr :=
     model_perfectmodel_corr s |}.
Definition with_power_opt_stack v (s : binding) : binding :=
  {| data := data s; data_wavelets := data_wavelets s; data_taperwindows
     := data_taperwindows s; data_amplitudes := data_amplitudes s;
     data_indexes := data_indexes s; synth_stack := synth_stack s;
     power_synth_stack := power_synth_stack s; opt_stack := opt_stack s;
     power_opt_stack := v; model_perfectmodel_corr :=
     model_perfectmodel_corr s |}.
Definition with_model_perfectmodel_corr v (s : binding) : binding :=
  {| data := data s; data_wavelets := data_wavelets s; data_taperwindows
     := data_taperwindows s; data_amplitudes := data_amplitudes s;
     data_indexes := data_indexes s; synth_stack := synth_stack s;
     power_synth_stack := power_synth_stack s; opt_stack := opt_stack s;
     power_opt_stack := power_opt_stack s; model_perfectmodel_corr := v |}.
Definition set_source_mechanisms v (s : t) : t :=
  {| grid := grid s; source_mechanisms := v; scanned := scanned s; bound
     := bound s; best_likelyhood := best_likelyhood s; centroid :=
     centroid s |}.
Definition set_scanned v (s : t) : t :=
  {| grid := grid s; source_mechanisms := source_mechanisms s; scanned :=
     v; bound := bound s; best_likelyhood := best_likelyhood s; centroid
     := centroid s |}.
Definition set_bound v (s : t) : t :=
  {| grid := grid s; source_mechanisms := source_mechanisms s; scanned :=
     scanned s; bound := v; best_likelyhood := best_likelyhood s; centroid
     := centroid s |}.
Definition set_best_likelyhood v (s : t) : t :=
  {| grid := grid s; source_mechanisms := source_mechanisms s; scanned :=
     scanned s; bound := bound s; best_likelyhood := v; centroid :=
     centroid s |}.
Definition set_centroid v (s : t) : t :=
  {| grid := grid s; source_mechanisms := source_mechanisms s; scanned :=
     scanned s; bound := bound s; best_likelyhood := best_likelyhood s;
     centroid := v |}.

(** The state of the object threaded through a method that may raise. *)
Definition M (A : Type) : Type := t -> t * result A.

#[global] Instance M_ret : MRet M := fun A a s => (s, Ok a).
#[global] Instance M_bind : MBind M := fun A B f m s =>
  match m s with
  | (s', Ok a) => f a s'
  | (s', Raise e) => (s', Raise e)
  end.

Definition gets {A : Type} (f : t -> A) : M A := fun s => (s, Ok (f s)).
Definition modify (f : t -> t) : M unit := fun s => (f s, Ok tt).
Definition lift {A : Type} (r : result A) : M A := fun s => (s, r).
Definition raise {A : Type} (e : exn) : M A := fun s => (s, Raise e).

(** [self.x = v] for an attribute of the binding. *)
Definition bind_attr (f : binding -> binding) : M unit :=
  modify (fun s => set_bound (f (bound s)) s).

(** A [for] loop over a list; [for_acc] carries a local variable. *)
Fixpoint for_each {A : Type} (l : list A) (body : A -> M unit) : M unit :=
  match l with
  | [] => mret tt
  | x :: l => body x ≫= fun _ => for_each l body
  end.

Fixpoint for_acc {A B : Type} (l : list A) (acc : B) (body : B -> A -> M B)
  : M B :=
  match l with
  | [] => mret acc
  | x :: l => body acc x ≫= fun acc => for_acc l acc body
  end.

(** [enumerate]. *)
Definition enumerate {A : Type} (l : list A) : list (nat * A) :=
  zip (seq 0 (length l)) l.

(** Indexing: a missing index is an [IndexError], a missing key a
    [KeyError]. *)
Definition item {A : Type} (l : list A) (i : nat) : result A :=
  match l !! i with Some x => Ok x | None => Raise IndexError end.

Definition sm_item (key : string) : M ndarray :=
  sm ← gets source_mechanisms;
  match sm !! key with Some a => mret a | None => raise KeyError end.

(** The arrays of [source_mechanisms] are read with the number of
    dimensions the constructor gave them. *)
Definition sm_vector (key : string) : M (list npfloat) :=
  a ← sm_item key;
  match a with Arr1 v => mret v | _ => raise TypeError end.

Definition sm_matrix (key : string) : M (list (list npfloat)) :=
  a ← sm_item key;
  match a with Arr2 m => mret m | _ => raise TypeError end.

(** [self.source_mechanisms[key] = a] and
    [self.source_mechanisms[key][i] = x]. *)
Definition sm_assign (key : string) (a : ndarray) : M unit :=
  modify (fun s => set_source_mechanisms (<[key := a]> (source_mechanisms s)) s).

Definition sm_assign_item (key : string) (i : nat) (x : npfloat) : M unit :=
  v ← sm_vector key;
  if decide (i < length v)%nat then sm_assign key (Arr1 (<[i := x]> v))
  else raise IndexError.

(** *** Binding the data: [_data_init] *)

(** The taper of a waveform of [l] samples: [2 * (1 + k)] for [k] from
    [l - 1] down to 0, capped at [l] and divided by [l]. *)
Definition taper_window (l : nat) : list npfloat :=
  let len : npfloat := Fin (INR l) in
  let taper := map (fun k : nat => 2 * (1 + Fin (INR k))) (rev (seq 0 l)) in
  let taper := map (fun x => if x >? len then len else x) taper in
  map (fun x => x / len) taper.

(** The body of the loop over [data.Stream]; [lm] is the longest length
    seen. *)
Definition bind_wavelet (lm : nat) (w : Trace) : M nat :=
  let l := length (tr_data w) in
  peak ← lift (np.max (map np.abs (tr_data w)));
  ws ← gets (fun s => data_wavelets (bound s));
  bind_attr (with_data_wavelets (ws ++ [map (fun x => x / peak) (tr_data w)]));;
  tw ← gets (fun s => data_taperwindows (bound s));
  bind_attr (with_data_taperwindows (tw ++ [taper_window l]));;
  mret (Nat.max lm l).

(** [np.asarray] of a list of rows makes a two-dimensional array only when
    the rows have one length. *)
Definition rectangular {A : Type} (rows : list (list A)) : bool :=
  match rows with
  | [] => true
  | r :: rows => forallb (fun r' => Nat.eqb (length r') (length r)) rows
  end.

(** The body of the loop that binds waveform [i] to the nearest grid
    direction, by the Euclidean distance of the spherical coordinates. *)
Definition bind_index (dat : Wavelets) (i : nat) : M unit :=
  o ← lift (item (sph dat) i);
  g ← gets (fun s => atr (grid s));
  let distances :=
    map (fun p : vec3 =>
           np.sqrt ((o.1.1 - p.1.1)² + (o.1.2 - p.1.2)² + (o.2 - p.2)²)) g in
  d ← lift (np.argmin distances);
  idx ← gets (fun s => data_indexes (bound s));
  bind_attr (with_data_indexes (<[i := d]> idx)).

(** The body of the brute-force search of the optimal stack: the waveform
    enters with the polarity that gives the smaller stack energy. *)
Definition stack_wavelet (opt_stack : list npfloat)
    (wt : list npfloat * list npfloat) : M (list npfloat) :=
  let '(wavelet, taper) := wt in
  let l := length wavelet in
  let flipped := zip_with (fun a t => a * t * Fin (-1)) wavelet taper in
  let plain := zip_with (fun a t => a * t) wavelet taper in
  if decide (l <= length opt_stack)%nat then
    let head := take l opt_stack in
    if np.sum (map np.square (zip_with np.add head flipped))
       >? np.sum (map np.square (zip_with np.add head plain))
    then mret (zip_with np.add head flipped ++ drop l opt_stack)
    else mret (zip_with np.add head plain ++ drop l opt_stack)
  else raise ValueError.

(** [np.linspace(start, stop, num, endpoint=False)]. *)
Definition linspace_open (start stop : R) (num : nat) : list npfloat :=
  map (fun k => Fin (INR k * ((stop - start) / INR num) + start)%R) (seq 0 num).

(** Element-wise product of two one-dimensional arrays, a single entry
    being broadcast. *)
Definition broadcast (op : npfloat -> npfloat -> npfloat)
    (x y : list npfloat) : result (list npfloat) :=
  if decide (length x = length y) then Ok (zip_with op x y)
  else match x, y with
       | [a], _ => Ok (map (op a) y)
       | _, [b] => Ok (map (fun a => op a b) x)
       | _, _ => Raise ValueError
       end.

Definition _data_init (dat : Wavelets) : M unit :=
  bind_attr (with_data (Some dat));;
  bind_attr (with_data_wavelets []);;
  bind_attr (with_data_taperwindows []);;
  lm ← for_acc (Stream dat) 0%nat bind_wavelet;
  ws ← gets (fun s => data_wavelets (bound s));
  (if rectangular ws then mret tt else raise ValueError);;
  bind_attr (with_data_amplitudes (map (map (fun x => x * 0)) ws));;
  bind_attr (with_data_indexes (replicate (length ws) 0%nat));;
  for_each (seq 0 (length (Stream dat))) (bind_index dat);;
  tw ← gets (fun s => data_taperwindows (bound s));
  opt_stack ← for_acc (zip ws tw) (replicate (Pos.to_nat 9999) (Fin 0))
                stack_wavelet;
  let t := linspace_open 0 1 lm in
  taper_i ←
    match length (Stream dat) with
    | O => raise (UnboundLocalError "i")
    | S i => lift (item tw i)
    end;
  synth_stack ←
    lift (broadcast np.mul
            (map (fun x => np.sin (2 * PI * x) * Fin (INR (length ws))) t)
            taper_i);
  bind_attr (with_synth_stack (take lm synth_stack));;
  bind_attr (with_power_synth_stack (np.nansum (map np.square synth_stack)));;
  bind_attr (with_opt_stack (take lm opt_stack));;
  bind_attr (with_power_opt_stack (np.nansum (map np.square opt_stack)));;
  idx ← gets (fun s => data_indexes (bound s));
  size ← gets (fun s => length (atr (grid s)));
  let low :=
    filter (fun d : nat => (Fin (INR (d + 1)) <=? Fin (INR size) / 2) = true) idx in
  let corr := Fin (INR (length (remove_dups low))) * 1 / Fin (INR size) in
  bind_attr (with_model_perfectmodel_corr corr);;
  corr ← lift (np.nanmin [Fin 1; corr]);
  bind_attr (with_model_perfectmodel_corr corr).

(** *** Scoring helpers *)

(** [channel[-1]], the last letter of the channel code. *)
Definition last_letter (channel : string) : result string :=
  match String.length channel with
  | O => Raise IndexError
  | S n => Ok (String.substring n 1 channel)
  end.

(** Lookup in the amplitude cache.  Keys are compared as Python compares
    tuples of floats and strings; the first matching entry is the value. *)
Definition key_eqb (k1 k2 : list npfloat * string * string) : bool :=
  let '(m1, w1, c1) := k1 in
  let '(m2, w2, c2) := k2 in
  bool_decide (length m1 = length m2)
  && forallb (fun ab : npfloat * npfloat => ab.1 =? ab.2) (zip m1 m2)
  && bool_decide (w1 = w2) && bool_decide (c1 = c2).

Fixpoint dict_item (d : list ((list npfloat * string * string) * list npfloat))
    (k : list npfloat * string * string) : result (list npfloat) :=
  match d with
  | [] => Raise KeyError
  | (k', v) :: d => if key_eqb k' k then Ok v else dict_item d k
  end.

(** Element-wise product of two-dimensional arrays of one shape, and the
    NaN-ignoring sum along the first axis (one sum per column). *)
Definition mul_rows (x y : list (list npfloat)) : list (list npfloat) :=
  zip_with (zip_with np.mul) x y.

Definition column (k : nat) (rows : list (list npfloat)) : list npfloat :=
  omap (fun r : list npfloat => r !! k) rows.

Definition nansum_axis0 (rows : list (list npfloat)) : list npfloat :=
  match rows with
  | [] => []
  | r :: _ => map (fun k => np.nansum (column k rows)) (seq 0 (length r))
  end.

(** The amplitude the cache predicts for waveform [j] under mechanism
    [Mo]: the entry of (mechanism, wave type, component letter) at the grid
    direction the waveform is bound to. *)
Definition predicted_amplitude (dat : Wavelets) (Mo : list npfloat) (j : nat)
  : M npfloat :=
  ty ← lift (item (types dat) j);
  tr ← lift (item (Stream dat) j);
  c ← lift (last_letter (channel tr));
  cache ← gets (fun s => modeled_amplitudes (grid s));
  amps ← lift (dict_item cache (Mo, ty, c));
  idx ← gets (fun s => data_indexes (bound s));
  k ← lift (item idx j);
  lift (item amps k).

(** The body of the inner loop: row [j] of [data_amplitudes] is filled with
    the predicted amplitude. *)
Definition fill_amplitude (dat : Wavelets) (Mo : list npfloat) (j : nat)
  : M unit :=
  a ← predicted_amplitude dat Mo j;
  da ← gets (fun s => data_amplitudes (bound s));
  row ← lift (item da j);
  bind_attr (with_data_amplitudes (<[j := map (fun _ => a) row]> da)).

(** The body of the loop over the mechanisms of the grid; [globaldist] is
    the local accumulator [globaldist_opt_stack]. *)
Definition score_mechanism (dat : Wavelets) (globaldist : npfloat) (i : nat)
  : M npfloat :=
  Mt ← sm_matrix "Mt";
  Mo ← lift (item Mt i);
  ws ← gets (fun s => data_wavelets (bound s));
  for_each (seq 0 (length ws)) (fill_amplitude dat Mo);;
  da ← gets (fun s => data_amplitudes (bound s));
  tw ← gets (fun s => data_taperwindows (bound s));
  let corrected_wavelets := mul_rows (mul_rows (map (map np.sign) da) ws) tw in
  let stack_wavelets := nansum_axis0 corrected_wavelets in
  sm_assign_item "rms" i
    (np.nansum (map np.square stack_wavelets)
     * np.sign (np.nansum stack_wavelets));;
  os ← gets (fun s => opt_stack (bound s));
  x ← lift (np.corrcoef os stack_wavelets);
  sm_assign_item "xcorr" i x;;
  mret (globaldist
        + np.nansum (map np.square (zip_with np.sub os stack_wavelets))).

Section Scan.

(** [SeismicSource(mt).Aki_Richards.radpat(wave, obs_sph)[0]]: the
    displacement field of the forward model, through the external
    [MomentTensor]. *)
Variable Aki_Richards_radpat :
  list npfloat -> string -> list vec3 -> result field.

(** The local buffer [forrms[:len(d)] += d]. *)
Definition add_head (buffer d : list npfloat) : result (list npfloat) :=
  if decide (length d <= length buffer)%nat then
    Ok (zip_with np.add (take (length d) buffer) d ++ drop (length d) buffer)
  else Raise ValueError.

(** [corrected_data(mt, data).observations['P(Mt|d)']]: the data, copied,
    are flipped with the polarities the mechanism [mt] predicts and scored
    like a mechanism of the grid.  The title takes [int] of the result,
    which fails on NaN and on an infinity. *)
Definition corrected_data (mt : list npfloat) (dat : Wavelets) : M npfloat :=
  ws ← gets (fun s => waves (grid s));
  cs ← gets (fun s => components (grid s));
  amplitudes ←
    for_acc (enumerate ws) (∅ : gmap (string * string) (list npfloat))
      (fun amplitudes wi_w =>
         let '(wi, w) := wi_w in
         disp ← lift (Aki_Richards_radpat mt w (sph dat));
         comps ← lift (item cs wi);
         for_acc comps amplitudes (fun amplitudes c =>
           r ← lift (disp_component (cart dat) disp (Some c));
           mret (<[(w, c) := r.1]> amplitudes)));
  tw ← gets (fun s => data_taperwindows (bound s));
  forrms ←
    for_acc (enumerate (Stream dat)) (replicate (Pos.to_nat 9999) (Fin 0))
      (fun forrms i_tr =>
         let '(i, tr) := i_tr in
         ty ← lift (item (types dat) i);
         c ← lift (last_letter (channel tr));
         a ← match amplitudes !! (ty, c) with
             | Some a => mret a
             | None => raise KeyError
             end;
         a_i ← lift (item a i);
         let d := map (fun x => x * np.sign a_i) (tr_data tr) in
         taper ← lift (item tw i);
         d ← lift (broadcast np.mul d taper);
         lift (add_head forrms d));
  let rms := np.sum (map np.square forrms) * np.sign (np.sum forrms) in
  pss ← gets (fun s => power_synth_stack (bound s));
  let PdMt := rms / pss in
  PMt ← sm_vector "P(Mt)";
  let PMt := np.nanmean PMt in
  Pd ← sm_item "P(d)";
  match Pd with
  | Arr0 Pd =>
      let PMtd := PdMt * PMt / Pd in
      match 100 * PMtd with
      | Fin _ => mret PMtd
      | NaN => raise ValueError
      | PInf | NInf => raise OverflowError
      end
  | _ => raise TypeError
  end.

(** *** [scan] *)

(** The probabilities: [P(d|Mt)], the preliminary [P(d)] and its two
    limits, and [P(Mt|d)]. *)
Definition scan_probabilities : M unit :=
  rms ← sm_vector "rms";
  pss ← gets (fun s => power_synth_stack (bound s));
  sm_assign "P(d|Mt)" (Arr1 (map (fun r => r / pss) rms));;
  rms ← sm_vector "rms";
  top ← lift (np.nanmax rms);
  let count := length (filter (fun r => (np.abs r >=? top) = true) rms) in
  sm_assign "P(d)" (Arr0 (Fin (INR count) * 0.5 / np.len rms));;
  Pd ← sm_item "P(d)";
  Pd ← match Pd with Arr0 Pd => mret Pd | _ => raise TypeError end;
  PMt ← sm_vector "P(Mt)";
  low ← lift (np.nanmin PMt);
  Pd ← lift (np.max [Pd; low]);
  sm_assign "P(d)" (Arr0 Pd);;
  PdMt ← sm_vector "P(d|Mt)";
  high ← lift (np.nanmax PdMt);
  Pd ← lift (np.min [Pd; high]);
  sm_assign "P(d)" (Arr0 Pd);;
  PdMt ← sm_vector "P(d|Mt)";
  PMt ← sm_vector "P(Mt)";
  prod ← lift (broadcast np.mul PdMt PMt);
  sm_assign "P(Mt|d)" (Arr1 (map (fun x => x / Pd) prod)).

(** The weights of the centroid: [P(Mt|d)] repeated over the columns of
    ['fullMt'], the negative part and the part below the limit voided. *)
Definition centroid_weights (centroid_factor : npfloat) (ncol : nat)
    (PMtd : list npfloat) : list (list npfloat) :=
  let repeat_rms := map (fun p => replicate ncol p) PMtd in
  let repeat_rms :=
    map (map (fun x => if x <? 0 then Fin 0 else x)) repeat_rms in
  let lim := np.nanmean (concat repeat_rms)
             + centroid_factor * np.std (concat repeat_rms) in
  map (map (fun x => if x <? lim then Fin 0 else x)) repeat_rms.

(** The weighted average of the full tensors, column by column. *)
Definition weighted_average (repeat_rms fullMt : list (list npfloat))
  : list npfloat :=
  zip_with (fun n d => n / d / 1)
    (nansum_axis0 (mul_rows repeat_rms fullMt)) (nansum_axis0 repeat_rms).

(** [centroid[0][np.isnan(centroid[0])] = 0.00000000001]. *)
Definition no_nan (c : list npfloat) : list npfloat :=
  map (fun x => if np.isnan x then Fin 0.00000000001 else x) c.

Definition scan_centroid (dat : Wavelets) (centroid_factor : npfloat)
  : M unit :=
  PMtd ← sm_vector "P(Mt|d)";
  fullMt ← sm_matrix "fullMt";
  ncol ← match fullMt with
         | [] => raise ValueError
         | r :: _ => mret (length r)
         end;
  let repeat_rms := centroid_weights centroid_factor ncol PMtd in
  (if bool_decide (length fullMt = length repeat_rms) && rectangular fullMt
   then mret tt else raise ValueError);;
  let c := weighted_average repeat_rms fullMt in
  modify (set_centroid (Some (c, Fin 0)));;
  let c := no_nan c in
  modify (set_centroid (Some (c, Fin 0)));;
  p ← corrected_data c dat;
  modify (set_centroid (Some (c, p))).

Definition scan (dat : Wavelets) (centroid_factor : npfloat) : M unit :=
  _data_init dat;;
  Mt ← sm_matrix "Mt";
  _ ← for_acc (seq 0 (length Mt)) (Fin 0) (score_mechanism dat);
  rms ← sm_vector "rms";
  xcorr ← sm_vector "xcorr";
  (if decide (length rms = length xcorr) then
     sm_assign "xcorr"
       (Arr1 (zip_with (fun x r => if r =? 0 then Fin 0 else x) xcorr rms))
   else raise IndexError);;
  scan_probabilities;;
  PMtd ← sm_vector "P(Mt|d)";
  Mt ← sm_matrix "Mt";
  k ← lift (np.argmax PMtd);
  best ← lift (item Mt k);
  top ← lift (np.nanmax PMtd);
  modify (set_best_likelyhood (Some (best, top)));;
  scan_centroid dat centroid_factor;;
  modify (set_scanned 1%nat).

End Scan.

End SourceScan.

(** * Part 2: properties *)

(** ** Arithmetic on finite values *)

Section FiniteArithmetic.

Local Open Scope R_scope.

Lemma div_Fin (a b : R) : b <> 0 -> np.div (Fin a) (Fin b) = Fin (a / b).
Proof. intros Hb. unfold np.div. rewrite decide_False by assumption. reflexivity. Qed.

Lemma sqrt_Fin (a : R) : 0 <= a -> np.sqrt (Fin a) = Fin (sqrt a).
Proof. intros Ha. unfold np.sqrt. rewrite decide_True by assumption. reflexivity. Qed.

Lemma arcsin_Fin (a : R) : -1 <= a <= 1 -> np.arcsin (Fin a) = Fin (asin a).
Proof. intros Ha. unfold np.arcsin. rewrite decide_True by assumption. reflexivity. Qed.

Lemma arccos_Fin (a : R) : -1 <= a <= 1 -> np.arccos (Fin a) = Fin (acos a).
Proof. intros Ha. unfold np.arccos. rewrite decide_True by assumption. reflexivity. Qed.

Lemma Rsign_pos (a : R) : 0 < a -> np.Rsign a = 1.
Proof. intros Ha. unfold np.Rsign. rewrite decide_True by assumption. reflexivity. Qed.

Lemma Rsign_neg (a : R) : a < 0 -> np.Rsign a = -1.
Proof.
  intros Ha. unfold np.Rsign.
  rewrite decide_False by lra. rewrite decide_True by assumption. reflexivity.
Qed.

Lemma Rsign_0 : np.Rsign 0 = 0.
Proof. unfold np.Rsign. rewrite !decide_False by lra. reflexivity. Qed.

Lemma eqb_Fin (a b : R) : np.eqb (Fin a) (Fin b) = bool_decide (a = b).
Proof. reflexivity. Qed.

End FiniteArithmetic.

(** ** Great-circle distance *)

Section HaversineFacts.

Import Geometry.
Local Open Scope R_scope.

Lemma haversine_a_bounds lon1 lat1 lon2 lat2 :
  - (PI / 2) <= lat1 <= PI / 2 -> - (PI / 2) <= lat2 <= PI / 2 ->
  0 <= sin ((lat2 - lat1) / 2) * sin ((lat2 - lat1) / 2)
       + cos lat1 * cos lat2
         * (sin ((lon2 - lon1) / 2) * sin ((lon2 - lon1) / 2)) <= 1.
Proof.
  intros H1 H2.
  assert (C1 : 0 <= cos lat1) by (apply cos_ge_0; lra).
  assert (C2 : 0 <= cos lat2) by (apply cos_ge_0; lra).
  pose proof (sin2_cos2 lat1) as P1. pose proof (sin2_cos2 lat2) as P2.
  pose proof (sin2_cos2 ((lon2 - lon1) / 2)) as P3.
  unfold Rsqr in P1, P2, P3.
  pose proof (cos_minus lat2 lat1) as Hm.
  pose proof (cos_2a_sin ((lat2 - lat1) / 2)) as Hd.
  replace (2 * ((lat2 - lat1) / 2)) with (lat2 - lat1) in Hd by lra.
  assert (Hb : cos lat1 * cos lat2 - sin lat1 * sin lat2 <= 1).
  { rewrite <- cos_plus. apply COS_bound. }
  set (s := sin ((lat2 - lat1) / 2)) in *.
  set (t := sin ((lon2 - lon1) / 2)) in *.
  set (c1 := cos lat1) in *. set (c2 := cos lat2) in *.
  set (s1 := sin lat1) in *. set (s2 := sin lat2) in *.
  assert (T01 : 0 <= t * t <= 1) by nra.
  assert (Hss : s * s = (1 - c2 * c1 - s2 * s1) / 2) by lra.
  assert (Hcc : 0 <= c1 * c2) by nra.
  split; nra.
Qed.

Lemma asin_sqrt_range a : 0 <= a <= 1 -> 0 <= asin (sqrt a) <= PI / 2.
Proof.
  intros [H0 H1].
  assert (Hs0 : 0 <= sqrt a) by apply sqrt_pos.
  assert (Hs1 : sqrt a <= 1).
  { rewrite <- sqrt_1. apply sqrt_le_1_alt. exact H1. }
  split; [| apply asin_bound].
  destruct (Rle_dec 0 (asin (sqrt a))) as [|Hn]; [assumption|].
  exfalso.
  pose proof (asin_bound (sqrt a)) as [Hl _].
  assert (Hneg : sin (asin (sqrt a)) < 0).
  { apply sin_lt_0_var; lra. }
  rewrite sin_asin in Hneg by lra. lra.
Qed.

(** On finite arguments in range the formula evaluates without leaving the
    finite values, to a distance within the bound. *)
Lemma haversine_formula_range (lon1 lat1 lon2 lat2 radius : R) :
  0 <= radius ->
  - (PI / 2) <= lat1 <= PI / 2 -> - (PI / 2) <= lat2 <= PI / 2 ->
  exists d : R,
    haversine_formula (Fin lon1) (Fin lat1) (Fin lon2) (Fin lat2) (Fin radius)
    = Fin d /\ 0 <= d <= PI * radius.
Proof.
  intros Hr H1 H2. unfold haversine_formula.
  pose proof (haversine_a_bounds lon1 lat1 lon2 lat2 H1 H2) as Ha.
  pose proof (asin_sqrt_range _ Ha) as [Hc0 Hc1].
  cbn [np.sub np.neg np.add].
  rewrite !div_Fin by lra.
  cbn [np.sin np.cos np.square np.mul np.add].
  replace (lat2 + - lat1) with (lat2 - lat1) by lra.
  replace (lon2 + - lon1) with (lon2 - lon1) by lra.
  rewrite sqrt_Fin by lra.
  rewrite arcsin_Fin.
  2:{ split.
      - pose proof (sqrt_pos (sin ((lat2 - lat1) / 2) * sin ((lat2 - lat1) / 2)
          + cos lat1 * cos lat2
            * (sin ((lon2 - lon1) / 2) * sin ((lon2 - lon1) / 2)))). lra.
      - rewrite <- sqrt_1. apply sqrt_le_1_alt. lra. }
  cbn [np.mul]. eexists; split; [reflexivity|]. nra.
Qed.

End HaversineFacts.

Section HaversineRange.

Import Geometry.
Local Open Scope R_scope.

(** The latitudes [haversine] works with lie between the poles: [lat1] and
    [lat2] themselves, or the polar angles that replace them. *)
Definition latitudes_in_range (lat1 lat2 : R) (phi1 phi2 : option R) : Prop :=
  match phi1, phi2 with
  | None, _ => - (PI / 2) <= lat1 <= PI / 2 /\ - (PI / 2) <= lat2 <= PI / 2
  | Some p1, Some p2 => 0 <= p1 <= PI /\ 0 <= p2 <= PI
  | Some _, None => False
  end.

(** C10. For two points with latitudes in [-pi/2, pi/2] (or polar angles in
    [0, pi] given through [phi1], [phi2]) and a radius that is not negative,
    [haversine] returns a finite distance between 0 and [pi * radius]. *)
Theorem haversine_range (lon1 lat1 lon2 lat2 radius : R) (phi1 phi2 : option R) :
  0 <= radius ->
  latitudes_in_range lat1 lat2 phi1 phi2 ->
  exists d : R,
    haversine (Fin lon1) (Fin lat1) (Fin lon2) (Fin lat2) (Fin radius)
              (Fin <$> phi1) (Fin <$> phi2) = Ok (Fin d)
    /\ 0 <= d <= PI * radius.
Proof.
  intros Hr Hl. unfold haversine, latitudes_in_range in *.
  destruct phi1 as [p1|]; [destruct phi2 as [p2|]; [|contradiction]|];
    destruct Hl as [H1 H2]; cbn [fmap option_fmap option_map mbind result_bind].
  - rewrite div_Fin by lra. cbn [np.sub np.neg np.add].
    destruct (haversine_formula_range lon1 (PI / 2 + - p1) lon2
                (PI / 2 + - p2) radius) as (d & Hd & Hb); [lra ..|].
    exists d. rewrite Hd. split; [reflexivity | assumption].
  - destruct (haversine_formula_range lon1 lat1 lon2 lat2 radius)
      as (d & Hd & Hb); [lra ..|].
    exists d. rewrite Hd. split; [reflexivity | assumption].
Qed.

Lemma haversine_range_witness :
  exists d : R,
    haversine (Fin 0) (Fin 0) (Fin 0) (Fin (PI / 2)) (Fin 6371)
              (Fin <$> None) (Fin <$> None) = Ok (Fin d)
    /\ 0 <= d <= PI * 6371.
Proof.
  apply (haversine_range 0 0 0 (PI / 2) 6371 None None).
  - lra.
  - simpl. pose proof PI_RGT_0. lra.
Defined.

(** The same bound on every entry of the broadcast distance grid. *)
Lemma haversine_grid_range (lon1 lat1 : list R) (lon2 lat2 : list (list R))
    (radius : R) :
  0 <= radius ->
  Forall (fun l => - (PI / 2) <= l <= PI / 2) lat1 ->
  Forall (Forall (fun l => - (PI / 2) <= l <= PI / 2)) lat2 ->
  Forall (Forall (Forall (fun x => exists d : R, x = Fin d /\ 0 <= d <= PI * radius)))
         (haversine_grid (map Fin lon1) (map Fin lat1)
                         (map (map Fin) lon2) (map (map Fin) lat2) (Fin radius)).
Proof.
  intros Hr H1 H2. unfold haversine_grid.
  revert lon2. induction H2 as [|row lat2 Hrow _ IH]; intros [|lo lon2];
    simpl; try constructor; [| apply IH].
  clear IH. revert lo. induction Hrow as [|l2 row Hl2 _ IH]; intros [|lo2 lo];
    simpl; try constructor; [| apply IH].
  clear IH. revert lon1. induction H1 as [|l1 lat1 Hl1 _ IH]; intros [|lo1 lon1];
    simpl; try constructor; [| apply IH].
  apply haversine_formula_range; assumption.
Qed.

End HaversineRange.

(** ** Coordinate transforms *)

Section CoordinateFacts.

Import Geometry.
Local Open Scope R_scope.

Lemma sum_squares_nonneg (x y z : R) : 0 <= x * x + y * y + z * z.
Proof. nra. Qed.

Lemma cosine_in_range (x y z : R) :
  x * x + y * y + z * z <> 0 ->
  -1 <= z / sqrt (x * x + y * y + z * z) <= 1.
Proof.
  intros Hn. pose proof (sum_squares_nonneg x y z) as H0.
  set (q := x * x + y * y + z * z) in *.
  assert (Hq : 0 < q) by lra.
  pose proof (sqrt_lt_R0 q Hq) as Hs.
  pose proof (sqrt_sqrt q H0) as Hss.
  assert (Hz : z * z <= sqrt q * sqrt q) by (rewrite Hss; unfold q; nra).
  split.
  - apply Rmult_le_reg_r with (sqrt q); [assumption|].
    unfold Rdiv. rewrite Rmult_assoc, Rinv_l by lra. nra.
  - apply Rmult_le_reg_r with (sqrt q); [assumption|].
    unfold Rdiv. rewrite Rmult_assoc, Rinv_l by lra. nra.
Qed.

(** Away from the origin [cartesian_to_spherical] stays finite. *)
Lemma cartesian_to_spherical1_Fin (x y z : R) :
  x * x + y * y + z * z <> 0 ->
  cartesian_to_spherical1 (Fin x, Fin y, Fin z)
  = (Fin (np.Rarctan2 y x),
     Fin (acos (z / sqrt (x * x + y * y + z * z))),
     Fin (sqrt (x * x + y * y + z * z))).
Proof.
  intros Hn. pose proof (sum_squares_nonneg x y z) as H0.
  unfold cartesian_to_spherical1. cbn [np.square np.mul np.add].
  rewrite sqrt_Fin by assumption.
  assert (Hs : sqrt (x * x + y * y + z * z) <> 0).
  { intros E. apply Hn, sqrt_eq_0; assumption. }
  rewrite !div_Fin by (assumption || lra).
  rewrite arccos_Fin by (apply cosine_in_range; assumption).
  rewrite eqb_Fin, bool_decide_eq_false_2 by assumption.
  reflexivity.
Qed.

(** At the origin the polar angle is the substituted [pi/2 * sign 0]. *)
Lemma cartesian_to_spherical1_origin :
  cartesian_to_spherical1 (Fin 0, Fin 0, Fin 0) = (Fin 0, Fin 0, Fin 0).
Proof.
  unfold cartesian_to_spherical1. cbn [np.square np.mul np.add].
  replace (0 * 0 + 0 * 0 + 0 * 0) with 0 by lra.
  rewrite sqrt_Fin by lra. rewrite sqrt_0.
  rewrite eqb_Fin, bool_decide_eq_true_2 by reflexivity.
  rewrite div_Fin by lra.
  cbn [np.sign np.mul np.arctan2]. rewrite Rsign_0.
  unfold np.Rarctan2. rewrite !decide_False by lra.
  repeat f_equal. lra.
Qed.

Lemma spherical_to_cartesian1_Fin (a t r : R) :
  spherical_to_cartesian1 (ATR (Fin a) (Fin t) (Fin r))
  = (Fin (r * sin t * cos a), Fin (r * sin t * sin a), Fin (r * cos t)).
Proof. reflexivity. Qed.



End CoordinateFacts.

Section RoundTrip.

Import Geometry.
Local Open Scope R_scope.



Definition triple (v : R * R * R) : vec3 :=
  let '(a, t, r) := v in (Fin a, Fin t, Fin r).





End RoundTrip.

(** ** Projection on a component direction *)

Section ProjectionFacts.

Import Geometry.
Local Open Scope R_scope.

Definition Rdot (u v : R * R * R) : R :=
  let '(u0, u1, u2) := u in
  let '(v0, v1, v2) := v in
  u0 * v0 + u1 * v1 + u2 * v2.

Definition Rnorm (u : R * R * R) : R :=
  let '(u0, u1, u2) := u in sqrt (u0 * u0 + u1 * u1 + u2 * u2).

(** The projection of [b] on [a] with the guarded quotient
    [(a.b) / (a.a + 1e-10)], in real arithmetic. *)
Definition Rproject (b a : R * R * R) : R * R * R :=
  let '(a0, a1, a2) := a in
  let k := Rdot a b / (Rdot a a + 1e-10) in
  (k * a0, k * a1, k * a2).

Lemma guard_positive (a : R * R * R) : 0 < Rdot a a + 1e-10.
Proof. destruct a as [[a0 a1] a2]. unfold Rdot. nra. Qed.

Lemma project_vectors1_Fin (b a : R * R * R) :
  project_vectors1 (triple b) (triple a) = triple (Rproject b a).
Proof.
  destruct b as [[b0 b1] b2], a as [[a0 a1] a2].
  pose proof (guard_positive (a0, a1, a2)) as Hg. unfold Rdot in Hg.
  unfold project_vectors1, triple, Rproject, Rdot.
  cbn [np.square np.mul np.add].
  rewrite div_Fin by lra. reflexivity.
Qed.

Lemma cauchy_schwarz (a b : R * R * R) :
  Rdot a b * Rdot a b <= Rdot a a * Rdot b b.
Proof.
  destruct b as [[b0 b1] b2], a as [[a0 a1] a2]. unfold Rdot.
  assert (E : (a0 * a0 + a1 * a1 + a2 * a2) * (b0 * b0 + b1 * b1 + b2 * b2)
              - (a0 * b0 + a1 * b1 + a2 * b2) * (a0 * b0 + a1 * b1 + a2 * b2)
              = (a0 * b1 - a1 * b0) * (a0 * b1 - a1 * b0)
                + (a0 * b2 - a2 * b0) * (a0 * b2 - a2 * b0)
                + (a1 * b2 - a2 * b1) * (a1 * b2 - a2 * b1)) by ring.
  pose proof (Rle_0_sqr (a0 * b1 - a1 * b0)) as S1.
  pose proof (Rle_0_sqr (a0 * b2 - a2 * b0)) as S2.
  pose proof (Rle_0_sqr (a1 * b2 - a2 * b1)) as S3.
  unfold Rsqr in S1, S2, S3. lra.
Qed.

(** The projection is never longer than the projected vector. *)
Lemma projection_bounded (b a : R * R * R) :
  Rnorm (Rproject b a) <= Rnorm b.
Proof.
  pose proof (guard_positive a) as Hg. pose proof (cauchy_schwarz a b) as Hcs.
  destruct b as [[b0 b1] b2], a as [[a0 a1] a2].
  unfold Rproject, Rnorm. apply sqrt_le_1_alt.
  set (q := Rdot (a0, a1, a2) (a0, a1, a2)) in *.
  set (d := Rdot (a0, a1, a2) (b0, b1, b2)) in *.
  set (bb := b0 * b0 + b1 * b1 + b2 * b2).
  assert (Hbb : Rdot (b0, b1, b2) (b0, b1, b2) = bb) by reflexivity.
  rewrite Hbb in Hcs.
  assert (Hq : q = a0 * a0 + a1 * a1 + a2 * a2) by reflexivity.
  assert (Hq0 : 0 <= q) by (rewrite Hq; nra).
  assert (Hb0 : 0 <= bb) by (unfold bb; nra).
  set (D := q + 1e-10) in *. set (k := d / D).
  assert (HkD : k * D = d) by (unfold k; field; lra).
  replace (k * a0 * (k * a0) + k * a1 * (k * a1) + k * a2 * (k * a2))
    with (k * k * q) by (rewrite Hq; ring).
  apply Rmult_le_reg_l with (D * D); [nra|].
  replace (D * D * (k * k * q)) with (d * d * q) by (rewrite <- HkD; ring).
  assert (H1 : d * d * q <= q * q * bb) by nra.
  assert (H2 : q * q <= D * D) by (unfold D; nra).
  nra.
Qed.

Lemma sum_squares_zero (x y z : R) :
  x * x + y * y + z * z = 0 -> x = 0 /\ y = 0 /\ z = 0.
Proof. intros H. repeat split; nra. Qed.

(** [vector_normal] keeps finite points finite and fixes the origin. *)
Lemma vector_normal1_Fin (k : normal_kind) (p : R * R * R) :
  exists a : R * R * R,
    vector_normal1 k (triple p) = triple a
    /\ (p = (0, 0, 0) -> a = (0, 0, 0)).
Proof.
  destruct p as [[x y] z]. unfold vector_normal1, triple.
  destruct (Req_dec (x * x + y * y + z * z) 0) as [H0|Hn].
  - apply sum_squares_zero in H0 as (-> & -> & ->).
    rewrite cartesian_to_spherical1_origin. cbn [np.mul].
    rewrite div_Fin by lra. cbn [np.mul np.sub np.add np.neg].
    destruct k; rewrite ?spherical_to_cartesian1_Fin;
      (eexists (_, _, _); split; [reflexivity|]); intros _;
      repeat f_equal; lra.
  - rewrite cartesian_to_spherical1_Fin by assumption. cbn [np.mul].
    rewrite div_Fin by lra. cbn [np.mul np.sub np.add np.neg].
    destruct k; rewrite ?spherical_to_cartesian1_Fin;
      (eexists (_, _, _); split; [reflexivity|]); intros E;
      inversion E; subst; exfalso; apply Hn; lra.
Qed.

Lemma vector_normal_Fin (k : normal_kind) (XYZ : list (R * R * R)) :
  exists dirs : list (R * R * R),
    map (vector_normal1 k) (map triple XYZ) = map triple dirs
    /\ length dirs = length XYZ
    /\ forall i, XYZ !! i = Some (0, 0, 0) -> dirs !! i = Some (0, 0, 0).
Proof.
  induction XYZ as [|p XYZ (dirs & E & Hl & Hz)].
  - exists []. repeat split. intros i H. rewrite lookup_nil in H. discriminate.
  - destruct (vector_normal1_Fin k p) as (a & Ea & Ha).
    exists (a :: dirs). cbn [map]. rewrite Ea, E. repeat split.
    + cbn. lia.
    + intros [|i] H; cbn in *; [| apply Hz; assumption].
      inversion H; subst. f_equal. apply Ha. reflexivity.
Qed.

Lemma zip_with_project_Fin (b dirs : list (R * R * R)) :
  zip_with project_vectors1 (map triple b) (map triple dirs)
  = map triple (zip_with Rproject b dirs).
Proof.
  revert dirs. induction b as [|bi b IH]; intros [|a dirs]; cbn; try reflexivity.
  rewrite project_vectors1_Fin, IH. reflexivity.
Qed.

Lemma kind_of_supported (v_or_h : string) :
  v_or_h ∈ kinds_meridian ++ kinds_horizontal ++ kinds_vertical ++ kinds_radial ->
  exists k, kind_of v_or_h = Some k.
Proof.
  intros H. unfold kind_of. repeat case_decide; eauto.
  rewrite !elem_of_app in H. tauto.
Qed.

End ProjectionFacts.

Section ProjectionGuard.

Import Geometry.
Local Open Scope R_scope.

(** C8. For a set of finite directions (the zero vector among them or not),
    finite vectors [b] of the same shape and a supported component kind,
    [vector_normal] followed by [project_vectors] raises nothing and returns
    finite values: each projection is [(a.b) / (a.a + 1e-10)] times the
    direction [a], the guarded denominator is positive, the projection is
    no longer than [b], and at a zero direction it is the zero vector. *)
Theorem projection_on_normal_guarded (XYZ b : list (R * R * R))
    (v_or_h : string) :
  v_or_h ∈ kinds_meridian ++ kinds_horizontal ++ kinds_vertical ++ kinds_radial ->
  length b = length XYZ ->
  exists dirs : list (R * R * R),
    vector_normal (map triple XYZ) v_or_h = Ok (map triple dirs)
    /\ project_vectors (map triple b) (map triple dirs)
       = Ok (map triple (zip_with Rproject b dirs))
    /\ Forall2 (fun bi a => 0 < Rdot a a + 1e-10
                            /\ Rnorm (Rproject bi a) <= Rnorm bi) b dirs
    /\ forall i, XYZ !! i = Some (0, 0, 0) ->
         dirs !! i = Some (0, 0, 0)
         /\ forall bi, b !! i = Some bi ->
              zip_with Rproject b dirs !! i = Some (0, 0, 0).
Proof.
  intros Hk Hlen.
  destruct (kind_of_supported v_or_h Hk) as [k Ek].
  destruct (vector_normal_Fin k XYZ) as (dirs & E & Hl & Hz).
  exists dirs. repeat split.
  - unfold vector_normal. rewrite Ek, E. reflexivity.
  - unfold project_vectors. rewrite !length_map.
    rewrite decide_True by lia. rewrite zip_with_project_Fin. reflexivity.
  - assert (Hbd : length b = length dirs) by lia. clear -Hbd.
    revert dirs Hbd. induction b as [|bi b IH]; intros [|a dirs] Hbd;
      cbn in Hbd; try discriminate; constructor.
    + split; [apply guard_positive | apply projection_bounded].
    + apply IH. lia.
  - apply Hz; assumption.
  - intros bi Hbi. rewrite lookup_zip_with, Hbi. cbn.
    rewrite (Hz i) by assumption. cbn.
    destruct bi as [[b0 b1] b2]. unfold Rproject. f_equal.
    repeat f_equal; lra.
Qed.

Lemma projection_on_normal_guarded_witness :
  exists dirs : list (R * R * R),
    vector_normal (map triple [(0, 0, 0); (1, 0, 0)]) "v"
    = Ok (map triple dirs)
    /\ project_vectors (map triple [(1, 2, 3); (1, 1, 1)]) (map triple dirs)
       = Ok (map triple (zip_with Rproject [(1, 2, 3); (1, 1, 1)] dirs))
    /\ Forall2 (fun bi a => 0 < Rdot a a + 1e-10
                            /\ Rnorm (Rproject bi a) <= Rnorm bi)
               [(1, 2, 3); (1, 1, 1)] dirs
    /\ forall i, [(0, 0, 0); (1, 0, 0)] !! i = Some (0, 0, 0) ->
         dirs !! i = Some (0, 0, 0)
         /\ forall bi, [(1, 2, 3); (1, 1, 1)] !! i = Some bi ->
              zip_with Rproject [(1, 2, 3); (1, 1, 1)] dirs !! i
              = Some (0, 0, 0).
Proof.
  apply (projection_on_normal_guarded [(0, 0, 0); (1, 0, 0)]
           [(1, 2, 3); (1, 1, 1)] "v").
  - unfold kinds_meridian, kinds_horizontal, kinds_vertical, kinds_radial.
    set_solver.
  - reflexivity.
Defined.

End ProjectionGuard.

(** ** Signed amplitude along a component *)

Section AmplitudeFacts.

Import Geometry.
Local Open Scope R_scope.

(** The signed amplitude [disp_component] computes at one point, in real
    arithmetic: the norm of the projection times the sign of the biased dot
    product. *)
Definition Ramplitude (d a : R * R * R) : R :=
  Rnorm (Rproject d a) * np.Rsign (Rdot d a + 0.00001).

Lemma norm_Fin (p : R * R * R) : norm (triple p) = Fin (Rnorm p).
Proof.
  destruct p as [[x y] z]. unfold norm, triple, Rnorm.
  cbn [np.square np.mul np.add]. apply sqrt_Fin. nra.
Qed.

Lemma dot_Fin (u v : R * R * R) : dot (triple u) (triple v) = Fin (Rdot u v).
Proof. destruct u as [[u0 u1] u2], v as [[v0 v1] v2]. reflexivity. Qed.

Lemma amplitudes_Fin (disp dirs : list (R * R * R)) :
  zip_with (fun a s => np.mul a (np.sign (np.add s (Fin 0.00001))))
    (map norm (map triple (zip_with Rproject disp dirs)))
    (zip_with dot (map triple disp) (map triple dirs))
  = map Fin (zip_with Ramplitude disp dirs).
Proof.
  revert dirs. induction disp as [|d disp IH]; intros [|a dirs];
    cbn [zip_with map]; try reflexivity.
  rewrite IH, norm_Fin, dot_Fin. reflexivity.
Qed.

(** [disp_component] on finite arrays. *)
Lemma disp_component_Fin (xyz disp dirs : list (R * R * R))
    (comp : option string) :
  match comp with
  | None => dirs = disp
  | Some c => vector_normal (map triple xyz) c = Ok (map triple dirs)
  end ->
  length disp = length dirs ->
  disp_component (map triple xyz) (map triple disp) comp
  = Ok (map Fin (zip_with Ramplitude disp dirs),
        map triple (zip_with Rproject disp dirs)).
Proof.
  intros Hdir Hlen. unfold disp_component.
  destruct comp as [c|]; [rewrite Hdir | subst dirs];
    cbn [mbind result_bind]; unfold project_vectors;
    rewrite !length_map, decide_True by assumption;
    cbn [mbind result_bind];
    rewrite zip_with_project_Fin, amplitudes_Fin; reflexivity.
Qed.

Lemma projection_norm_positive (d a : R * R * R) :
  Rdot d a <> 0 -> 0 < Rnorm (Rproject d a).
Proof.
  intros Hs. pose proof (guard_positive a) as Hg.
  destruct d as [[d0 d1] d2], a as [[a0 a1] a2].
  unfold Rproject, Rnorm. apply sqrt_lt_R0.
  set (k := Rdot (a0, a1, a2) (d0, d1, d2) / (Rdot (a0, a1, a2) (a0, a1, a2) + 1e-10)).
  assert (Hd : Rdot (a0, a1, a2) (d0, d1, d2) <> 0).
  { unfold Rdot in *. intros E. apply Hs. lra. }
  assert (Hk : k <> 0).
  { assert (HkD : k * (Rdot (a0, a1, a2) (a0, a1, a2) + 1e-10)
                  = Rdot (a0, a1, a2) (d0, d1, d2)) by (unfold k; field; lra).
    intros E. rewrite E in HkD. apply Hd. lra. }
  assert (Ha : 0 < a0 * a0 + a1 * a1 + a2 * a2).
  { destruct (Req_dec (a0 * a0 + a1 * a1 + a2 * a2) 0) as [E|E]; [|nra].
    apply sum_squares_zero in E as (-> & -> & ->).
    exfalso. apply Hd. unfold Rdot. ring. }
  assert (Hk2 : 0 < k * k) by nra.
  replace (k * a0 * (k * a0) + k * a1 * (k * a1) + k * a2 * (k * a2))
    with (k * k * (a0 * a0 + a1 * a1 + a2 * a2)) by ring.
  apply Rmult_lt_0_compat; assumption.
Qed.

Lemma projection_norm_nonneg (d a : R * R * R) : 0 <= Rnorm (Rproject d a).
Proof.
  destruct (Rproject d a) as [[x y] z]. unfold Rnorm. apply sqrt_pos.
Qed.

(** How the sign of the amplitude follows the dot product. *)
Definition amplitude_follows_biased_dot (d a : R * R * R) : Prop :=
  let A := Ramplitude d a in
  let s := Rdot d a in
  (s <> -0.00001 -> Rabs A = Rnorm (Rproject d a))
  /\ (0 < s -> 0 < A)
  /\ (s < -0.00001 -> A < 0)
  /\ (-0.00001 < s <= 0 -> A = Rnorm (Rproject d a) /\ 0 <= A)
  /\ (s = -0.00001 -> A = 0).

Lemma amplitude_sign (d a : R * R * R) : amplitude_follows_biased_dot d a.
Proof.
  unfold amplitude_follows_biased_dot, Ramplitude.
  pose proof (projection_norm_nonneg d a) as Hn.
  repeat split.
  - intros Hs. destruct (Rlt_dec 0 (Rdot d a + 0.00001)) as [Hp|Hp].
    + rewrite Rsign_pos by assumption. rewrite Rmult_1_r.
      apply Rabs_pos_eq. assumption.
    + rewrite Rsign_neg by lra.
      replace (Rnorm (Rproject d a) * -1) with (- Rnorm (Rproject d a)) by ring.
      rewrite Rabs_Ropp. apply Rabs_pos_eq. assumption.
  - intros Hs. rewrite Rsign_pos by lra.
    pose proof (projection_norm_positive d a). lra.
  - intros Hs. rewrite Rsign_neg by lra.
    pose proof (projection_norm_positive d a). lra.
  - rewrite Rsign_pos by lra. lra.
  - rewrite Rsign_pos by lra. lra.
  - intros Hs. replace (Rdot d a + 0.00001) with 0 by lra.
    rewrite Rsign_0. ring.
Qed.

End AmplitudeFacts.

Section AmplitudeSign.

Import Geometry.
Local Open Scope R_scope.

Definition supported_component (comp : option string) : Prop :=
  match comp with
  | None => True
  | Some c =>
      c ∈ kinds_meridian ++ kinds_horizontal ++ kinds_vertical ++ kinds_radial
  end.

(** C2, as amended. On finite observation directions and displacements and
    for a supported component (or none), [disp_component] returns at each
    point the norm of the projected displacement times the sign of the dot
    product biased by 1e-5.  So the absolute value of the amplitude is the
    norm of the projection unless the dot product is exactly -1e-5 (where
    the amplitude is zero); the amplitude is positive for a positive dot
    product, negative for a dot product below -1e-5, and not negative for
    a dot product in (-1e-5, 0]. *)
Theorem disp_component_amplitude (xyz disp : list (R * R * R))
    (comp : option string) :
  supported_component comp ->
  length disp = length xyz ->
  exists dirs : list (R * R * R),
    match comp with
    | None => dirs = disp
    | Some c => vector_normal (map triple xyz) c = Ok (map triple dirs)
    end
    /\ disp_component (map triple xyz) (map triple disp) comp
       = Ok (map Fin (zip_with Ramplitude disp dirs),
             map triple (zip_with Rproject disp dirs))
    /\ Forall2 amplitude_follows_biased_dot disp dirs.
Proof.
  intros Hc Hlen.
  assert (Hd : exists dirs : list (R * R * R),
             match comp with
             | None => dirs = disp
             | Some c => vector_normal (map triple xyz) c = Ok (map triple dirs)
             end /\ length disp = length dirs).
  { destruct comp as [c|].
    - destruct (kind_of_supported c Hc) as [k Ek].
      destruct (vector_normal_Fin k xyz) as (dirs & E & Hl & _).
      exists dirs. split; [| lia].
      unfold vector_normal. rewrite Ek, E. reflexivity.
    - exists disp. split; reflexivity. }
  destruct Hd as (dirs & Hdir & Hl). exists dirs.
  split; [assumption|]. split.
  - apply disp_component_Fin; assumption.
  - clear -Hl. revert dirs Hl.
    induction disp as [|d disp IH]; intros [|a dirs] Hl; cbn in Hl;
      try discriminate; constructor; [apply amplitude_sign | apply IH; lia].
Qed.

Lemma disp_component_amplitude_witness :
  exists dirs : list (R * R * R),
    vector_normal (map triple [(1, 0, 0)]) "r" = Ok (map triple dirs)
    /\ disp_component (map triple [(1, 0, 0)]) (map triple [(2, 1, 0)])
                      (Some "r"%string)
       = Ok (map Fin (zip_with Ramplitude [(2, 1, 0)] dirs),
             map triple (zip_with Rproject [(2, 1, 0)] dirs))
    /\ Forall2 amplitude_follows_biased_dot [(2, 1, 0)] dirs.
Proof.
  apply (disp_component_amplitude [(1, 0, 0)] [(2, 1, 0)] (Some "r"%string)).
  - unfold supported_component, kinds_meridian, kinds_horizontal,
      kinds_vertical, kinds_radial. set_solver.
  - reflexivity.
Defined.

(** C2 as stated: the absolute value is the norm of the projection and the
    sign is that of the dot product, a zero dot product counting as
    positive. *)
Definition amplitude_follows_dot (d a : R * R * R) : Prop :=
  let A := Ramplitude d a in
  let s := Rdot d a in
  Rabs A = Rnorm (Rproject d a) /\ (0 <= s -> 0 <= A) /\ (s < 0 -> A < 0).

(** A displacement of -1e-6 along the radial direction [(1, 0, 0)]: the dot
    product is negative, the amplitude positive. *)
Lemma disp_component_sign_counterexample :
  disp_component (map triple [(1, 0, 0)]) (map triple [(-0.000001, 0, 0)])
                 (Some "r"%string)
  = Ok (map Fin [Ramplitude (-0.000001, 0, 0) (1, 0, 0)],
        map triple [Rproject (-0.000001, 0, 0) (1, 0, 0)])
  /\ ~ amplitude_follows_dot (-0.000001, 0, 0) (1, 0, 0).
Proof.
  split.
  - apply (disp_component_Fin [(1, 0, 0)] [(-0.000001, 0, 0)] [(1, 0, 0)]
             (Some "r"%string)); reflexivity.
  - unfold amplitude_follows_dot. intros (_ & _ & Hneg).
    assert (Hs : Rdot (-0.000001, 0, 0) (1, 0, 0) < 0) by (unfold Rdot; lra).
    specialize (Hneg Hs).
    destruct (amplitude_sign (-0.000001, 0, 0) (1, 0, 0))
      as (_ & _ & _ & Hbias & _).
    destruct Hbias as [_ Hpos]; [unfold Rdot; lra | lra].
Qed.

End AmplitudeSign.

(** ** Mechanism given as strike, dip and rake *)

Section DoubleCouple.

Variable MomentTensor : list npfloat -> mopad.

(** C7. A three-element input [strike, dip, rake] comes back unchanged with
    the percentages DC = 100, CLVD = 0, iso = 0 and deviatoric = 100; this
    holds for all values, so for strike in [0, 360), dip in [0, 90] and rake
    in [-180, 180]. *)
Theorem mt_angles_double_couple (strike dip rake : npfloat) :
  mt_angles MomentTensor (Arr1 [strike; dip; rake])
  = Ok ((strike, dip, rake), (Fin 100, Fin 0, Fin 0, Fin 100)).
Proof. reflexivity. Qed.

End DoubleCouple.

(** ** Unknown wave type in the Vavryeuk model *)

Section UnknownWave.

Import Geometry.
Variable MomentTensor : list npfloat -> mopad.

Lemma not_recognized_parts (wave : string) :
  wave ∉ Vavryeuk.recognized_waves ->
  (wave ∉ ["P"; "P-wave"; "P wave"]%string)
  /\ (wave ∉ ["ST"; "St"; "SH"; "Sh"; "Sh-wave"; "Sh wave"; "SH-wave";
              "SH wave"]%string)
  /\ (wave ∉ ["SV"; "Sv"; "Sv-wave"; "Sv wave"; "SV-wave"; "SV wave"]%string)
  /\ (wave ∉ ["S"; "S-wave"; "S wave"]%string)
  /\ (wave ∉ ["S/P"; "s/p"]%string) /\ (wave ∉ ["P/S"; "p/s"]%string)
  /\ (wave ∉ ["SH/P"; "sh/p"]%string) /\ (wave ∉ ["SV/P"; "sv/p"]%string)
  /\ (wave ∉ ["SH/S"; "sh/s"]%string) /\ (wave ∉ ["SV/S"; "sv/s"]%string).
Proof.
  unfold Vavryeuk.recognized_waves. intros Hn.
  repeat split; intros H; apply Hn; clear Hn;
    rewrite ?elem_of_cons in *; tauto.
Qed.

(** C6, what the code does. For a wave-type name outside the recognized
    ones (and a mechanism [mt_angles] accepts) [radpat] prints its message,
    raises no error of its own and goes on to read the amplitude [G] that
    no branch assigned: the call ends in [UnboundLocalError], not in an
    explicit unsupported-option error. *)
Theorem radpat_unknown_wave (self : Vavryeuk.t) (wave : string)
    (obs_cart : option field) (obs_sph : option (list spherical)) :
  wave ∉ Vavryeuk.recognized_waves ->
  Vavryeuk.radpat MomentTensor self wave obs_cart obs_sph
  = match mt_angles MomentTensor (Vavryeuk.mt self) with
    | Raise e => ([], Raise e)
    | Ok _ => (["Can t yet compute this wave type."%string],
               Raise (UnboundLocalError "G"))
    end.
Proof.
  intros Hn.
  destruct (not_recognized_parts wave Hn)
    as (H1 & H2 & H3 & H4 & H5 & H6 & H7 & H8 & H9 & H10).
  unfold Vavryeuk.radpat, Vavryeuk.radpat_body.
  destruct (mt_angles MomentTensor (Vavryeuk.mt self))
    as [[[[strike dip] rake] [[[DC CLVD] iso] deviatoric]]|e]; [|reflexivity].
  rewrite !decide_False by assumption. reflexivity.
Qed.

End UnknownWave.

(** A stand-in for the external decomposition, used where a closed example
    needs one: every tensor is reported as a pure double couple. *)
Definition double_couple_only (_ : list npfloat) : mopad :=
  {| get_DC_percentage := Fin 100; get_CLVD_percentage := Fin 0;
     get_iso_percentage := Fin 0; get_devi_percentage := Fin 100;
     get_fps := ((Fin 0, Fin 90, Fin 0), (Fin 90, Fin 90, Fin 180)) |}.

Lemma radpat_unknown_wave_witness :
  Vavryeuk.radpat double_couple_only
    {| Vavryeuk.mt := Arr1 [Fin 10; Fin 5; Fin 82];
       Vavryeuk.poisson := Fin 0.25 |} "X" None None
  = match mt_angles double_couple_only (Arr1 [Fin 10; Fin 5; Fin 82]) with
    | Raise e => ([], Raise e)
    | Ok _ => (["Can t yet compute this wave type."%string],
               Raise (UnboundLocalError "G"))
    end.
Proof.
  apply (radpat_unknown_wave double_couple_only
           {| Vavryeuk.mt := Arr1 [Fin 10; Fin 5; Fin 82];
              Vavryeuk.poisson := Fin 0.25 |} "X" None None).
  unfold Vavryeuk.recognized_waves. rewrite !elem_of_cons, elem_of_nil.
  intros H. repeat destruct H as [H|H]; try discriminate H. exact H.
Defined.

(** ** Reasoning about methods *)

Section Preservation.

Import SourceScan.

(** A computation preserves a relation between the state it starts from and
    the state it leaves, however it ends. *)
Definition preserves (R : relation SourceScan.t) {A : Type} (m : M A) : Prop :=
  forall s, R s (m s).1.

Context (R : relation SourceScan.t) `{!PreOrder R}.

Lemma preserves_ret {A : Type} (a : A) : preserves R (mret a).
Proof. intros s. reflexivity. Qed.

Lemma preserves_bind {A B : Type} (m : M A) (f : A -> M B) :
  preserves R m -> (forall a, preserves R (f a)) -> preserves R (m ≫= f).
Proof.
  intros Hm Hf s. unfold mbind, M_bind. specialize (Hm s).
  destruct (m s) as [s1 [a|e]]; cbn in *; [| assumption].
  etransitivity; [exact Hm | apply Hf].
Qed.

Lemma preserves_gets {A : Type} (f : SourceScan.t -> A) : preserves R (gets f).
Proof. intros s. reflexivity. Qed.

Lemma preserves_lift {A : Type} (r : result A) : preserves R (lift r).
Proof. intros s. reflexivity. Qed.

Lemma preserves_raise {A : Type} (e : exn) : preserves R (@raise A e).
Proof. intros s. reflexivity. Qed.

Lemma preserves_modify (f : SourceScan.t -> SourceScan.t) :
  (forall s, R s (f s)) -> preserves R (modify f).
Proof. intros Hf s. apply Hf. Qed.

Lemma preserves_for_each {A : Type} (l : list A) (body : A -> M unit) :
  (forall x, preserves R (body x)) -> preserves R (for_each l body).
Proof.
  intros Hb. induction l as [|x l IH]; cbn [for_each].
  - apply preserves_ret.
  - apply preserves_bind; [apply Hb | intros _; exact IH].
Qed.

Lemma preserves_for_acc {A B : Type} (l : list A) (acc : B)
    (body : B -> A -> M B) :
  (forall acc x, preserves R (body acc x)) -> preserves R (for_acc l acc body).
Proof.
  intros Hb. revert acc. induction l as [|x l IH]; intros acc; cbn [for_acc].
  - apply preserves_ret.
  - apply preserves_bind; [apply Hb | intros acc'; apply IH].
Qed.

End Preservation.

(** One step of a preservation proof: split a bind, enter a loop, take the
    branches of a test apart, or hand an assignment to [tac]. *)
Ltac preserves_step tac :=
  match goal with
  | |- preserves _ _ => solve [auto]
  | |- preserves _ (_ ≫= _) =>
      apply preserves_bind; [typeclasses eauto | | intros]
  | |- preserves _ (SourceScan.for_each _ _) =>
      apply preserves_for_each; [typeclasses eauto | intros]
  | |- preserves _ (SourceScan.for_acc _ _ _) =>
      apply preserves_for_acc; [typeclasses eauto | intros]
  | |- preserves _ (mret _) => apply preserves_ret; typeclasses eauto
  | |- preserves _ (SourceScan.gets _) => apply preserves_gets; typeclasses eauto
  | |- preserves _ (SourceScan.lift _) => apply preserves_lift; typeclasses eauto
  | |- preserves _ (SourceScan.raise _) => apply preserves_raise; typeclasses eauto
  | |- preserves _ (SourceScan.modify _) => apply preserves_modify; intros; tac
  | |- preserves _ (SourceScan.bind_attr _) => apply preserves_modify; intros; tac
  | |- preserves _ (SourceScan.sm_assign _ _) => apply preserves_modify; intros; tac
  | |- preserves _ (let '(_, _) := ?p in _) => destruct p
  | |- preserves _ (match ?x with _ => _ end) => destruct x
  end.

Ltac preserves_auto tac := repeat preserves_step tac.

Section ReadingArrays.

Import SourceScan.
Context (R : relation SourceScan.t) `{!PreOrder R}.

Lemma preserves_sm_item key : preserves R (sm_item key).
Proof. unfold sm_item. preserves_auto idtac. Qed.

Lemma preserves_sm_vector key : preserves R (sm_vector key).
Proof. unfold sm_vector. pose proof preserves_sm_item. preserves_auto idtac. Qed.

Lemma preserves_sm_matrix key : preserves R (sm_matrix key).
Proof. unfold sm_matrix. pose proof preserves_sm_item. preserves_auto idtac. Qed.

Lemma preserves_sm_assign_item key i x :
  (forall a, preserves R (sm_assign key a)) ->
  preserves R (sm_assign_item key i x).
Proof.
  intros Ha. unfold sm_assign_item. pose proof preserves_sm_vector.
  preserves_auto idtac.
Qed.

End ReadingArrays.

(** ** The scanner: what a call leaves untouched *)

Section ScanFrame.

Import Geometry SourceScan.

Variable Aki_Richards_radpat :
  list npfloat -> string -> list vec3 -> result field.

(** The keys of [source_mechanisms] that hold results of a scan. *)
Definition result_keys : list string :=
  ["rms"; "xcorr"; "P(d|Mt)"; "P(d)"; "P(Mt|d)"]%string.

(** The grid of [s'] is the grid of [s]: same configuration, observation
    directions and amplitude cache, and the same array under every key
    that is not a result key. *)
Definition keeps_grid (s s' : SourceScan.t) : Prop :=
  grid s' = grid s
  /\ forall key, key ∉ result_keys ->
       source_mechanisms s' !! key = source_mechanisms s !! key.

#[local] Instance keeps_grid_preorder : PreOrder keeps_grid.
Proof.
  split.
  - intros s. split; [reflexivity | intros; reflexivity].
  - intros s1 s2 s3 [G1 K1] [G2 K2]. split; [congruence|].
    intros key Hk. rewrite K2, K1 by assumption. reflexivity.
Qed.

Ltac grid_kept :=
  split; [reflexivity |];
  let key := fresh "key" in let Hk := fresh "Hk" in
  intros key Hk; cbn; try reflexivity;
  apply lookup_insert_ne; intros <-; apply Hk;
  unfold result_keys; rewrite !elem_of_cons; tauto.

Lemma frame_data_init dat : preserves keeps_grid (_data_init dat).
Proof.
  unfold _data_init, bind_wavelet, bind_index, stack_wavelet.
  preserves_auto grid_kept.
Qed.

Lemma frame_score_mechanism dat globaldist i :
  preserves keeps_grid (score_mechanism dat globaldist i).
Proof.
  unfold score_mechanism, fill_amplitude, predicted_amplitude.
  pose proof (preserves_sm_matrix keeps_grid).
  assert (forall key i x, key ∈ result_keys ->
            preserves keeps_grid (sm_assign_item key i x)).
  { intros key j x Hk. apply preserves_sm_assign_item; [apply _|].
    intros a. apply preserves_modify. intros s. split; [reflexivity|].
    intros key' Hk'. cbn. apply lookup_insert_ne. intros <-. contradiction. }
  assert ("rms"%string ∈ result_keys)
    by (unfold result_keys; rewrite !elem_of_cons; tauto).
  assert ("xcorr"%string ∈ result_keys)
    by (unfold result_keys; rewrite !elem_of_cons; tauto).
  preserves_auto grid_kept.
Qed.

Lemma frame_scan_probabilities : preserves keeps_grid scan_probabilities.
Proof.
  unfold scan_probabilities.
  pose proof (preserves_sm_vector keeps_grid).
  pose proof (preserves_sm_item keeps_grid).
  preserves_auto grid_kept.
Qed.

Lemma frame_corrected_data mt dat :
  preserves keeps_grid (corrected_data Aki_Richards_radpat mt dat).
Proof.
  unfold corrected_data.
  pose proof (preserves_sm_vector keeps_grid).
  pose proof (preserves_sm_item keeps_grid).
  preserves_auto grid_kept.
Qed.

Lemma frame_scan_centroid dat centroid_factor :
  preserves keeps_grid (scan_centroid Aki_Richards_radpat dat centroid_factor).
Proof.
  unfold scan_centroid.
  pose proof (preserves_sm_vector keeps_grid).
  pose proof (preserves_sm_matrix keeps_grid).
  pose proof frame_corrected_data.
  preserves_auto grid_kept.
Qed.

Lemma frame_scan dat centroid_factor :
  preserves keeps_grid (scan Aki_Richards_radpat dat centroid_factor).
Proof.
  unfold scan.
  pose proof frame_data_init. pose proof (preserves_sm_matrix keeps_grid).
  pose proof (preserves_sm_vector keeps_grid).
  pose proof frame_score_mechanism.
  pose proof frame_scan_probabilities. pose proof frame_scan_centroid.
  preserves_auto grid_kept.
Qed.

(** C9. However a call of [scan] ends, it leaves the grid as the
    constructor built it: the configuration, the observation directions and
    the cache of modeled amplitudes are the same, and so is the array under
    every key of [source_mechanisms] other than ['rms'], ['xcorr'],
    ['P(d|Mt)'], ['P(d)'] and ['P(Mt|d)'], hence under ['Mt'], ['fullMt'],
    ['P-axis'], ['T-axis'] and ['P(Mt)'].  What [scan] assigns besides those
    five keys are attributes outside the grid: the data binding, the best
    likelihood, the centroid and the [scanned] flag. *)
Theorem scan_keeps_grid (dat : Wavelets) (centroid_factor : npfloat)
    (s : SourceScan.t) :
  let s' := (scan Aki_Richards_radpat dat centroid_factor s).1 in
  grid s' = grid s
  /\ (forall key, key ∉ result_keys ->
        source_mechanisms s' !! key = source_mechanisms s !! key)
  /\ Forall (fun key => source_mechanisms s' !! key = source_mechanisms s !! key)
       ["Mt"; "fullMt"; "P-axis"; "T-axis"; "P(Mt)"]%string.
Proof.
  destruct (frame_scan dat centroid_factor s) as [Hg Hk].
  cbn zeta. split; [exact Hg|]. split; [exact Hk|].
  repeat constructor; apply Hk; unfold result_keys;
    rewrite !elem_of_cons, elem_of_nil; intros E;
    repeat destruct E as [E|E]; discriminate || assumption.
Qed.

End ScanFrame.

(** ** The scanner: what a call that returns has computed *)

Section WeakestPrecondition.

Import SourceScan.

(** [wp m Q s]: if [m], started in [s], returns, [Q] holds of the value
    returned and the state left. *)
Definition wp {A : Type} (m : M A) (Q : A -> SourceScan.t -> Prop)
    (s : SourceScan.t) : Prop :=
  match m s with
  | (s', Ok a) => Q a s'
  | (_, Raise _) => True
  end.

Lemma wp_run {A : Type} (m : M A) Q s s' a :
  wp m Q s -> m s = (s', Ok a) -> Q a s'.
Proof. unfold wp. intros H E. rewrite E in H. exact H. Qed.

Lemma wp_any {A : Type} (m : M A) (Q : A -> SourceScan.t -> Prop) s :
  (forall a s', Q a s') -> wp m Q s.
Proof. intros H. unfold wp. destruct (m s) as [s' [a|e]]; auto. Qed.

Lemma wp_mono {A : Type} (m : M A) (Q Q' : A -> SourceScan.t -> Prop) s :
  wp m Q s -> (forall a s', Q a s' -> Q' a s') -> wp m Q' s.
Proof. unfold wp. intros H HQ. destruct (m s) as [s' [a|e]]; auto. Qed.

Lemma wp_conj {A : Type} (m : M A) (Q Q' : A -> SourceScan.t -> Prop) s :
  wp m Q s -> wp m Q' s -> wp m (fun a s' => Q a s' /\ Q' a s') s.
Proof. unfold wp. intros H H'. destruct (m s) as [s' [a|e]]; auto. Qed.

Lemma wp_ret {A : Type} (a : A) (Q : A -> SourceScan.t -> Prop) s :
  Q a s -> wp (mret a) Q s.
Proof. intros H. exact H. Qed.

Lemma wp_bind {A B : Type} (m : M A) (f : A -> M B) Q s :
  wp m (fun a s' => wp (f a) Q s') s -> wp (m ≫= f) Q s.
Proof.
  unfold wp, mbind, M_bind. destruct (m s) as [s' [a|e]]; auto.
Qed.

Lemma wp_gets {A : Type} (f : SourceScan.t -> A) Q s :
  Q (f s) s -> wp (gets f) Q s.
Proof. intros H. exact H. Qed.

Lemma wp_modify (f : SourceScan.t -> SourceScan.t) Q s :
  Q tt (f s) -> wp (modify f) Q s.
Proof. intros H. exact H. Qed.

Lemma wp_lift {A : Type} (r : result A) (Q : A -> SourceScan.t -> Prop) s :
  (forall a, r = Ok a -> Q a s) -> wp (lift r) Q s.
Proof. intros H. unfold wp, lift. destruct r; auto. Qed.

Lemma wp_raise {A : Type} (e : exn) (Q : A -> SourceScan.t -> Prop) s :
  wp (raise e) Q s.
Proof. exact I. Qed.

Lemma wp_preserves (R : relation SourceScan.t) {A : Type} (m : M A) s :
  preserves R m -> wp m (fun _ s' => R s s') s.
Proof.
  intros H. specialize (H s). unfold wp.
  destruct (m s) as [s' [a|e]]; auto.
Qed.

Lemma wp_sm_item key (Q : ndarray -> SourceScan.t -> Prop) s :
  (forall a, source_mechanisms s !! key = Some a -> Q a s) ->
  wp (sm_item key) Q s.
Proof.
  intros H. unfold sm_item. apply wp_bind, wp_gets.
  destruct (source_mechanisms s !! key) as [a|]; [| apply wp_raise].
  apply wp_ret. auto.
Qed.

Lemma wp_sm_vector key (Q : list npfloat -> SourceScan.t -> Prop) s :
  (forall v, source_mechanisms s !! key = Some (Arr1 v) -> Q v s) ->
  wp (sm_vector key) Q s.
Proof.
  intros H. unfold sm_vector. apply wp_bind, wp_sm_item. intros a Ha.
  destruct a; try apply wp_raise. apply wp_ret. auto.
Qed.

Lemma wp_sm_matrix key (Q : list (list npfloat) -> SourceScan.t -> Prop) s :
  (forall m, source_mechanisms s !! key = Some (Arr2 m) -> Q m s) ->
  wp (sm_matrix key) Q s.
Proof.
  intros H. unfold sm_matrix. apply wp_bind, wp_sm_item. intros a Ha.
  destruct a; try apply wp_raise. apply wp_ret. auto.
Qed.

Lemma wp_sm_assign_item key i x (Q : unit -> SourceScan.t -> Prop) s :
  (forall v, source_mechanisms s !! key = Some (Arr1 v) -> (i < length v)%nat ->
     Q tt (set_source_mechanisms
             (<[key := Arr1 (<[i := x]> v)]> (source_mechanisms s)) s)) ->
  wp (sm_assign_item key i x) Q s.
Proof.
  intros H. unfold sm_assign_item. apply wp_bind, wp_sm_vector. intros v Hv.
  case_decide; [| apply wp_raise]. apply wp_modify. auto.
Qed.

(** A loop over [start, start + n) with an invariant indexed by the number
    of the next iteration. *)
Lemma wp_for_acc_seq {B : Type} (I : nat -> B -> SourceScan.t -> Prop)
    (n start : nat) (acc : B) (body : B -> nat -> M B) s :
  I start acc s ->
  (forall k acc s, (start <= k < start + n)%nat -> I k acc s ->
     wp (body acc k) (fun acc' s' => I (S k) acc' s') s) ->
  wp (for_acc (seq start n) acc body) (fun acc' s' => I (start + n)%nat acc' s') s.
Proof.
  revert start acc s. induction n as [|n IH]; intros start acc s H0 Hb.
  - cbn. apply wp_ret. rewrite Nat.add_0_r. exact H0.
  - cbn [seq for_acc]. apply wp_bind.
    eapply wp_mono; [apply (Hb start); [lia | exact H0]|].
    intros acc' s' H1. cbn beta in H1.
    replace (start + S n)%nat with (S start + n)%nat by lia.
    apply IH; [exact H1|]. intros k acc0 s0 Hk. apply Hb. lia.
Qed.

Lemma wp_for_each_seq (I : nat -> SourceScan.t -> Prop)
    (n start : nat) (body : nat -> M unit) s :
  I start s ->
  (forall k s, (start <= k < start + n)%nat -> I k s ->
     wp (body k) (fun _ s' => I (S k) s') s) ->
  wp (for_each (seq start n) body) (fun _ s' => I (start + n)%nat s') s.
Proof.
  revert start s. induction n as [|n IH]; intros start s H0 Hb.
  - cbn. apply wp_ret. rewrite Nat.add_0_r. exact H0.
  - cbn [seq for_each]. apply wp_bind.
    eapply wp_mono; [apply (Hb start); [lia | exact H0]|].
    intros [] s' H1. cbn beta in H1.
    replace (start + S n)%nat with (S start + n)%nat by lia.
    apply IH; [exact H1|]. intros k s0 Hk. apply Hb. lia.
Qed.

End WeakestPrecondition.

(** Unfolding of the attribute assignments under the projections. *)
Ltac state_simpl :=
  cbn [SourceScan.grid SourceScan.source_mechanisms SourceScan.scanned
       SourceScan.bound SourceScan.best_likelyhood SourceScan.centroid
       SourceScan.set_source_mechanisms SourceScan.set_scanned
       SourceScan.set_bound SourceScan.set_best_likelyhood
       SourceScan.set_centroid
       SourceScan.data SourceScan.data_wavelets SourceScan.data_taperwindows
       SourceScan.data_amplitudes SourceScan.data_indexes
       SourceScan.synth_stack SourceScan.power_synth_stack
       SourceScan.opt_stack SourceScan.power_opt_stack
       SourceScan.model_perfectmodel_corr
       SourceScan.with_data SourceScan.with_data_wavelets
       SourceScan.with_data_taperwindows SourceScan.with_data_amplitudes
       SourceScan.with_data_indexes SourceScan.with_synth_stack
       SourceScan.with_power_synth_stack SourceScan.with_opt_stack
       SourceScan.with_power_opt_stack
       SourceScan.with_model_perfectmodel_corr].

Ltac state_simpl_in H :=
  cbn [SourceScan.grid SourceScan.source_mechanisms SourceScan.scanned
       SourceScan.bound SourceScan.best_likelyhood SourceScan.centroid
       SourceScan.set_source_mechanisms SourceScan.set_scanned
       SourceScan.set_bound SourceScan.set_best_likelyhood
       SourceScan.set_centroid
       SourceScan.data SourceScan.data_wavelets SourceScan.data_taperwindows
       SourceScan.data_amplitudes SourceScan.data_indexes
       SourceScan.synth_stack SourceScan.power_synth_stack
       SourceScan.opt_stack SourceScan.power_opt_stack
       SourceScan.model_perfectmodel_corr
       SourceScan.with_data SourceScan.with_data_wavelets
       SourceScan.with_data_taperwindows SourceScan.with_data_amplitudes
       SourceScan.with_data_indexes SourceScan.with_synth_stack
       SourceScan.with_power_synth_stack SourceScan.with_opt_stack
       SourceScan.with_power_opt_stack
       SourceScan.with_model_perfectmodel_corr] in H.

(** A lookup just read: reduce it through the assignments made so far and
    identify what was read. *)
Ltac sm_read H :=
  state_simpl_in H;
  repeat first [ rewrite lookup_insert_eq in H
               | rewrite lookup_insert_ne in H by discriminate ];
  try match type of H with
      | ?l = Some _ =>
          match goal with
          | H' : l = Some _ |- _ =>
              lazymatch H' with H => fail | _ => rewrite H' in H end
          end
      end;
  try match type of H with
      | Some (Arr0 ?x) = Some (Arr0 ?y) =>
          is_var y; assert (y = x) as -> by congruence; clear H
      | Some (Arr1 ?x) = Some (Arr1 ?y) =>
          is_var y; assert (y = x) as -> by congruence; clear H
      | Some (Arr2 ?x) = Some (Arr2 ?y) =>
          is_var y; assert (y = x) as -> by congruence; clear H
      | Some ?x = Some ?y =>
          is_var y; assert (y = x) as -> by congruence; clear H
      end.

(** Symbolic execution of one statement. *)
Ltac wp_step :=
  match goal with
  | |- wp (_ ≫= _) _ _ => apply wp_bind
  | |- wp (mret _) _ _ => apply wp_ret
  | |- wp (SourceScan.gets _) _ _ => apply wp_gets
  | |- wp (SourceScan.raise _) _ _ => apply wp_raise
  | |- wp (SourceScan.lift _) _ _ => apply wp_lift; intros ? ?
  | |- wp (SourceScan.modify _) _ _ => apply wp_modify
  | |- wp (SourceScan.bind_attr _) _ _ => apply wp_modify
  | |- wp (SourceScan.sm_assign _ _) _ _ => apply wp_modify
  | |- wp (SourceScan.sm_item _) _ _ =>
      let H := fresh "Hsm" in apply wp_sm_item; intros ? H; sm_read H
  | |- wp (SourceScan.sm_vector _) _ _ =>
      let H := fresh "Hsm" in apply wp_sm_vector; intros ? H; sm_read H
  | |- wp (SourceScan.sm_matrix _) _ _ =>
      let H := fresh "Hsm" in apply wp_sm_matrix; intros ? H; sm_read H
  | |- wp (SourceScan.sm_assign_item _ _ _) _ _ =>
      let H := fresh "Hsm" in
      apply wp_sm_assign_item; intros ? H ?; sm_read H
  | |- wp (if ?b then _ else _) _ _ => destruct b eqn:?
  | |- wp (match ?x with _ => _ end) _ _ => destruct x eqn:?
  end.

Ltac wp_steps := repeat (wp_step; state_simpl).

(** From a run that returned to the weakest precondition of its goal. *)
Ltac wp_of Hrun :=
  match type of Hrun with
  | ?m ?s = (?s', Ok ?a) =>
      pattern s';
      match goal with
      | |- ?Q s' => apply (wp_run m (fun _ => Q) s s' a); [| exact Hrun]
      end;
      clear Hrun
  end.

Section Centroid.

Import Geometry SourceScan.

Variable Aki_Richards_radpat :
  list npfloat -> string -> list vec3 -> result field.





End Centroid.

Section DataProbability.

Import Geometry SourceScan.

Variable Aki_Richards_radpat :
  list npfloat -> string -> list vec3 -> result field.

(** How many mechanisms have an absolute score that meets or exceeds the
    largest score. *)
Definition tail_count (rms : list npfloat) (top : npfloat) : nat :=
  length (filter (fun r => np.ge (np.abs r) top = true) rms).

(** Half of the fraction of such mechanisms: the preliminary [P(d)]. *)
Definition half_tail_fraction (rms : list npfloat) (top : npfloat) : npfloat :=
  (Fin (INR (tail_count rms top)) * Fin 0.5 / np.len rms)%npf.

(** The fraction itself, as the specification words the preliminary
    [P(d)]. *)
Definition tail_fraction (rms : list npfloat) (top : npfloat) : npfloat :=
  (Fin (INR (tail_count rms top)) / np.len rms)%npf.

(** [np.max [x; low]] then [np.min [.; high]]. *)
Definition clamp (x low high : npfloat) : npfloat :=
  np.minimum (np.maximum x low) high.

(** What the arrays hold once the probabilities are computed. *)
Definition probabilities_computed (sm : gmap string ndarray) : Prop :=
  exists rms PMt PdMt top low high,
    sm !! "rms" = Some (Arr1 rms)
    /\ sm !! "P(Mt)" = Some (Arr1 PMt)
    /\ sm !! "P(d|Mt)" = Some (Arr1 PdMt)
    /\ np.nanmax rms = Ok top
    /\ np.nanmin PMt = Ok low
    /\ np.nanmax PdMt = Ok high
    /\ sm !! "P(d)" = Some (Arr0 (clamp (half_tail_fraction rms top) low high)).

Lemma scan_probabilities_spec s :
  wp scan_probabilities
     (fun _ s' => probabilities_computed (source_mechanisms s')) s.
Proof.
  unfold scan_probabilities. wp_steps.
  rename v into rms, a into top, v0 into PMt, a0 into low, a2 into high.
  unfold np.max in H1. unfold np.min in H3. cbn [foldl] in H1, H3.
  assert (a1 = np.maximum (half_tail_fraction rms top) low) as ->
    by (unfold half_tail_fraction, tail_count; congruence).
  assert (a3 = clamp (half_tail_fraction rms top) low high) as ->
    by (unfold clamp; congruence).
  exists rms, PMt, (map (fun r => (r / power_synth_stack (bound s))%npf) rms),
    top, low, high.
  repeat first [ rewrite lookup_insert_eq
               | rewrite lookup_insert_ne by discriminate ].
  auto 10.
Qed.

(** The arrays of [s'] are those of [s]. *)
Definition same_arrays (s s' : SourceScan.t) : Prop :=
  source_mechanisms s' = source_mechanisms s.

#[local] Instance same_arrays_preorder : PreOrder same_arrays.
Proof.
  split; [intros s; reflexivity |].
  intros s1 s2 s3 H1 H2. unfold same_arrays in *. congruence.
Qed.

Lemma corrected_data_same_arrays mt dat :
  preserves same_arrays (corrected_data Aki_Richards_radpat mt dat).
Proof.
  unfold corrected_data.
  pose proof (preserves_sm_vector same_arrays).
  pose proof (preserves_sm_item same_arrays).
  preserves_auto idtac.
Qed.

Lemma scan_centroid_same_arrays dat centroid_factor :
  preserves same_arrays
    (scan_centroid Aki_Richards_radpat dat centroid_factor).
Proof.
  unfold scan_centroid.
  pose proof (preserves_sm_vector same_arrays).
  pose proof (preserves_sm_matrix same_arrays).
  pose proof corrected_data_same_arrays.
  preserves_auto ltac:(reflexivity).
Qed.

(** C4, as amended. After a call of [scan] that returns, the stored [P(d)]
    is half the fraction of grid mechanisms whose absolute rms meets or
    exceeds the largest rms (the count times 0.5 over the number of
    mechanisms), raised to the smallest [P(Mt)] of the grid where it is
    below it and then lowered to the largest [P(d|Mt)] where it is above
    it. *)
Theorem scan_data_probability (dat : Wavelets) (centroid_factor : npfloat)
    (s s' : SourceScan.t) :
  scan Aki_Richards_radpat dat centroid_factor s = (s', Ok tt) ->
  exists rms PMt PdMt top low high,
    source_mechanisms s' !! "rms" = Some (Arr1 rms)
    /\ source_mechanisms s' !! "P(Mt)" = Some (Arr1 PMt)
    /\ source_mechanisms s' !! "P(d|Mt)" = Some (Arr1 PdMt)
    /\ np.nanmax rms = Ok top
    /\ np.nanmin PMt = Ok low
    /\ np.nanmax PdMt = Ok high
    /\ source_mechanisms s' !! "P(d)"
       = Some (Arr0 (np.minimum
                       (np.maximum
                          (Fin (INR (tail_count rms top)) * Fin 0.5
                           / np.len rms)%npf
                          low)
                       high)).
Proof.
  intros Hrun.
  change (probabilities_computed (source_mechanisms s')).
  wp_of Hrun. unfold scan.
  do 6 (apply wp_bind, wp_any; intros).
  apply wp_bind. eapply wp_mono; [apply scan_probabilities_spec|].
  intros [] s1 Hp. cbn beta.
  eapply wp_mono.
  - apply (wp_preserves same_arrays).
    pose proof (preserves_sm_vector same_arrays).
    pose proof (preserves_sm_matrix same_arrays).
    pose proof scan_centroid_same_arrays.
    preserves_auto ltac:(reflexivity).
  - intros [] s2 Hs. cbn beta in Hs. rewrite Hs. exact Hp.
Qed.

End DataProbability.

(** ** The match score *)

Section MatchScoreVocabulary.

Import Geometry SourceScan.
Local Open Scope npfloat_scope.

(** The precomputed amplitude of waveform [j] under mechanism [Mo]: the
    cache entry of the mechanism, the wave type and the component letter of
    the waveform, read at the grid direction the waveform is bound to. *)
Definition bound_amplitude (dat : Wavelets) (s : SourceScan.t)
    (Mo : list npfloat) (j : nat) : result npfloat :=
  ty ← item (types dat) j;
  tr ← item (Stream dat) j;
  c ← last_letter (channel tr);
  amps ← dict_item (modeled_amplitudes (grid s)) (Mo, ty, c);
  k ← item (data_indexes (bound s)) j;
  item amps k.

(** Each waveform multiplied by the sign of its amplitude and by its
    taper. *)
Definition polarity_corrected (amps : list npfloat)
    (ws tw : list (list npfloat)) : list (list npfloat) :=
  zip_with (fun a wt => zip_with (fun x t => np.sign a * x * t) wt.1 wt.2)
           amps (zip ws tw).

(** The stack of the waveforms, sample by sample, and the score of a
    stack: the sum of its squares times the sign of its sum (sums that skip
    NaN, as [np.nansum]). *)
Definition stack (waveforms : list (list npfloat)) : list npfloat :=
  nansum_axis0 waveforms.

Definition signed_power (stack : list npfloat) : npfloat :=
  np.nansum (map np.square stack) * np.sign (np.nansum stack).

(** The same on finite samples, with plain sums of reals. *)
Definition Rsum (l : list R) : R := foldl Rplus 0%R l.

Definition Rstack (waveforms : list (list R)) : list R :=
  match waveforms with
  | [] => []
  | r :: _ =>
      map (fun k => Rsum (omap (fun w : list R => w !! k) waveforms))
          (seq 0 (length r))
  end.

Definition Rsigned_power (stack : list R) : R :=
  (Rsum (map (fun x => x * x) stack) * np.Rsign (Rsum stack))%R.

End MatchScoreVocabulary.

Section MatchScoreLemmas.

Import Geometry SourceScan.
Local Open Scope npfloat_scope.

Lemma predicted_amplitude_pure dat Mo j s :
  predicted_amplitude dat Mo j s = (s, bound_amplitude dat s Mo j).
Proof.
  unfold predicted_amplitude, bound_amplitude.
  unfold mbind, M_bind, result_bind, lift, gets.
  destruct (item (types dat) j) as [ty|e]; cbv beta iota; [|reflexivity].
  destruct (item (Stream dat) j) as [tr|e]; cbv beta iota; [|reflexivity].
  destruct (last_letter (channel tr)) as [c|e]; cbv beta iota; [|reflexivity].
  destruct (dict_item (modeled_amplitudes (grid s)) (Mo, ty, c)) as [amps|e];
    cbv beta iota; [|reflexivity].
  destruct (item (data_indexes (bound s)) j) as [k|e]; reflexivity.
Qed.

(** A row filled with one amplitude, its sign taken and multiplied with a
    waveform of the row's length and a taper. *)
Lemma corrected_row (a : npfloat) (row w t : list npfloat) :
  length row = length w ->
  zip_with np.mul (zip_with np.mul (map np.sign (map (fun _ => a) row)) w) t
  = zip_with (fun x t => np.sign a * x * t) w t.
Proof.
  revert w t. induction row as [|r row IH]; intros [|x w] t Hl;
    cbn in Hl; try discriminate; [reflexivity|].
  destruct t as [|y t]; [reflexivity|]. cbn. f_equal. apply IH. lia.
Qed.

Lemma corrected_rows (amps : list npfloat) (da ws tw : list (list npfloat)) :
  map length da = map length ws ->
  length amps = length da ->
  mul_rows
    (mul_rows
       (map (map np.sign)
            (zip_with (fun a row => map (fun _ : npfloat => a) row) amps da))
       ws) tw
  = polarity_corrected amps ws tw.
Proof.
  unfold mul_rows, polarity_corrected.
  revert da ws tw. induction amps as [|a amps IH]; intros [|row da] ws tw Hs Hl;
    cbn in Hl; try discriminate; [reflexivity|].
  destruct ws as [|w ws]; cbn in Hs; [discriminate|].
  injection Hs as Hrow Hs.
  destruct tw as [|t tw]; [reflexivity|]. cbn.
  f_equal; [apply corrected_row; exact Hrow | apply IH; [exact Hs | lia]].
Qed.

(** Filling row [k] after the rows before it. *)
Lemma fill_next {A B : Type} (f : A -> B -> B) (amps : list A) (a : A)
    (da : list B) (row : B) (k : nat) :
  length amps = k -> da !! k = Some row ->
  <[k := f a row]> (zip_with f amps (take k da) ++ drop k da)
  = zip_with f (amps ++ [a]) (take (S k) da) ++ drop (S k) da.
Proof.
  intros Hl Hrow.
  assert (Hk : (k < length da)%nat) by (eapply lookup_lt_Some; exact Hrow).
  assert (Hz : length (zip_with f amps (take k da)) = k).
  { rewrite length_zip_with, length_take. lia. }
  rewrite (take_S_r da k row Hrow).
  rewrite (drop_S da row k Hrow).
  rewrite zip_with_app by (rewrite length_take; lia).
  cbn [zip_with]. rewrite <- app_assoc. cbn [app].
  rewrite insert_app_r_alt by lia.
  rewrite Hz, Nat.sub_diag. reflexivity.
Qed.

Lemma zip_with_fill_lengths (amps : list npfloat) (da : list (list npfloat)) :
  length amps = length da ->
  map length (zip_with (fun a row => map (fun _ : npfloat => a) row) amps da)
  = map length da.
Proof.
  revert da. induction amps as [|a amps IH]; intros [|row da] Hl;
    cbn in Hl; try discriminate; [reflexivity|].
  cbn. rewrite length_map. f_equal. apply IH. lia.
Qed.

End MatchScoreLemmas.

Section MatchScoreLoop.

Import Geometry SourceScan.
Local Open Scope npfloat_scope.

Lemma wp_predicted_amplitude dat Mo j (Q : npfloat -> SourceScan.t -> Prop) s :
  (forall a, bound_amplitude dat s Mo j = Ok a -> Q a s) ->
  wp (predicted_amplitude dat Mo j) Q s.
Proof.
  intros H. unfold wp. rewrite predicted_amplitude_pure.
  destruct (bound_amplitude dat s Mo j); auto.
Qed.

(** The rows of [data_amplitudes] filled with the amplitudes [amps]. *)
Definition filled (amps : list npfloat) (da : list (list npfloat))
  : list (list npfloat) :=
  zip_with (fun a row => map (fun _ : npfloat => a) row) amps da.

(** The amplitudes the cache holds for the waveforms under [Mo]. *)
Definition amplitudes_of (dat : Wavelets) (s : SourceScan.t)
    (Mo : list npfloat) (n : nat) (amps : list npfloat) : Prop :=
  length amps = n
  /\ forall j a, amps !! j = Some a -> bound_amplitude dat s Mo j = Ok a.

Lemma state_eta (s : SourceScan.t) :
  s = set_bound (with_data_amplitudes (data_amplitudes (bound s)) (bound s)) s.
Proof. destruct s as [g sm sc [] bl c]. reflexivity. Qed.

(** The inner loop fills every row with the amplitude of its waveform and
    assigns nothing else. *)
Lemma fill_loop_spec dat Mo s :
  wp (for_each (seq 0 (length (data_amplitudes (bound s))))
               (fill_amplitude dat Mo))
     (fun _ s' =>
        exists amps,
          amplitudes_of dat s Mo (length (data_amplitudes (bound s))) amps
          /\ s' = set_bound
                    (with_data_amplitudes
                       (filled amps (data_amplitudes (bound s))) (bound s)) s)
     s.
Proof.
  set (da := data_amplitudes (bound s)).
  pose (I := fun (k : nat) (s' : SourceScan.t) =>
    exists amps,
      amplitudes_of dat s Mo k amps
      /\ s' = set_bound
                (with_data_amplitudes (filled amps (take k da) ++ drop k da)
                                      (bound s)) s).
  eapply wp_mono.
  - apply (wp_for_each_seq I).
    + exists []. split; [split; [reflexivity | intros j a H; discriminate]|].
      cbn. apply state_eta.
    + intros k s' [_ Hk] (amps & [Hl Ha] & ->). cbn in Hk.
      unfold fill_amplitude.
      apply wp_bind, wp_predicted_amplitude. intros a Hamp.
      wp_steps. rename a0 into row, H into Hrow.
      exists (amps ++ [a]). split; [split|].
      * rewrite length_app. cbn. lia.
      * intros j b Hj. destruct (decide (j < k)%nat) as [Hlt|Hge].
        -- rewrite lookup_app_l in Hj by lia. apply Ha. exact Hj.
        -- rewrite lookup_app_r in Hj by lia.
           destruct (j - length amps)%nat as [|?] eqn:E; [| discriminate].
           cbn in Hj. injection Hj as <-.
           assert (j = k) as -> by lia. exact Hamp.
      * assert (Hda : da !! k = Some row).
        { unfold item in Hrow.
          destruct ((filled amps (take k da) ++ drop k da) !! k)
            as [row'|] eqn:E; [| discriminate].
          assert (row' = row) as -> by congruence.
          unfold filled in E.
          rewrite lookup_app_r in E
            by (rewrite length_zip_with, length_take; lia).
          rewrite length_zip_with, length_take in E.
          replace (k - length amps `min` (k `min` length da))%nat
            with 0%nat in E by lia.
          rewrite lookup_drop, Nat.add_0_r in E. exact E. }
        unfold filled.
        rewrite <- (fill_next
                      (fun (a : npfloat) (row : list npfloat) =>
                         map (fun _ : npfloat => a) row)
                      amps a da row k Hl Hda).
        reflexivity.
  - intros [] s' (amps & Ha & ->). cbn beta.
    exists amps. split; [exact Ha|].
    rewrite Nat.add_0_l. fold da.
    rewrite firstn_all, drop_all, app_nil_r. reflexivity.
Qed.

(** The rows of [data_amplitudes] have the lengths of the waveforms. *)
Definition shaped (s : SourceScan.t) : Prop :=
  map length (data_amplitudes (bound s)) = map length (data_wavelets (bound s)).

(** The score of a mechanism from the amplitudes of the waveforms. *)
Definition score_of (s : SourceScan.t) (amps : list npfloat) : npfloat :=
  signed_power
    (stack (polarity_corrected amps (data_wavelets (bound s))
                               (data_taperwindows (bound s)))).

Lemma bound_amplitude_ext dat s s' Mo j :
  grid s' = grid s -> data_indexes (bound s') = data_indexes (bound s) ->
  bound_amplitude dat s' Mo j = bound_amplitude dat s Mo j.
Proof. intros Hg Hi. unfold bound_amplitude. rewrite Hg, Hi. reflexivity. Qed.

(** One iteration of the loop over the mechanisms: the amplitude rows are
    refilled, ['rms'] and ['xcorr'] receive entry [i]. *)
Lemma score_mechanism_spec dat globaldist i s :
  shaped s ->
  wp (score_mechanism dat globaldist i)
     (fun _ s' =>
        exists Mt Mo amps rms xc x,
          source_mechanisms s !! "Mt" = Some (Arr2 Mt)
          /\ Mt !! i = Some Mo
          /\ amplitudes_of dat s Mo (length (data_wavelets (bound s))) amps
          /\ source_mechanisms s !! "rms" = Some (Arr1 rms)
          /\ (i < length rms)%nat
          /\ s' = set_source_mechanisms
                    (<["xcorr" := Arr1 (<[i := x]> xc)]>
                       (<["rms" := Arr1 (<[i := score_of s amps]> rms)]>
                          (source_mechanisms s)))
                    (set_bound
                       (with_data_amplitudes
                          (filled amps (data_amplitudes (bound s))) (bound s))
                       s))
     s.
Proof.
  intros Hshape.
  assert (Hlen : length (data_wavelets (bound s))
                 = length (data_amplitudes (bound s))).
  { apply (f_equal length) in Hshape. rewrite !length_map in Hshape. lia. }
  unfold score_mechanism.
  wp_step. wp_step. rename m into Mt, Hsm into HMt.
  wp_step. wp_step. rename a into Mo. rename H into HMo.
  wp_step. wp_step. cbn beta. wp_step. rewrite Hlen.
  eapply wp_mono; [apply fill_loop_spec|].
  intros [] s1 (amps & Hamps & ->). cbn beta.
  wp_steps. rename v into rms, v0 into xc, a into x.
  exists Mt, Mo, amps, rms, xc, x.
  unfold item in HMo. destruct (Mt !! i) as [Mo'|] eqn:EMo; [| discriminate].
  assert (Mo' = Mo) as -> by congruence.
  repeat (split; [assumption || reflexivity |]).
  unfold score_of, signed_power, stack.
  pose proof Hamps as [Hl _].
  rewrite <- (corrected_rows amps (data_amplitudes (bound s))
                (data_wavelets (bound s)) (data_taperwindows (bound s))
                Hshape Hl).
  unfold filled. reflexivity.
Qed.

End MatchScoreLoop.

Section MatchScoreScan.

Import Geometry SourceScan.
Local Open Scope npfloat_scope.

Variable Aki_Richards_radpat :
  list npfloat -> string -> list vec3 -> result field.

(** The waveforms and the amplitude rows of [s'] are those of [s]. *)
Definition keeps_waveforms (s s' : SourceScan.t) : Prop :=
  data_wavelets (bound s') = data_wavelets (bound s)
  /\ data_amplitudes (bound s') = data_amplitudes (bound s).

#[local] Instance keeps_waveforms_preorder : PreOrder keeps_waveforms.
Proof.
  split; [intros s; split; reflexivity |].
  intros s1 s2 s3 [W1 A1] [W2 A2]. split; congruence.
Qed.

(** [_data_init] leaves one row of amplitudes per waveform, of the length
    of the waveform. *)
Lemma data_init_shaped dat s : wp (_data_init dat) (fun _ s' => shaped s') s.
Proof.
  unfold _data_init.
  do 3 (apply wp_bind, wp_modify).
  apply wp_bind, wp_any. intros lm s1.
  apply wp_bind, wp_gets. cbn beta.
  apply wp_bind.
  destruct (rectangular (data_wavelets (bound s1))); [| apply wp_raise].
  apply wp_ret.
  do 2 (apply wp_bind, wp_modify).
  eapply wp_mono.
  - apply (wp_preserves keeps_waveforms).
    unfold bind_index, stack_wavelet.
    preserves_auto ltac:(split; reflexivity).
  - intros [] s2 [Hw Ha]. cbn beta in Hw, Ha. state_simpl_in Hw.
    state_simpl_in Ha. unfold shaped. rewrite Hw, Ha.
    rewrite map_map. apply map_ext. intros row. apply length_map.
Qed.

(** The data binding of [s'] is that of [s] but for the amplitude rows,
    which keep their lengths. *)
Definition rebinds_amplitudes (s s' : SourceScan.t) : Prop :=
  grid s' = grid s
  /\ exists da,
       bound s' = with_data_amplitudes da (bound s)
       /\ map length da = map length (data_wavelets (bound s)).

(** The invariant of the loop over the mechanisms: the entries of ['rms']
    before [k] hold the scores of their mechanisms. *)
Definition scored (dat : Wavelets) (s : SourceScan.t)
    (Mt : list (list npfloat)) (k : nat) (s' : SourceScan.t) : Prop :=
  rebinds_amplitudes s s'
  /\ source_mechanisms s' !! "Mt" = Some (Arr2 Mt)
  /\ forall i Mo, (i < k)%nat -> Mt !! i = Some Mo ->
       exists rms amps,
         source_mechanisms s' !! "rms" = Some (Arr1 rms)
         /\ amplitudes_of dat s Mo (length (data_wavelets (bound s))) amps
         /\ rms !! i = Some (score_of s amps).

Lemma binding_eta (b : binding) :
  b = with_data_amplitudes (data_amplitudes b) b.
Proof. destruct b. reflexivity. Qed.

(** The loop over the mechanisms scores every mechanism of ['Mt']. *)
Lemma score_loop_spec dat s Mt :
  shaped s ->
  source_mechanisms s !! "Mt" = Some (Arr2 Mt) ->
  wp (for_acc (seq 0 (length Mt)) (Fin 0) (score_mechanism dat))
     (fun _ s' => scored dat s Mt (length Mt) s') s.
Proof.
  intros Hshape HMt.
  eapply wp_mono;
    [apply (wp_for_acc_seq (fun k (_ : npfloat) s' => scored dat s Mt k s'))
    | intros a s' H; exact H].
  - split; [split; [reflexivity |] |].
    + exists (data_amplitudes (bound s)). split; [apply binding_eta | exact Hshape].
    + split; [exact HMt | intros i Mo Hi; lia].
  - intros k acc s1 Hk ((Hg & da & Hb & Hda) & HMt1 & Hsc).
    assert (Hshape1 : shaped s1).
    { unfold shaped. rewrite Hb. state_simpl. exact Hda. }
    eapply wp_mono; [apply (score_mechanism_spec dat acc k s1 Hshape1)|].
    intros acc' s2 (Mt' & Mo & amps & rms & xc & x
                    & HMt' & HMo & [Hl Hamps] & Hrms & Hi & ->).
    cbn beta. assert (Mt' = Mt) as -> by congruence.
    assert (Hws : data_wavelets (bound s1) = data_wavelets (bound s))
      by (rewrite Hb; reflexivity).
    assert (Htw : data_taperwindows (bound s1) = data_taperwindows (bound s))
      by (rewrite Hb; reflexivity).
    assert (Hix : data_indexes (bound s1) = data_indexes (bound s))
      by (rewrite Hb; reflexivity).
    assert (Hda1 : data_amplitudes (bound s1) = da)
      by (rewrite Hb; reflexivity).
    assert (Hlda : length da = length (data_wavelets (bound s))).
    { apply (f_equal length) in Hda. rewrite !length_map in Hda. exact Hda. }
    split; [split |]; state_simpl.
    + exact Hg.
    + exists (filled amps da). rewrite Hda1. split.
      * rewrite Hb. reflexivity.
      * unfold filled. rewrite zip_with_fill_lengths; [exact Hda|].
        rewrite Hl, Hws, Hlda. reflexivity.
    + split.
      * rewrite !lookup_insert_ne by discriminate. exact HMt1.
      * intros i Mo' Hlt HMo'.
        exists (<[k := score_of s1 amps]> rms).
        rewrite lookup_insert_ne by discriminate. rewrite lookup_insert_eq.
        destruct (decide (i = k)) as [->|Hne].
        -- exists amps. split; [reflexivity|].
           assert (Mo' = Mo) as -> by congruence.
           split; [split|].
           ++ rewrite Hl, Hws. reflexivity.
           ++ intros j a Hj. rewrite <- (Hamps j a Hj). symmetry.
              apply bound_amplitude_ext; assumption.
           ++ rewrite list_lookup_insert_eq by exact Hi.
              unfold score_of. rewrite Hws, Htw. reflexivity.
        -- destruct (Hsc i Mo') as (rms0 & amps0 & Hrms0 & Hamps0 & Hscore);
             [lia | exact HMo' |].
           assert (rms0 = rms) as -> by congruence.
           exists amps0. split; [reflexivity|]. split; [exact Hamps0|].
           rewrite list_lookup_insert_ne by auto. exact Hscore.
Qed.

(** On finite samples the sums that skip NaN are the plain sums. *)
Lemma nansum_Fin (l : list R) : np.nansum (map Fin l) = Fin (Rsum l).
Proof.
  unfold np.nansum, np.sum, Rsum. generalize 0%R.
  induction l as [|x l IH]; intros a; [reflexivity | apply IH].
Qed.

Lemma column_Fin (k : nat) (c : list (list R)) :
  column k (map (map Fin) c) = map Fin (omap (fun w : list R => w !! k) c).
Proof.
  unfold column. induction c as [|w c IH]; [reflexivity|].
  cbn [map omap list_omap]. rewrite IH.
  assert (E : map Fin w !! k = Fin <$> w !! k).
  { clear. revert k. induction w as [|x w IH]; intros [|k]; try reflexivity.
    apply IH. }
  rewrite E. destruct (w !! k); reflexivity.
Qed.

Lemma nansum_axis0_Fin (c : list (list R)) :
  nansum_axis0 (map (map Fin) c) = map Fin (Rstack c).
Proof.
  destruct c as [|r c]; [reflexivity|].
  unfold nansum_axis0, Rstack. cbn [map]. rewrite length_map, map_map.
  apply map_ext. intros k. rewrite <- nansum_Fin. f_equal.
  apply (column_Fin k (r :: c)).
Qed.

Lemma signed_power_Fin (l : list R) :
  signed_power (map Fin l) = Fin (Rsigned_power l).
Proof.
  unfold signed_power, Rsigned_power.
  assert (E : map np.square (map Fin l) = map Fin (map (fun x => (x * x)%R) l))
    by (rewrite !map_map; reflexivity).
  rewrite E, !nansum_Fin. reflexivity.
Qed.

(** The grid, the data binding and the arrays ['rms'] and ['Mt'] of [s']
    are those of [s]. *)
Definition keeps_scores (s s' : SourceScan.t) : Prop :=
  grid s' = grid s
  /\ bound s' = bound s
  /\ source_mechanisms s' !! "rms" = source_mechanisms s !! "rms"
  /\ source_mechanisms s' !! "Mt" = source_mechanisms s !! "Mt".

#[local] Instance keeps_scores_preorder : PreOrder keeps_scores.
Proof.
  split; [intros s; repeat split; reflexivity |].
  intros s1 s2 s3 (G1 & B1 & R1 & M1) (G2 & B2 & R2 & M2).
  repeat split; congruence.
Qed.

Ltac scores_kept :=
  repeat split; cbn; try reflexivity;
  rewrite ?lookup_insert_ne by discriminate; reflexivity.

Lemma corrected_data_keeps_scores mt dat :
  preserves keeps_scores (corrected_data Aki_Richards_radpat mt dat).
Proof.
  unfold corrected_data.
  pose proof (preserves_sm_vector keeps_scores).
  pose proof (preserves_sm_item keeps_scores).
  preserves_auto idtac.
Qed.

Lemma scan_centroid_keeps_scores dat centroid_factor :
  preserves keeps_scores
    (scan_centroid Aki_Richards_radpat dat centroid_factor).
Proof.
  unfold scan_centroid.
  pose proof (preserves_sm_vector keeps_scores).
  pose proof (preserves_sm_matrix keeps_scores).
  pose proof corrected_data_keeps_scores.
  preserves_auto scores_kept.
Qed.

Lemma scan_probabilities_keeps_scores :
  preserves keeps_scores scan_probabilities.
Proof.
  unfold scan_probabilities.
  pose proof (preserves_sm_vector keeps_scores).
  pose proof (preserves_sm_item keeps_scores).
  preserves_auto scores_kept.
Qed.

(** C1. After a call of [scan] that returns, for every mechanism [Mo] of
    the grid (row [i] of ['Mt']) entry [i] of ['rms'] is the score of the
    stack of the bound waveforms, each multiplied by the sign of its
    precomputed amplitude (the cache entry of [Mo], of the wave type and of
    the component of the waveform, read at the grid direction the waveform
    is bound to) and by its taper: the sum of the squares of the stack times
    the sign of the sum of the stack.  The sums are those of [np.nansum];
    where the corrected waveforms hold finite samples only, they are the
    plain sums of reals. *)
Theorem scan_match_score (dat : Wavelets) (centroid_factor : npfloat)
    (s s' : SourceScan.t) :
  scan Aki_Richards_radpat dat centroid_factor s = (s', Ok tt) ->
  exists Mt rms,
    source_mechanisms s' !! "Mt" = Some (Arr2 Mt)
    /\ source_mechanisms s' !! "rms" = Some (Arr1 rms)
    /\ forall i Mo, Mt !! i = Some Mo ->
         exists amps,
           length amps = length (data_wavelets (bound s'))
           /\ (forall j a, amps !! j = Some a ->
                 bound_amplitude dat s' Mo j = Ok a)
           /\ rms !! i
              = Some (signed_power
                        (stack (polarity_corrected amps
                                  (data_wavelets (bound s'))
                                  (data_taperwindows (bound s')))))
           /\ forall c : list (list R),
                polarity_corrected amps (data_wavelets (bound s'))
                                   (data_taperwindows (bound s'))
                = map (map Fin) c ->
                rms !! i = Some (Fin (Rsigned_power (Rstack c))).
Proof.
  intros Hrun. wp_of Hrun. unfold scan.
  apply wp_bind. eapply wp_mono; [apply data_init_shaped|].
  intros [] s1 Hshape. cbn beta.
  apply wp_bind, wp_sm_matrix. intros Mt HMt.
  apply wp_bind. eapply wp_mono; [apply (score_loop_spec dat s1 Mt Hshape HMt)|].
  intros g s2 ((Hg & da & Hb & Hda) & HMt2 & Hsc). cbn beta.
  apply wp_bind, wp_sm_vector. intros rms Hrms.
  eapply wp_mono.
  - apply (wp_preserves keeps_scores).
    pose proof (preserves_sm_vector keeps_scores).
    pose proof (preserves_sm_matrix keeps_scores).
    pose proof scan_probabilities_keeps_scores.
    pose proof scan_centroid_keeps_scores.
    preserves_auto scores_kept.
  - intros [] s3 (G3 & B3 & R3 & M3). cbn beta in G3, B3, R3, M3.
    exists Mt, rms. rewrite M3, R3, B3, Hb. state_simpl.
    split; [exact HMt2|]. split; [exact Hrms|].
    intros i Mo HMo.
    destruct (Hsc i Mo) as (rms0 & amps & Hrms0 & [Hl Hamps] & Hscore);
      [eapply lookup_lt_Some; exact HMo | exact HMo |].
    assert (rms0 = rms) as -> by congruence.
    exists amps. split; [exact Hl|]. split.
    + intros j a Hj. rewrite <- (Hamps j a Hj).
      apply bound_amplitude_ext; [congruence|].
      rewrite B3, Hb. reflexivity.
    + split; [exact Hscore|]. intros c Hc. rewrite Hscore.
      unfold score_of, stack. rewrite Hc, nansum_axis0_Fin, signed_power_Fin.
      reflexivity.
Qed.

End MatchScoreScan.

(** ** Calls that return *)

Section Returns.

Import SourceScan.

(** [returns m Q s]: [m], started in [s], returns, and [Q] holds of the
    value returned and the state left. *)
Definition returns {A : Type} (m : M A) (Q : A -> SourceScan.t -> Prop)
    (s : SourceScan.t) : Prop :=
  match m s with
  | (s', Ok a) => Q a s'
  | (_, Raise _) => False
  end.

Lemma returns_run {A : Type} (m : M A) Q s :
  returns m Q s -> exists a s', m s = (s', Ok a) /\ Q a s'.
Proof.
  unfold returns. destruct (m s) as [s' [a|e]]; [eauto | contradiction].
Qed.

Lemma returns_mono {A : Type} (m : M A) (Q Q' : A -> SourceScan.t -> Prop) s :
  returns m Q s -> (forall a s', Q a s' -> Q' a s') -> returns m Q' s.
Proof.
  unfold returns. intros H HQ. destruct (m s) as [s' [a|e]]; auto.
Qed.

Lemma returns_ret {A : Type} (a : A) (Q : A -> SourceScan.t -> Prop) s :
  Q a s -> returns (mret a) Q s.
Proof. intros H. exact H. Qed.

Lemma returns_bind {A B : Type} (m : M A) (f : A -> M B) Q s :
  returns m (fun a s' => returns (f a) Q s') s -> returns (m ≫= f) Q s.
Proof.
  unfold returns, mbind, M_bind. destruct (m s) as [s' [a|e]]; auto.
Qed.

Lemma returns_gets {A : Type} (f : SourceScan.t -> A) Q s :
  Q (f s) s -> returns (gets f) Q s.
Proof. intros H. exact H. Qed.

Lemma returns_modify (f : SourceScan.t -> SourceScan.t) Q s :
  Q tt (f s) -> returns (modify f) Q s.
Proof. intros H. exact H. Qed.

Lemma returns_lift {A : Type} (r : result A) (a : A)
    (Q : A -> SourceScan.t -> Prop) s :
  r = Ok a -> Q a s -> returns (lift r) Q s.
Proof. intros -> H. exact H. Qed.

Lemma returns_sm_item key a (Q : ndarray -> SourceScan.t -> Prop) s :
  source_mechanisms s !! key = Some a -> Q a s -> returns (sm_item key) Q s.
Proof.
  intros Hk H. unfold sm_item. apply returns_bind, returns_gets.
  rewrite Hk. apply returns_ret. exact H.
Qed.

Lemma returns_sm_vector key v (Q : list npfloat -> SourceScan.t -> Prop) s :
  source_mechanisms s !! key = Some (Arr1 v) -> Q v s ->
  returns (sm_vector key) Q s.
Proof.
  intros Hk H. unfold sm_vector.
  apply returns_bind, (returns_sm_item key (Arr1 v)); [exact Hk|].
  apply returns_ret. exact H.
Qed.

Lemma returns_sm_matrix key m (Q : list (list npfloat) -> SourceScan.t -> Prop)
    s :
  source_mechanisms s !! key = Some (Arr2 m) -> Q m s ->
  returns (sm_matrix key) Q s.
Proof.
  intros Hk H. unfold sm_matrix.
  apply returns_bind, (returns_sm_item key (Arr2 m)); [exact Hk|].
  apply returns_ret. exact H.
Qed.

Lemma returns_sm_assign_item key i x v (Q : unit -> SourceScan.t -> Prop) s :
  source_mechanisms s !! key = Some (Arr1 v) -> (i < length v)%nat ->
  Q tt (set_source_mechanisms
          (<[key := Arr1 (<[i := x]> v)]> (source_mechanisms s)) s) ->
  returns (sm_assign_item key i x) Q s.
Proof.
  intros Hk Hi H. unfold sm_assign_item.
  apply returns_bind, (returns_sm_vector key v); [exact Hk|].
  rewrite decide_True by exact Hi. apply returns_modify. exact H.
Qed.

(** A computation that leaves the state as it is and returns. *)
Lemma returns_pure {A : Type} (m : M A) (a : A)
    (Q : A -> SourceScan.t -> Prop) s :
  m s = (s, Ok a) -> Q a s -> returns m Q s.
Proof. intros E H. unfold returns. rewrite E. exact H. Qed.

End Returns.

(** ** A scan on a grid of three mechanisms *)

Section Example.

Import Geometry SourceScan.
Local Open Scope R_scope.
Local Open Scope npfloat_scope.

(** One waveform of four samples, a P wave recorded on the radial
    component at the pole of the focal sphere. *)
Definition example_trace : Trace :=
  {| tr_data := [Fin 1; Fin 0; Fin 0; Fin 0]; channel := "EHL" |}.

Definition example_data : Wavelets :=
  {| Stream := [example_trace]; types := ["P"%string];
     sph := [(Fin 0, Fin 0, Fin 1)]; cart := [(Fin 0, Fin 0, Fin 1)] |}.

(** A grid of three mechanisms (strike, dip, rake) and one observation
    direction.  The result arrays are zero and [P(Mt)] is [2 / N], as the
    constructor sets them; the cache predicts an amplitude of one for every
    mechanism.  The full tensors and the axes are left at zero: the run
    does not depend on them. *)
Definition example_Mt : list (list npfloat) :=
  [[Fin 0; Fin 90; Fin 0]; [Fin 120; Fin 90; Fin 0]; [Fin 240; Fin 90; Fin 0]].

Definition example_grid : setup :=
  {| file := "grid.npz"; n_model := 3; n_obs := 1; n_dims := 3;
     waves := ["P"%string]; components := [["L"%string]];
     atr := [(Fin 0, Fin 0, Fin 1)]; precision := Fin 120;
     modeled_amplitudes :=
       map (fun Mo => ((Mo, "P"%string, "L"%string), [Fin 1])) example_Mt |}.

Definition zeros (n : nat) : list npfloat := replicate n (Fin 0).

Definition example_arrays : gmap string ndarray :=
  <["Mt" := Arr2 example_Mt]>
    (<["fullMt" := Arr2 (replicate 3 (zeros 6))]>
       (<["P-axis" := Arr2 (replicate 3 (zeros 3))]>
          (<["T-axis" := Arr2 (replicate 3 (zeros 3))]>
             (<["rms" := Arr1 (zeros 3)]>
                (<["xcorr" := Arr1 (zeros 3)]>
                   (<["P(d|Mt)" := Arr1 (zeros 3)]>
                      (<["P(Mt|d)" := Arr1 (zeros 3)]>
                         (<["P(d)" := Arr1 (zeros 3)]>
                            (<["P(Mt)" := Arr1 (replicate 3 (Fin (2 / 3)))]>
                               ∅))))))))).

Definition example_source : SourceScan.t :=
  {| grid := example_grid; source_mechanisms := example_arrays;
     scanned := 0;
     bound := {| data := None; data_wavelets := []; data_taperwindows := [];
                 data_amplitudes := []; data_indexes := [];
                 synth_stack := []; power_synth_stack := Fin 0;
                 opt_stack := []; power_opt_stack := Fin 0;
                 model_perfectmodel_corr := Fin 0 |};
     best_likelyhood := None; centroid := None |}.

(** The forward model of the example: a unit displacement along the third
    axis at every observation direction. *)
Definition example_radpat (mt : list npfloat) (wave : string)
    (obs : list vec3) : result field :=
  Ok (map (fun _ => (Fin 0, Fin 0, Fin 1)) obs).

End Example.

(** Evaluation of comparisons of real constants. *)
Ltac decide_reals :=
  repeat match goal with
    | |- context [bool_decide ?P] =>
        first [ rewrite (bool_decide_eq_true_2 P) by lra
              | rewrite (bool_decide_eq_false_2 P) by lra ]
    | |- context [@decide ?P ?d] =>
        first [ rewrite (@decide_True _ P d) by lra
              | rewrite (@decide_False _ P d) by lra ]
    end.

(** Evaluation of comparisons of lengths and of strings. *)
Ltac decide_plain :=
  repeat match goal with
    | |- context [bool_decide ?P] =>
        first [ rewrite (bool_decide_eq_true_2 P) by reflexivity
              | rewrite (bool_decide_eq_false_2 P) by discriminate ]
    | |- context [@decide ?P ?d] =>
        first [ rewrite (@decide_True _ P d) by (reflexivity || lia)
              | rewrite (@decide_False _ P d) by (discriminate || lia) ]
    end.

Ltac fin_eval :=
  repeat (cbn [np.add np.sub np.neg np.mul np.square np.sign np.abs np.lt np.gt
               np.le np.ge np.eqb np.isnan np.not_nan np.nan_to_zero np.div
               np.maximum np.minimum np.len np.nansum np.sum foldl map
               negb orb andb INR length];
          unfold np.Rsign, np.ge, np.gt, np.le;
          repeat match goal with
            | |- context [Rabs ?a] =>
                first [ rewrite (Rabs_right a) by lra
                      | rewrite (Rabs_left a) by lra ]
            end;
          decide_reals).

(** Equality of arrays of finite values, entry by entry. *)
Ltac fin_eq :=
  repeat match goal with
    | |- Fin _ = Fin _ => apply (f_equal Fin); try lra
    | |- Ok _ = Ok _ => apply (f_equal Ok)
    | |- Some _ = Some _ => apply (f_equal Some)
    | |- Arr0 _ = Arr0 _ => apply (f_equal Arr0)
    | |- Arr1 _ = Arr1 _ => apply (f_equal Arr1)
    | |- _ :: _ = _ :: _ => apply (f_equal2 cons)
    | |- [] = [] => reflexivity
    end.

Section ExampleValues.

Import Geometry SourceScan.
Local Open Scope R_scope.
Local Open Scope npfloat_scope.

Lemma example_peak : np.max (map np.abs (tr_data example_trace)) = Ok (Fin 1).
Proof.
  cbn [example_trace tr_data map np.abs np.max foldl].
  unfold np.maximum. fin_eval. reflexivity.
Qed.

Lemma example_taper : taper_window 4 = [Fin 1; Fin 1; Fin 1; Fin 0.5].
Proof.
  unfold taper_window. cbn [seq rev app map]. fin_eval. fin_eq.
Qed.

Lemma example_wavelet :
  map (fun x => x / Fin 1) (tr_data example_trace)
  = [Fin 1; Fin 0; Fin 0; Fin 0].
Proof. cbn [example_trace tr_data map]. fin_eval. fin_eq. Qed.

End ExampleValues.

Section Assignments.

Import SourceScan.

Lemma set_bound_again b b' s : set_bound b (set_bound b' s) = set_bound b s.
Proof. reflexivity. Qed.

Lemma set_source_mechanisms_again m m' s :
  set_source_mechanisms m (set_source_mechanisms m' s)
  = set_source_mechanisms m s.
Proof. reflexivity. Qed.

Lemma set_source_mechanisms_over m b m' s :
  set_source_mechanisms m (set_bound b (set_source_mechanisms m' s))
  = set_source_mechanisms m (set_bound b s).
Proof. reflexivity. Qed.

Lemma set_bound_over b m b' s :
  set_bound b (set_source_mechanisms m (set_bound b' s))
  = set_bound b (set_source_mechanisms m s).
Proof. reflexivity. Qed.

End Assignments.

Ltac state_tidy :=
  state_simpl;
  rewrite ?set_bound_again, ?set_source_mechanisms_again,
    ?set_source_mechanisms_over, ?set_bound_over.

(** Symbolic execution of one statement of a call that returns. *)
Ltac run_step :=
  match goal with
  | |- returns (_ ≫= _) _ _ => apply returns_bind
  | |- returns (mret _) _ _ => apply returns_ret
  | |- returns (SourceScan.gets _) _ _ => apply returns_gets
  | |- returns (SourceScan.modify _) _ _ => apply returns_modify
  | |- returns (SourceScan.bind_attr _) _ _ => apply returns_modify
  | |- returns (SourceScan.sm_assign _ _) _ _ => apply returns_modify
  | |- returns (SourceScan.lift (Ok _)) _ _ =>
      eapply returns_lift; [reflexivity |]
  end; cbn beta; state_tidy.

Ltac run_steps := repeat run_step.

(** Evaluation of the list structure of a concrete array. *)
Ltac list_eval :=
  cbn [map app zip zip_with length seq rev take drop foldl forallb Nat.eqb
       Nat.max lookup list_lookup insert list_insert fst snd replicate
       SourceScan.rectangular SourceScan.item SourceScan.enumerate
       SourceScan.for_acc SourceScan.for_each
       example_data example_trace example_Mt zeros
       Stream types sph cart tr_data channel].

Section PureReturns.

Import SourceScan.
Local Open Scope npfloat_scope.

Lemma stack_wavelet_returns (os w t : list npfloat) s :
  length t = length w -> (length w <= length os)%nat ->
  exists os', stack_wavelet os (w, t) s = (s, Ok os')
              /\ length os' = length os.
Proof.
  intros Ht Hw. unfold stack_wavelet. rewrite decide_True by exact Hw.
  match goal with |- context [if ?b then _ else _] => destruct b end;
    eexists; (split; [reflexivity|]);
    rewrite length_app, !length_zip_with, length_take, length_drop; lia.
Qed.

Lemma nanmin_returns (x : npfloat) (l : list npfloat) :
  exists y, np.nanmin (x :: l) = Ok y.
Proof.
  unfold np.nanmin.
  destruct (filter (fun x => np.not_nan x = true) (x :: l)); eauto.
Qed.

End PureReturns.

Section ExampleBinding.

Import Geometry SourceScan.
Local Open Scope R_scope.
Local Open Scope npfloat_scope.

Lemma example_synth :
  map (fun x => np.sin (2 * PI * x) * Fin (INR 1)) (linspace_open 0 1 4)
  = [Fin 0; Fin 1; Fin 0; Fin (-1)].
Proof.
  unfold linspace_open. cbn [seq map np.mul np.sin INR].
  replace (2 * PI * (0 * ((1 - 0) / (1 + 1 + 1 + 1)) + 0))%R with 0%R by lra.
  replace (2 * PI * (1 * ((1 - 0) / (1 + 1 + 1 + 1)) + 0))%R
    with (PI / 2)%R by lra.
  replace (2 * PI * ((1 + 1) * ((1 - 0) / (1 + 1 + 1 + 1)) + 0))%R
    with PI by lra.
  replace (2 * PI * ((1 + 1 + 1) * ((1 - 0) / (1 + 1 + 1 + 1)) + 0))%R
    with (3 * (PI / 2))%R by lra.
  rewrite sin_0, sin_PI2, sin_PI, sin_3PI2. fin_eq.
Qed.

Lemma example_data_init s :
  atr (grid s) = [(Fin 0, Fin 0, Fin 1)] ->
  returns (_data_init example_data)
    (fun _ s' =>
       exists b row,
         s' = set_bound b s
         /\ data_wavelets b = [[Fin 1; Fin 0; Fin 0; Fin 0]]
         /\ data_taperwindows b = [[Fin 1; Fin 1; Fin 1; Fin 0.5]]
         /\ data_amplitudes b = [row] /\ length row = 4%nat
         /\ data_indexes b = [0%nat]
         /\ power_synth_stack b = Fin 1.25
         /\ length (opt_stack b) = 4%nat) s.
Proof.
  intros Hatr. unfold _data_init.
  run_steps. unfold example_data at 1. list_eval.
  run_step. unfold bind_wavelet.
  run_step. eapply returns_lift; [apply example_peak|]. cbn beta.
  run_steps. rewrite example_wavelet. list_eval. rewrite example_taper.
  run_steps.
  unfold bind_index. list_eval. run_steps. rewrite Hatr.
  eapply returns_lift; [reflexivity|]. cbn beta.
  run_steps. list_eval. run_steps.
  match goal with
  | |- returns (stack_wavelet ?os (?w, ?t)) _ ?s0 =>
      destruct (stack_wavelet_returns os w t s0) as (os' & E & Hos);
      [reflexivity
      | rewrite length_replicate; apply Nat.leb_le; vm_compute; reflexivity
      | eapply returns_pure; [exact E|]; clear E ]
  end.
  rewrite length_replicate in Hos. cbn beta.
  run_steps. rewrite example_synth.
  eapply returns_lift; [reflexivity|]. cbn beta. list_eval.
  run_steps. rewrite Hatr.
  match goal with
  | |- returns (lift (np.nanmin (?x :: ?l))) _ _ =>
      destruct (nanmin_returns x l) as [corr E];
      eapply returns_lift; [exact E|]; clear E
  end.
  cbn beta. run_steps.
  eexists _, _. split; [reflexivity|]. state_simpl.
  repeat split.
  - fin_eval. fin_eq.
  - rewrite length_take. rewrite Hos.
    apply Nat.min_l, Nat.leb_le. vm_compute. reflexivity.
Qed.

End ExampleBinding.

Section ExampleScore.

Import Geometry SourceScan.
Local Open Scope R_scope.
Local Open Scope npfloat_scope.

(** The data of the example, bound. *)
Definition example_bound (b : binding) : Prop :=
  data_wavelets b = [[Fin 1; Fin 0; Fin 0; Fin 0]]
  /\ data_taperwindows b = [[Fin 1; Fin 1; Fin 1; Fin 0.5]]
  /\ (exists row, data_amplitudes b = [row] /\ length row = 4%nat)
  /\ data_indexes b = [0%nat]
  /\ power_synth_stack b = Fin 1.25
  /\ length (opt_stack b) = 4%nat.

Lemma example_amplitude s i Mo :
  grid s = example_grid -> data_indexes (bound s) = [0%nat] ->
  example_Mt !! i = Some Mo ->
  bound_amplitude example_data s Mo 0 = Ok (Fin 1).
Proof.
  intros Hg Hi HMo. unfold bound_amplitude. rewrite Hg, Hi.
  list_eval. cbn [mbind result_bind]. list_eval.
  change (last_letter "EHL") with (Ok "L"%string). cbn [mbind result_bind].
  unfold example_grid, example_Mt in *. cbn [modeled_amplitudes map].
  destruct i as [|[|[|i]]]; cbn in HMo; try discriminate;
    injection HMo as <-; cbn [dict_item key_eqb zip forallb fst snd length];
    fin_eval; decide_plain; reflexivity.
Qed.

(** The score of the waveform of the example under an amplitude of one. *)
Lemma example_score_value (row : list npfloat) :
  length row = 4%nat ->
  let stack_wavelets :=
    nansum_axis0
      (mul_rows
         (mul_rows (map (map np.sign) [map (fun _ => Fin 1) row])
                   [[Fin 1; Fin 0; Fin 0; Fin 0]])
         [[Fin 1; Fin 1; Fin 1; Fin 0.5]]) in
  length stack_wavelets = 4%nat
  /\ np.nansum (map np.square stack_wavelets)
      * np.sign (np.nansum stack_wavelets) = Fin 1.
Proof.
  intros Hrow.
  destruct row as [|r0 [|r1 [|r2 [|r3 [|]]]]]; try discriminate.
  cbn zeta. unfold nansum_axis0, mul_rows, column.
  cbn [map zip_with length seq omap list_omap lookup list_lookup].
  split; [reflexivity|].
  fin_eval. fin_eq.
Qed.

(** One iteration of the loop over the mechanisms on the example. *)
Lemma example_score_mechanism g i Mo s rms xc :
  grid s = example_grid -> example_bound (bound s) ->
  source_mechanisms s !! "Mt" = Some (Arr2 example_Mt) ->
  example_Mt !! i = Some Mo ->
  source_mechanisms s !! "rms" = Some (Arr1 rms) -> (i < length rms)%nat ->
  source_mechanisms s !! "xcorr" = Some (Arr1 xc) -> (i < length xc)%nat ->
  returns (score_mechanism example_data g i)
    (fun _ s' =>
       exists x b,
         s' = set_source_mechanisms
                (<["xcorr" := Arr1 (<[i := x]> xc)]>
                   (<["rms" := Arr1 (<[i := Fin 1]> rms)]>
                      (source_mechanisms s)))
                (set_bound b s)
         /\ example_bound b) s.
Proof.
  intros Hg (Hws & Htw & (row & Hda & Hrow) & Hix & Hpss & Hos)
    HMt HMo Hrms Hi Hxc Hj.
  unfold score_mechanism.
  run_step. eapply returns_sm_matrix; [exact HMt|]. cbn beta.
  run_step. unfold item at 1. rewrite HMo. run_steps.
  rewrite Hws. list_eval. run_step. unfold fill_amplitude.
  run_step.
  eapply returns_pure;
    [rewrite predicted_amplitude_pure,
       (example_amplitude s i Mo Hg Hix HMo); reflexivity|].
  run_steps. rewrite Hda. list_eval. run_steps.
  rewrite ?Htw, ?Hws.
  destruct (example_score_value row Hrow) as [Hl Hv]. cbn zeta in Hl, Hv.
  rewrite Hv.
  eapply returns_sm_assign_item; [exact Hrms | exact Hi |].
  run_steps. unfold np.corrcoef. rewrite Hos, Hl, decide_True by reflexivity.
  run_steps.
  eapply returns_sm_assign_item;
    [state_simpl; rewrite lookup_insert_ne by discriminate; exact Hxc
    | exact Hj |].
  state_simpl. rewrite ?set_source_mechanisms_again. run_steps.
  eexists _, _. split; [reflexivity|].
  unfold example_bound. state_simpl.
  repeat split; try assumption.
  eexists. split; [reflexivity|]. rewrite length_map. exact Hrow.
Qed.

End ExampleScore.

(** ** Finite values *)

Section Finite.

Local Open Scope R_scope.
Local Open Scope npfloat_scope.

(** A value that is neither an infinity nor NaN. *)
Definition finite (x : npfloat) : Prop := exists r : R, x = Fin r.

Lemma finite_Fin (r : R) : finite (Fin r).
Proof. exists r. reflexivity. Qed.

Lemma finite_add x y : finite x -> finite y -> finite (x + y).
Proof. intros [a ->] [b ->]. eexists. reflexivity. Qed.

Lemma finite_mul x y : finite x -> finite y -> finite (x * y).
Proof. intros [a ->] [b ->]. eexists. reflexivity. Qed.

Lemma finite_square x : finite x -> finite (np.square x).
Proof. intros H. apply finite_mul; exact H. Qed.

Lemma finite_sign x : finite x -> finite (np.sign x).
Proof. intros [a ->]. eexists. reflexivity. Qed.

Lemma finite_div x (b : R) : finite x -> b <> 0%R -> finite (x / Fin b).
Proof. intros [a ->] Hb. rewrite div_Fin by exact Hb. eexists. reflexivity. Qed.

Lemma finite_sum (l : list npfloat) : Forall finite l -> finite (np.sum l).
Proof.
  unfold np.sum. generalize (finite_Fin 0). generalize (Fin 0).
  intros x Hx Hl. revert x Hx.
  induction Hl as [|y l Hy Hl IH]; intros x Hx; cbn [foldl]; [exact Hx|].
  apply IH, finite_add; assumption.
Qed.

Lemma finite_zip_with (f : npfloat -> npfloat -> npfloat)
    (l k : list npfloat) :
  (forall x y, finite x -> finite y -> finite (f x y)) ->
  Forall finite l -> Forall finite k -> Forall finite (zip_with f l k).
Proof.
  intros Hf Hl. revert k. induction Hl as [|x l Hx Hl IH]; intros k Hk;
    [constructor|].
  destruct Hk as [|y k Hy Hk]; cbn [zip_with]; constructor; auto.
Qed.

Lemma finite_map (f : npfloat -> npfloat) (l : list npfloat) :
  (forall x, finite x -> finite (f x)) ->
  Forall finite l -> Forall finite (map f l).
Proof.
  intros Hf Hl. induction Hl; cbn [map]; constructor; auto.
Qed.

Lemma finite_replicate (n : nat) (r : R) : Forall finite (replicate n (Fin r)).
Proof. apply Forall_replicate, finite_Fin. Qed.

End Finite.

Section ExampleCentroid.

Import Geometry SourceScan.
Local Open Scope R_scope.
Local Open Scope npfloat_scope.

Lemma example_disp_component :
  exists (a0 : R) (projected : field),
    disp_component (cart example_data) [(Fin 0, Fin 0, Fin 1)] (Some "L"%string)
    = Ok ([Fin a0], projected).
Proof.
  destruct (vector_normal_Fin Radial [(0, 0, 1)]%R) as (dirs & E & Hl & _).
  destruct dirs as [|d [|]]; try discriminate.
  eexists _, _.
  apply (disp_component_Fin [(0, 0, 1)]%R [(0, 0, 1)]%R [d] (Some "L"%string));
    [| reflexivity].
  unfold vector_normal. change (kind_of "L") with (Some Radial).
  cbv iota beta. rewrite E. reflexivity.
Qed.

(** The score of the data corrected with the polarities of any mechanism
    is a finite number. *)
Lemma example_corrected_data mt s PMt (Pd : R) :
  waves (grid s) = ["P"%string] -> components (grid s) = [["L"%string]] ->
  data_taperwindows (bound s) = [[Fin 1; Fin 1; Fin 1; Fin 0.5]] ->
  power_synth_stack (bound s) = Fin 1.25 ->
  source_mechanisms s !! "P(Mt)" = Some (Arr1 PMt) ->
  finite (np.nanmean PMt) ->
  source_mechanisms s !! "P(d)" = Some (Arr0 (Fin Pd)) -> Pd <> 0%R ->
  returns (corrected_data example_radpat mt example_data)
          (fun _ s' => s' = s) s.
Proof.
  intros Hw Hc Htw Hpss HPMt Hmean HPd HPd0.
  destruct example_disp_component as (a0 & projected & Hdisp).
  unfold corrected_data. run_steps. rewrite Hw, Hc.
  unfold example_radpat. list_eval. cbv iota beta. run_steps.
  list_eval. run_steps.
  eapply returns_lift; [exact Hdisp|]. cbn beta. run_steps.
  rewrite Htw. list_eval. cbv iota beta. run_steps.
  change (last_letter "EHL") with (Ok "L"%string). run_steps.
  rewrite lookup_insert_eq. run_steps. list_eval. run_steps.
  unfold broadcast. rewrite decide_True by reflexivity. run_steps.
  unfold add_head. list_eval.
  rewrite decide_True
    by (rewrite length_replicate; apply Nat.leb_le; vm_compute; reflexivity).
  run_steps. rewrite Hpss.
  eapply returns_sm_vector; [exact HPMt|]. cbn beta. run_step.
  eapply returns_sm_item; [exact HPd|]. cbn beta.
  match goal with
  | |- context [np.sum (map np.square ?l)] => set (forrms := l)
  end.
  assert (Hfin : Forall finite forrms).
  { subst forrms. apply Forall_app. split.
    - apply finite_zip_with; [apply finite_add | |].
      + apply Forall_take, finite_replicate.
      + cbn [np.mul np.sign]. repeat constructor; apply finite_Fin.
    - apply Forall_drop, finite_replicate. }
  assert (Hp : finite (np.sum (map np.square forrms) * np.sign (np.sum forrms)
                       / Fin 1.25 * np.nanmean PMt / Fin Pd)).
  { apply finite_div; [| exact HPd0]. apply finite_mul; [| exact Hmean].
    apply finite_div; [| lra]. apply finite_mul.
    - apply finite_sum, finite_map; [apply finite_square | exact Hfin].
    - apply finite_sign, finite_sum, Hfin. }
  destruct Hp as [p Hp]. rewrite Hp. cbn [np.mul]. run_steps. reflexivity.
Qed.

End ExampleCentroid.

(** A lookup in [source_mechanisms] through the assignments made. *)
Ltac sm_lookup :=
  state_simpl;
  repeat first [ rewrite lookup_insert_eq
               | rewrite lookup_insert_ne by discriminate ];
  first [ eassumption | reflexivity ].

Ltac run_read :=
  match goal with
  | |- returns (SourceScan.sm_vector _) _ _ =>
      eapply returns_sm_vector; [sm_lookup |]
  | |- returns (SourceScan.sm_matrix _) _ _ =>
      eapply returns_sm_matrix; [sm_lookup |]
  | |- returns (SourceScan.sm_item _) _ _ =>
      eapply returns_sm_item; [sm_lookup |]
  end; cbn beta.


(** Evaluation of a reduction of a concrete array. *)
Ltac np_eval :=
  unfold np.nanmax, np.nanmin, np.max, np.min, np.argmax, np.argmin,
    np.nanmean, SourceScan.broadcast;
  repeat (progress
            (cbn [filter list_filter replicate zip_with
                  np.argmax_from np.argmin_from];
             fin_eval; decide_plain)).

Ltac run_lift :=
  match goal with
  | |- returns (SourceScan.lift _) _ _ =>
      eapply returns_lift; [np_eval; reflexivity |]; cbn beta
  end.

Ltac run := repeat first [ run_step | run_read | run_lift ].

Section ExampleProbabilities.

Import Geometry SourceScan.
Local Open Scope R_scope.
Local Open Scope npfloat_scope.

Lemma example_probabilities s :
  power_synth_stack (bound s) = Fin 1.25 ->
  source_mechanisms s !! "rms" = Some (Arr1 [Fin 1; Fin 1; Fin 1]) ->
  source_mechanisms s !! "P(Mt)" = Some (Arr1 (replicate 3 (Fin (2 / 3)))) ->
  returns scan_probabilities
    (fun _ s' =>
       exists m,
         s' = set_source_mechanisms m s
         /\ m !! "P(d|Mt)" = Some (Arr1 (replicate 3 (Fin 0.8)))
         /\ m !! "P(d)" = Some (Arr0 (Fin (2 / 3)))
         /\ m !! "P(Mt|d)" = Some (Arr1 (replicate 3 (Fin 0.8)))
         /\ forall key,
              key ∉ ["P(d|Mt)"; "P(d)"; "P(Mt|d)"]%string ->
              m !! key = source_mechanisms s !! key) s.
Proof.
  intros Hpss Hrms HPMt. unfold scan_probabilities.
  run. rewrite Hpss. run.
  eexists. split; [reflexivity|].
  repeat first [ rewrite lookup_insert_eq
               | rewrite lookup_insert_ne by discriminate ].
  cbn [replicate]. repeat split.
  - fin_eval. fin_eq.
  - fin_eval. fin_eq.
  - intros key Hkey.
    rewrite !lookup_insert_ne; [reflexivity | ..]; intros <-; apply Hkey;
      rewrite !elem_of_cons; tauto.
Qed.

End ExampleProbabilities.

Section ExampleScan.

Import Geometry SourceScan.
Local Open Scope R_scope.
Local Open Scope npfloat_scope.

(** The state the scan of the example leaves. *)
Definition example_result : SourceScan.t :=
  (scan example_radpat example_data (Fin 1) example_source).1.

(** The scan of the example returns; the three mechanisms share the
    largest score. *)
Lemma example_scan :
  scan example_radpat example_data (Fin 1) example_source
  = (example_result, Ok tt)
  /\ source_mechanisms example_result !! "rms"
     = Some (Arr1 [Fin 1; Fin 1; Fin 1])
  /\ source_mechanisms example_result !! "P(Mt)"
     = Some (Arr1 [Fin (2 / 3); Fin (2 / 3); Fin (2 / 3)])
  /\ source_mechanisms example_result !! "P(d|Mt)"
     = Some (Arr1 [Fin 0.8; Fin 0.8; Fin 0.8])
  /\ source_mechanisms example_result !! "P(d)" = Some (Arr0 (Fin (2 / 3))).
Proof.
  cut (returns (scan example_radpat example_data (Fin 1))
         (fun _ s' =>
            source_mechanisms s' !! "rms" = Some (Arr1 [Fin 1; Fin 1; Fin 1])
            /\ source_mechanisms s' !! "P(Mt)"
               = Some (Arr1 [Fin (2 / 3); Fin (2 / 3); Fin (2 / 3)])
            /\ source_mechanisms s' !! "P(d|Mt)"
               = Some (Arr1 [Fin 0.8; Fin 0.8; Fin 0.8])
            /\ source_mechanisms s' !! "P(d)" = Some (Arr0 (Fin (2 / 3))))
         example_source).
  { intros H. apply returns_run in H. destruct H as ([] & s' & E & H).
    unfold example_result. rewrite E. split; [reflexivity | exact H]. }
  unfold scan. run_step.
  eapply returns_mono; [apply example_data_init; reflexivity|].
  intros [] s1 (b & row & -> & Hb). cbn beta.
  assert (Hbound : example_bound b).
  { unfold example_bound. destruct Hb as (? & ? & ? & ? & ? & ? & ?). eauto 10. }
  clear Hb.
  unfold example_source, example_arrays. run. list_eval.
  do 3 (run_step;
        eapply returns_mono;
          [ eapply example_score_mechanism;
            [ reflexivity | eassumption | sm_lookup | reflexivity
            | sm_lookup | list_eval; lia | sm_lookup | list_eval; lia ]
          | ];
        intros ? ? (? & ? & -> & ?); cbn beta;
        state_tidy).
  run. list_eval. decide_plain. run.
  eapply returns_mono;
    [ apply example_probabilities;
      [ destruct H1 as (_ & _ & _ & _ & Hpss & _); exact Hpss
      | sm_lookup | sm_lookup ]
    | ].
  intros [] s' (m & -> & HPdMt & HPd & HPMtd & Hkeep). cbn beta. state_tidy.
  assert (HMt : m !! "Mt" = Some (Arr2 example_Mt)).
  { rewrite Hkeep; [sm_lookup|].
    rewrite !elem_of_cons, elem_of_nil. intros [E|[E|[E|[]]]]; discriminate. }
  assert (HfullMt : m !! "fullMt" = Some (Arr2 (replicate 3 (zeros 6)))).
  { rewrite Hkeep; [sm_lookup|].
    rewrite !elem_of_cons, elem_of_nil. intros [E|[E|[E|[]]]]; discriminate. }
  assert (Hrms : m !! "rms" = Some (Arr1 [Fin 1; Fin 1; Fin 1])).
  { rewrite Hkeep; [sm_lookup|].
    rewrite !elem_of_cons, elem_of_nil. intros [E|[E|[E|[]]]]; discriminate. }
  assert (HPMt : m !! "P(Mt)" = Some (Arr1 (replicate 3 (Fin (2 / 3))))).
  { rewrite Hkeep; [sm_lookup|].
    rewrite !elem_of_cons, elem_of_nil. intros [E|[E|[E|[]]]]; discriminate. }
  clear Hkeep. run. list_eval. run.
  unfold scan_centroid. run. list_eval. run.
  unfold centroid_weights. rewrite !length_map. list_eval. decide_plain.
  cbn [andb]. run.
  eapply returns_mono;
    [ eapply (example_corrected_data _ _ _ (2 / 3));
      [ reflexivity | reflexivity
      | destruct H1 as (_ & Htw & _); exact Htw
      | destruct H1 as (_ & _ & _ & _ & Hpss & _); exact Hpss
      | sm_lookup
      | np_eval; apply finite_Fin
      | sm_lookup
      | lra ]
    | ].
  intros p s' ->. cbn beta. run.
  list_eval. auto.
Qed.

End ExampleScan.

Section ExampleResults.

Import Geometry SourceScan.
Local Open Scope R_scope.
Local Open Scope npfloat_scope.

(** The scan of the example returns. *)
Lemma example_scan_returns :
  scan example_radpat example_data (Fin 1) example_source
  = (example_result, Ok tt).
Proof. apply example_scan. Qed.

(** The match scores of the example. *)
Lemma scan_match_score_witness :
  scan example_radpat example_data (Fin 1) example_source
  = (example_result, Ok tt)
  /\ exists Mt rms,
       source_mechanisms example_result !! "Mt" = Some (Arr2 Mt)
       /\ source_mechanisms example_result !! "rms" = Some (Arr1 rms)
       /\ forall i Mo, Mt !! i = Some Mo ->
            exists amps,
              length amps = length (data_wavelets (bound example_result))
              /\ (forall j a, amps !! j = Some a ->
                    bound_amplitude example_data example_result Mo j = Ok a)
              /\ rms !! i
                 = Some (signed_power
                           (stack (polarity_corrected amps
                                     (data_wavelets (bound example_result))
                                     (data_taperwindows (bound example_result)))))
              /\ forall c : list (list R),
                   polarity_corrected amps
                     (data_wavelets (bound example_result))
                     (data_taperwindows (bound example_result))
                   = map (map Fin) c ->
                   rms !! i = Some (Fin (Rsigned_power (Rstack c))).
Proof.
  split; [exact example_scan_returns|].
  exact (scan_match_score example_radpat example_data (Fin 1) example_source
           example_result example_scan_returns).
Defined.

(** The data probability of the example. *)
Lemma scan_data_probability_witness :
  scan example_radpat example_data (Fin 1) example_source
  = (example_result, Ok tt)
  /\ exists rms PMt PdMt top low high,
       source_mechanisms example_result !! "rms" = Some (Arr1 rms)
       /\ source_mechanisms example_result !! "P(Mt)" = Some (Arr1 PMt)
       /\ source_mechanisms example_result !! "P(d|Mt)" = Some (Arr1 PdMt)
       /\ np.nanmax rms = Ok top
       /\ np.nanmin PMt = Ok low
       /\ np.nanmax PdMt = Ok high
       /\ source_mechanisms example_result !! "P(d)"
          = Some (Arr0 (np.minimum
                          (np.maximum
                             (Fin (INR (tail_count rms top)) * Fin 0.5
                              / np.len rms)
                             low)
                          high)).
Proof.
  split; [exact example_scan_returns|].
  exact (scan_data_probability example_radpat example_data (Fin 1)
           example_source example_result example_scan_returns).
Defined.


(** C4 as stated: the stored [P(d)] is the fraction itself between the two
    limits.  On the example the three mechanisms share the largest score:
    the fraction is 1 and the largest [P(d|Mt)] is 0.8, so this would be
    0.8, but [scan] stores 2/3, the smallest [P(Mt)], to which it raised
    half the fraction. *)
Lemma scan_data_probability_counterexample :
  exists rms PMt PdMt top low high,
    scan example_radpat example_data (Fin 1) example_source
    = (example_result, Ok tt)
    /\ source_mechanisms example_result !! "rms" = Some (Arr1 rms)
    /\ source_mechanisms example_result !! "P(Mt)" = Some (Arr1 PMt)
    /\ source_mechanisms example_result !! "P(d|Mt)" = Some (Arr1 PdMt)
    /\ np.nanmax rms = Ok top
    /\ np.nanmin PMt = Ok low
    /\ np.nanmax PdMt = Ok high
    /\ clamp (tail_fraction rms top) low high = Fin 0.8
    /\ source_mechanisms example_result !! "P(d)" = Some (Arr0 (Fin (2 / 3)))
    /\ source_mechanisms example_result !! "P(d)"
       <> Some (Arr0 (clamp (tail_fraction rms top) low high)).
Proof.
  destruct example_scan as (Hrun & Hrms & HPMt & HPdMt & HPd).
  assert (Hclamp : clamp (tail_fraction [Fin 1; Fin 1; Fin 1] (Fin 1))
                         (Fin (2 / 3)) (Fin 0.8) = Fin 0.8).
  { unfold clamp, tail_fraction, tail_count. np_eval. fin_eq. }
  exists [Fin 1; Fin 1; Fin 1], [Fin (2 / 3); Fin (2 / 3); Fin (2 / 3)],
    [Fin 0.8; Fin 0.8; Fin 0.8], (Fin 1), (Fin (2 / 3)), (Fin 0.8).
  repeat (split; [first [assumption | np_eval; reflexivity]|]).
  rewrite HPd, Hclamp. intros E.
  assert (E' : (2 / 3 = 0.8)%R) by congruence. lra.
Qed.

End ExampleResults.

(** * Part 3: further properties of the code *)

(** Membership of a name in a list of names, and its refutation. *)
Ltac not_member E :=
  repeat (apply elem_of_cons in E as [E|E]; [discriminate E|]);
  apply elem_of_nil in E; exact E.

Ltac is_member :=
  solve [repeat first [apply list_elem_of_here | apply list_elem_of_further]].

(** The branch a chain of tests on a name takes. *)
Ltac take_branch :=
  repeat (let E := fresh "E" in
          case_decide as E;
          [try (exfalso; not_member E) | try (exfalso; apply E; is_member)]).


(** ** Great-circle distance *)

Section HaversineMore.

Import Geometry.
Local Open Scope R_scope.

(** The quantity under the square root, in real arithmetic. *)
Definition hav (lon1 lat1 lon2 lat2 : R) : R :=
  sin ((lat2 - lat1) / 2) * sin ((lat2 - lat1) / 2)
  + cos lat1 * cos lat2 * (sin ((lon2 - lon1) / 2) * sin ((lon2 - lon1) / 2)).

Lemma haversine_formula_hav (lon1 lat1 lon2 lat2 radius : R) :
  haversine_formula (Fin lon1) (Fin lat1) (Fin lon2) (Fin lat2) (Fin radius)
  = np.mul (Fin radius)
      (np.mul (Fin 2) (np.arcsin (np.sqrt (Fin (hav lon1 lat1 lon2 lat2))))).
Proof.
  unfold haversine_formula, hav. cbn [np.sub np.neg np.add].
  rewrite !div_Fin by lra.
  cbn [np.sin np.cos np.square np.mul np.add].
  replace (lat2 + - lat1) with (lat2 - lat1) by lra.
  replace (lon2 + - lon1) with (lon2 - lon1) by lra.
  reflexivity.
Qed.

Lemma hav_sym (lon1 lat1 lon2 lat2 : R) :
  hav lon1 lat1 lon2 lat2 = hav lon2 lat2 lon1 lat1.
Proof.
  unfold hav.
  replace ((lat1 - lat2) / 2) with (- ((lat2 - lat1) / 2)) by lra.
  replace ((lon1 - lon2) / 2) with (- ((lon2 - lon1) / 2)) by lra.
  rewrite !sin_neg. ring.
Qed.

(** With polar angles the latitudes are their complements. *)
Lemma haversine_polar (lon1 lat1 lon2 lat2 radius phi1 phi2 : R) :
  haversine (Fin lon1) (Fin lat1) (Fin lon2) (Fin lat2) (Fin radius)
            (Some (Fin phi1)) (Some (Fin phi2))
  = Ok (haversine_formula (Fin lon1) (Fin (PI / 2 - phi1)) (Fin lon2)
                          (Fin (PI / 2 - phi2)) (Fin radius)).
Proof.
  unfold haversine. cbn [mbind result_bind np.sub np.neg np.add].
  rewrite !div_Fin by lra. cbn [np.add]. reflexivity.
Qed.

(** X1. The distance does not depend on the order of the two points,
    whether their latitudes or their polar angles are given. *)
Theorem haversine_symmetric (lon1 lat1 lon2 lat2 radius phi1 phi2 : R) :
  haversine (Fin lon1) (Fin lat1) (Fin lon2) (Fin lat2) (Fin radius) None None
  = haversine (Fin lon2) (Fin lat2) (Fin lon1) (Fin lat1) (Fin radius) None None
  /\ haversine (Fin lon1) (Fin lat1) (Fin lon2) (Fin lat2) (Fin radius)
               (Some (Fin phi1)) (Some (Fin phi2))
     = haversine (Fin lon2) (Fin lat2) (Fin lon1) (Fin lat1) (Fin radius)
                 (Some (Fin phi2)) (Some (Fin phi1)).
Proof.
  split.
  - unfold haversine. cbn [mbind result_bind].
    rewrite !haversine_formula_hav, hav_sym. reflexivity.
  - rewrite !haversine_polar, !haversine_formula_hav, hav_sym. reflexivity.
Qed.

Lemma asin_abs_sin (u : R) :
  - (PI / 2) <= u <= PI / 2 -> asin (Rabs (sin u)) = Rabs u.
Proof.
  intros Hu. destruct (Rle_dec 0 u) as [H0|H0].
  - rewrite (Rabs_right u) by lra.
    rewrite Rabs_right by (apply Rle_ge, sin_ge_0; lra).
    apply asin_sin. lra.
  - rewrite (Rabs_left u) by lra.
    rewrite Rabs_left by (apply sin_lt_0_var; lra).
    rewrite <- sin_neg. apply asin_sin. lra.
Qed.

(** X2. Along a meridian the distance is the radius times the difference
    of the latitudes: between two points of one longitude whose latitudes
    differ by at most pi, [haversine] returns [radius * |lat2 - lat1|]; a
    point is at distance zero from itself. *)
Theorem haversine_meridian (lon lat1 lat2 radius : R) :
  Rabs (lat2 - lat1) <= PI ->
  haversine (Fin lon) (Fin lat1) (Fin lon) (Fin lat2) (Fin radius) None None
  = Ok (Fin (radius * Rabs (lat2 - lat1)))
  /\ haversine (Fin lon) (Fin lat1) (Fin lon) (Fin lat1) (Fin radius) None None
     = Ok (Fin 0).
Proof.
  intros Hd.
  assert (Hm : forall l1 l2 : R, Rabs (l2 - l1) <= PI ->
            haversine (Fin lon) (Fin l1) (Fin lon) (Fin l2) (Fin radius)
                      None None
            = Ok (Fin (radius * Rabs (l2 - l1)))).
  { intros l1 l2 H. unfold haversine. cbn [mbind result_bind].
    rewrite haversine_formula_hav. unfold hav.
    replace ((lon - lon) / 2) with 0 by lra. rewrite sin_0.
    set (u := (l2 - l1) / 2).
    replace (sin u * sin u + cos l1 * cos l2 * (0 * 0)) with (Rsqr (sin u))
      by (unfold Rsqr; ring).
    assert (Hu : - (PI / 2) <= u <= PI / 2).
    { unfold u. unfold Rabs in H. destruct (Rcase_abs (l2 - l1)); lra. }
    rewrite sqrt_Fin by apply Rle_0_sqr. rewrite sqrt_Rsqr_abs.
    rewrite arcsin_Fin.
    2:{ pose proof (Rabs_pos (sin u)). pose proof (SIN_bound u) as [? ?].
        split; [lra|]. apply Rabs_le. lra. }
    rewrite asin_abs_sin by exact Hu. cbn [np.mul]. do 2 f_equal.
    unfold u. unfold Rdiv. rewrite Rabs_mult, (Rabs_right (/ 2)) by lra. lra. }
  split; [apply Hm; exact Hd|].
  rewrite Hm.
  - replace (lat1 - lat1) with 0 by lra. rewrite Rabs_R0. do 2 f_equal. lra.
  - replace (lat1 - lat1) with 0 by lra. rewrite Rabs_R0.
    pose proof PI_RGT_0. lra.
Qed.

Lemma haversine_meridian_witness :
  Rabs (1 - 0) <= PI
  /\ haversine (Fin 0) (Fin 0) (Fin 0) (Fin 1) (Fin 6371) None None
     = Ok (Fin (6371 * Rabs (1 - 0)))
  /\ haversine (Fin 0) (Fin 0) (Fin 0) (Fin 0) (Fin 6371) None None
     = Ok (Fin 0).
Proof.
  assert (H : Rabs (1 - 0) <= PI).
  { replace (1 - 0) with 1 by lra. rewrite Rabs_R1.
    pose proof PI2_1. lra. }
  split; [exact H | exact (haversine_meridian 0 0 1 6371 H)].
Defined.

End HaversineMore.

(** ** Coordinate transforms, both ways *)

Section CoordinatesMore.

Import Geometry.
Local Open Scope R_scope.

(** A point at azimuth [a], polar angle [t] and radius [r] is at the
    distance [|r|] from the origin. *)
Lemma Rnorm_spherical (a t r : R) :
  Rnorm (r * sin t * cos a, r * sin t * sin a, r * cos t) = Rabs r.
Proof.
  unfold Rnorm. rewrite <- sqrt_Rsqr_abs. f_equal. unfold Rsqr.
  pose proof (sin2_cos2 t) as Pt. pose proof (sin2_cos2 a) as Pa.
  unfold Rsqr in Pt, Pa.
  transitivity (r * r * (sin t * sin t * (sin a * sin a + cos a * cos a)
                         + cos t * cos t)); [ring|].
  rewrite Pa. replace (sin t * sin t * 1 + cos t * cos t) with 1 by lra.
  ring.
Qed.

(** X3. A point given by azimuth, polar angle and radius lies at the
    distance [|radius|] from the origin; without a radius it lies on the
    unit sphere. *)
Theorem spherical_to_cartesian_norm (a t r : R) :
  norm (spherical_to_cartesian1 (ATR (Fin a) (Fin t) (Fin r))) = Fin (Rabs r)
  /\ norm (spherical_to_cartesian1 (AT (Fin a) (Fin t))) = Fin 1.
Proof.
  split.
  - change (spherical_to_cartesian1 (ATR (Fin a) (Fin t) (Fin r)))
      with (triple (r * sin t * cos a, r * sin t * sin a, r * cos t)).
    rewrite norm_Fin, Rnorm_spherical. reflexivity.
  - change (spherical_to_cartesian1 (AT (Fin a) (Fin t)))
      with (triple (1 * sin t * cos a, 1 * sin t * sin a, 1 * cos t)).
    rewrite norm_Fin, Rnorm_spherical, Rabs_R1. reflexivity.
Qed.

Lemma atan_pos (x : R) : 0 < x -> 0 < atan x.
Proof. intros H. rewrite <- atan_0. apply atan_increasing. exact H. Qed.

Lemma atan_neg (x : R) : x < 0 -> atan x < 0.
Proof. intros H. rewrite <- atan_0. apply atan_increasing. exact H. Qed.

Lemma Rarctan2_range (y x : R) : - PI < np.Rarctan2 y x <= PI.
Proof.
  pose proof PI_RGT_0 as Hpi. unfold np.Rarctan2.
  pose proof (atan_bound (y / x)) as [Hl Hu].
  repeat case_decide; try lra.
  - (* x < 0, 0 <= y *)
    destruct (Req_dec y 0) as [->|Hy].
    + replace (0 / x) with 0 by (field; lra). rewrite atan_0. lra.
    + assert (E : y / x * x = y) by (field; lra).
      assert (Hq : y / x < 0) by nra.
      pose proof (atan_neg _ Hq). lra.
  - (* x < 0, y < 0 *)
    assert (E : y / x * x = y) by (field; lra).
    assert (Hq : 0 < y / x) by nra.
    pose proof (atan_pos _ Hq). lra.
Qed.

(** X4. For every finite point, [cartesian_to_spherical] returns an
    azimuth in (-pi, pi], a polar angle in [0, pi] and as radius the
    Euclidean norm; the origin comes back as (0, 0, 0). *)
Theorem cartesian_to_spherical_range (p : R * R * R) :
  exists a t r : R,
    cartesian_to_spherical1 (triple p) = (Fin a, Fin t, Fin r)
    /\ - PI < a <= PI /\ 0 <= t <= PI /\ r = Rnorm p
    /\ (p = (0, 0, 0) -> a = 0 /\ t = 0).
Proof.
  destruct p as [[x y] z]. unfold triple, Rnorm.
  pose proof PI_RGT_0 as Hpi.
  destruct (Req_dec (x * x + y * y + z * z) 0) as [H0|Hn].
  - apply sum_squares_zero in H0 as (-> & -> & ->).
    rewrite cartesian_to_spherical1_origin.
    exists 0, 0, 0. repeat split; try lra.
    replace (0 * 0 + 0 * 0 + 0 * 0) with 0 by lra. rewrite sqrt_0. reflexivity.
  - rewrite cartesian_to_spherical1_Fin by assumption.
    eexists _, _, _. split; [reflexivity|].
    split; [apply Rarctan2_range|]. split; [apply acos_bound|].
    split; [reflexivity|].
    intros E. inversion E; subst. exfalso. apply Hn. lra.
Qed.

(** The azimuth [arctan2] returns has the cosine and the sine of the
    point. *)
Lemma Rarctan2_cos_sin (y x : R) :
  sqrt (x * x + y * y) * cos (np.Rarctan2 y x) = x
  /\ sqrt (x * x + y * y) * sin (np.Rarctan2 y x) = y.
Proof.
  unfold np.Rarctan2.
  assert (Hs : forall t : R, 0 < sqrt (1 + Rsqr t)).
  { intros t. apply sqrt_lt_R0. pose proof (Rle_0_sqr t). lra. }
  assert (Hss : forall t : R, sqrt (1 + Rsqr t) * sqrt (1 + Rsqr t) = 1 + Rsqr t).
  { intros t. apply sqrt_sqrt. pose proof (Rle_0_sqr t). lra. }
  assert (Hpos : 0 < x -> sqrt (x * x + y * y) = x * sqrt (1 + Rsqr (y / x))).
  { intros Hx. pose proof (Hs (y / x)). apply sqrt_lem_1; [nra | nra |].
    transitivity (x * x * (sqrt (1 + Rsqr (y / x)) * sqrt (1 + Rsqr (y / x))));
      [ring|].
    rewrite Hss. unfold Rsqr. field. lra. }
  assert (Hneg : x < 0 ->
            sqrt (x * x + y * y) = - x * sqrt (1 + Rsqr (y / x))).
  { intros Hx. pose proof (Hs (y / x)). apply sqrt_lem_1; [nra | nra |].
    transitivity (x * x * (sqrt (1 + Rsqr (y / x)) * sqrt (1 + Rsqr (y / x))));
      [ring|].
    rewrite Hss. unfold Rsqr. field. lra. }
  destruct (decide (0 < x)) as [Hx|Hx].
  { rewrite cos_atan, sin_atan, Hpos by assumption.
    pose proof (Hs (y / x)). split; field; repeat split; lra. }
  destruct (decide (x < 0)) as [Hx'|Hx'].
  { pose proof (Hs (y / x)).
    destruct (decide (0 <= y)).
    - rewrite neg_cos, neg_sin, cos_atan, sin_atan, Hneg by assumption.
      split; field; repeat split; lra.
    - replace (atan (y / x) - PI) with (- (PI - atan (y / x))) by lra.
      rewrite cos_neg, sin_neg.
      replace (PI - atan (y / x)) with (- atan (y / x) + PI) by lra.
      rewrite neg_cos, neg_sin, cos_neg, sin_neg, cos_atan, sin_atan, Hneg
        by assumption.
      split; field; repeat split; lra. }
  assert (x = 0) as -> by lra.
  replace (0 * 0 + y * y) with (Rsqr y) by (unfold Rsqr; ring).
  rewrite sqrt_Rsqr_abs.
  destruct (decide (0 < y)) as [Hy|Hy].
  { rewrite cos_PI2, sin_PI2, Rabs_right by lra. lra. }
  destruct (decide (y < 0)) as [Hy'|Hy'].
  { rewrite cos_neg, sin_neg, cos_PI2, sin_PI2, Rabs_left by lra. lra. }
  assert (y = 0) as -> by lra.
  rewrite Rabs_R0. lra.
Qed.

(** The polar angle has the cosine and the sine of the point. *)
Lemma polar_cos_sin (x y z : R) :
  x * x + y * y + z * z <> 0 ->
  let r := sqrt (x * x + y * y + z * z) in
  r * cos (acos (z / r)) = z
  /\ r * sin (acos (z / r)) = sqrt (x * x + y * y).
Proof.
  intros Hn r. pose proof (sum_squares_nonneg x y z) as H0.
  pose proof (cosine_in_range x y z Hn) as Hc. fold r in Hc.
  assert (Hr : 0 < r) by (apply sqrt_lt_R0; lra).
  assert (Hrr : r * r = x * x + y * y + z * z) by (apply sqrt_sqrt; lra).
  split.
  - rewrite cos_acos by exact Hc. field. lra.
  - rewrite sin_acos by exact Hc. symmetry. apply sqrt_lem_1.
    + nra.
    + apply Rmult_le_pos; [lra | apply sqrt_pos].
    + assert (Hq : 0 <= 1 - Rsqr (z / r)).
      { unfold Rsqr. destruct Hc as [Hc1 Hc2]. nra. }
      transitivity (r * r * (sqrt (1 - Rsqr (z / r)) * sqrt (1 - Rsqr (z / r))));
        [ring|].
      rewrite sqrt_sqrt by exact Hq. unfold Rsqr.
      transitivity (r * r - z * z); [field; lra | lra].
Qed.

(** X5. From cartesian to spherical coordinates and back: every finite
    point, the origin included, comes back as it was. *)
Theorem cartesian_round_trip (p : R * R * R) :
  spherical_to_cartesian1 (atr (cartesian_to_spherical1 (triple p)))
  = triple p.
Proof.
  destruct p as [[x y] z]. unfold triple.
  destruct (Req_dec (x * x + y * y + z * z) 0) as [H0|Hn].
  - apply sum_squares_zero in H0 as (-> & -> & ->).
    rewrite cartesian_to_spherical1_origin. cbn [atr].
    rewrite spherical_to_cartesian1_Fin. repeat f_equal; ring.
  - rewrite cartesian_to_spherical1_Fin by assumption. cbn [atr].
    rewrite spherical_to_cartesian1_Fin.
    destruct (polar_cos_sin x y z Hn) as [Hz Hrho]. cbn zeta in Hz, Hrho.
    destruct (Rarctan2_cos_sin y x) as [Hx Hy].
    rewrite Hz, Hrho, Hx, Hy. reflexivity.
Qed.

End CoordinatesMore.

(** ** Component directions *)

Section NormalsMore.

Import Geometry.
Local Open Scope R_scope.

(** What [vector_normal] returns at one point, by component: a vector
    orthogonal to the point and of its length for the meridian and the
    horizontal components, the third axis scaled by the length of the
    point for the vertical component, the point itself for the radial
    one. *)
Definition normal_of (k : normal_kind) (p n : R * R * R) : Prop :=
  match k with
  | Meridian | Horizontal => Rdot p n = 0 /\ Rnorm n = Rnorm p
  | Vertical => n = (0, 0, Rnorm p)
  | Radial => n = p
  end.

Lemma vector_normal1_of (k : normal_kind) (p : R * R * R) :
  exists n : R * R * R,
    vector_normal1 k (triple p) = triple n /\ normal_of k p n.
Proof.
  destruct p as [[x y] z]. unfold vector_normal1, triple.
  destruct (Req_dec (x * x + y * y + z * z) 0) as [H0|Hn].
  - apply sum_squares_zero in H0 as (-> & -> & ->).
    rewrite cartesian_to_spherical1_origin. cbn [np.mul].
    rewrite div_Fin by lra. cbn [np.mul np.sub np.add np.neg].
    assert (Hz : sqrt (0 * 0 + 0 * 0 + 0 * 0) = 0)
      by (replace (0 * 0 + 0 * 0 + 0 * 0) with 0 by lra; apply sqrt_0).
    destruct k; rewrite ?spherical_to_cartesian1_Fin;
      (eexists (_, _, _); split; [reflexivity|]);
      unfold normal_of, Rdot, Rnorm; cbv beta iota zeta.
    + split; [ring|]. f_equal. ring.
    + split; [ring|]. f_equal. ring.
    + rewrite Hz. repeat f_equal; ring.
    + reflexivity.
  - rewrite cartesian_to_spherical1_Fin by assumption. cbn [np.mul].
    rewrite div_Fin by lra. cbn [np.mul np.sub np.add np.neg].
    pose proof (sum_squares_nonneg x y z) as H0.
    destruct (polar_cos_sin x y z Hn) as [Hz Hrho]. cbn zeta in Hz, Hrho.
    destruct (Rarctan2_cos_sin y x) as [Hx Hy].
    set (r := sqrt (x * x + y * y + z * z)) in *.
    set (T := acos (z / r)) in *. set (A := np.Rarctan2 y x) in *.
    set (rho := sqrt (x * x + y * y)) in *.
    assert (Hrr : r * r = x * x + y * y + z * z) by (apply sqrt_sqrt; lra).
    assert (Hpp : rho * rho = x * x + y * y) by (apply sqrt_sqrt; nra).
    pose proof (sin2_cos2 A) as PA. unfold Rsqr in PA.
    destruct k; rewrite ?spherical_to_cartesian1_Fin;
      (eexists (_, _, _); split; [reflexivity|]);
      unfold normal_of, Rdot, Rnorm; cbv beta iota zeta.
    + (* meridian *)
      replace (T + - (1 * PI / 2)) with (T - PI / 2) by lra.
      rewrite sin_minus, cos_minus, cos_PI2, sin_PI2.
      split.
      * transitivity (- (r * cos T) * (x * cos A + y * sin A)
                      + z * (r * sin T)); [ring|].
        rewrite Hz, Hrho, <- Hx, <- Hy.
        transitivity (- z * (rho * (sin A * sin A + cos A * cos A)) + z * rho);
          [ring|]. rewrite PA. ring.
      * fold r. f_equal.
        transitivity ((r * cos T) * (r * cos T) * (sin A * sin A + cos A * cos A)
                      + (r * sin T) * (r * sin T)); [ring|].
        rewrite Hz, Hrho, PA, Hpp. ring.
    + (* horizontal *)
      replace (A + - (1 * PI / 2)) with (A - PI / 2) by lra.
      replace (T + (1 * PI / 2 + - T)) with (PI / 2) by lra.
      rewrite sin_minus, cos_minus, cos_PI2, sin_PI2.
      split.
      * rewrite <- Hx at 1. rewrite <- Hy at 1. ring.
      * fold r. f_equal.
        transitivity (r * r * (sin A * sin A + cos A * cos A)); [ring|].
        rewrite PA, Hrr. ring.
    + (* vertical *)
      replace (T + - T) with 0 by lra. rewrite sin_0, cos_0. fold r.
      repeat f_equal; ring.
    + reflexivity.
Qed.

(** X6. The direction [vector_normal] returns for a meridian or a
    horizontal component is orthogonal to the point and as long as it; for
    the vertical component it is the third axis scaled by the length of
    the point, for the radial component the point itself.  This holds at
    every finite point (at the origin all four are the null vector). *)
Theorem vector_normal_directions (XYZ : list (R * R * R)) (v_or_h : string)
    (k : normal_kind) :
  kind_of v_or_h = Some k ->
  exists normals : list (R * R * R),
    vector_normal (map triple XYZ) v_or_h = Ok (map triple normals)
    /\ Forall2 (normal_of k) XYZ normals.
Proof.
  intros Hk. unfold vector_normal. rewrite Hk.
  induction XYZ as [|p XYZ (normals & E & HF)].
  - exists []. split; [reflexivity | constructor].
  - destruct (vector_normal1_of k p) as (n & En & Hn).
    exists (n :: normals). cbn [map]. split.
    + rewrite En. injection E as E. rewrite E. reflexivity.
    + constructor; assumption.
Qed.

Lemma vector_normal_directions_witness :
  kind_of "T" = Some Horizontal
  /\ exists normals : list (R * R * R),
       vector_normal (map triple [(1, 2, 2)]) "T" = Ok (map triple normals)
       /\ Forall2 (normal_of Horizontal) [(1, 2, 2)] normals.
Proof.
  split; [reflexivity|].
  apply (vector_normal_directions [(1, 2, 2)] "T" Horizontal). reflexivity.
Defined.

(** X7. A component name outside the four groups is not reported:
    [vector_normal] ends in [UnboundLocalError] on its result variable, and
    so does [disp_component], whatever the points and the displacements. *)
Theorem unknown_component (xyz disp : field) (comp : string) :
  comp ∉ kinds_meridian ++ kinds_horizontal ++ kinds_vertical ++ kinds_radial ->
  vector_normal xyz comp = Raise (UnboundLocalError "XYZ_n")
  /\ disp_component xyz disp (Some comp) = Raise (UnboundLocalError "XYZ_n").
Proof.
  intros Hn. rewrite !elem_of_app in Hn.
  assert (Hk : kind_of comp = None).
  { unfold kind_of. repeat case_decide; tauto. }
  assert (Hv : vector_normal xyz comp = Raise (UnboundLocalError "XYZ_n"))
    by (unfold vector_normal; rewrite Hk; reflexivity).
  split; [exact Hv|]. unfold disp_component. rewrite Hv. reflexivity.
Qed.

Lemma unknown_component_witness :
  ("Z"%string ∉ kinds_meridian ++ kinds_horizontal ++ kinds_vertical
                ++ kinds_radial)
  /\ vector_normal [(Fin 1, Fin 0, Fin 0)] "Z"
     = Raise (UnboundLocalError "XYZ_n")
  /\ disp_component [(Fin 1, Fin 0, Fin 0)] [(Fin 0, Fin 1, Fin 0)] (Some "Z"%string)
     = Raise (UnboundLocalError "XYZ_n").
Proof.
  assert (H : "Z"%string ∉ kinds_meridian ++ kinds_horizontal ++ kinds_vertical
                           ++ kinds_radial).
  { unfold kinds_meridian, kinds_horizontal, kinds_vertical, kinds_radial.
    cbn [app]. rewrite !elem_of_cons, elem_of_nil.
    intros E. repeat destruct E as [E|E]; try discriminate E. exact E. }
  split; [exact H|].
  exact (unknown_component [(Fin 1, Fin 0, Fin 0)] [(Fin 0, Fin 1, Fin 0)] "Z" H).
Defined.

End NormalsMore.

(** ** Shapes of a mechanism *)

Section TensorShapes.

Variable MomentTensor : list npfloat -> mopad.

(** A 3x3 array is symmetric. *)
Definition symmetric (M : list (list npfloat)) : Prop :=
  forall i j, M !! i ≫= (.!! j) = M !! j ≫= (.!! i).

(** X8. What [mt_full] returns is a 3x3 array that [mt_full] returns
    unchanged.  From six components it builds a symmetric array, from
    which [mt_angles] reads the same six components back: the angles and
    the percentages of [mt_full(mt)] are those of [mt]. *)
Theorem mt_full_then (mt : ndarray) (M : list (list npfloat)) :
  mt_full mt = Ok M ->
  mt_full (Arr2 M) = Ok M
  /\ (forall six, mt = Arr1 six ->
        symmetric M
        /\ mt_angles MomentTensor (Arr2 M) = mt_angles MomentTensor mt).
Proof.
  intros H. destruct mt as [x|v|m]; [discriminate| |].
  - destruct v as [|m0 [|m1 [|m2 [|m3 [|m4 [|m5 [|]]]]]]]; try discriminate.
    injection H as <-. split; [reflexivity|].
    intros six _. split; [| reflexivity].
    intros [|[|[|i]]] [|[|[|j]]]; reflexivity.
  - destruct m as [|[|m00 [|m01 [|m02 [|]]]] m]; try discriminate.
    destruct m as [|[|m10 [|m11 [|m12 [|]]]] m]; try discriminate.
    destruct m as [|[|m20 [|m21 [|m22 [|]]]] [|]]; try discriminate.
    injection H as <-. split; [reflexivity|]. intros six E. discriminate.
Qed.

(** X9. The shapes that are not accepted.  A one-dimensional array makes
    [mt_full] raise its dimension error unless its length is 6, and makes
    [mt_angles] raise its own unless its length is 3, 4 or 6; a scalar
    makes [mt_angles] raise the same error and [mt_full] end in a
    [TypeError]. *)
Theorem unsupported_shapes (v : list npfloat) (x : npfloat) :
  (length v = 6%nat
   \/ mt_full (Arr1 v)
      = Raise (Exception "I/O dimensions: only 1x6 or 3x3 input supported."))
  /\ (length v = 3%nat \/ length v = 4%nat \/ length v = 6%nat
      \/ mt_angles MomentTensor (Arr1 v)
         = Raise (Exception
             "I/O dimensions: only [1|2]x3, 1x[4|6] and 3x3 inputs supported."))
  /\ mt_full (Arr0 x) = Raise TypeError
  /\ mt_angles MomentTensor (Arr0 x)
     = Raise (Exception
         "I/O dimensions: only [1|2]x3, 1x[4|6] and 3x3 inputs supported.").
Proof.
  repeat split.
  - destruct v as [|m0 [|m1 [|m2 [|m3 [|m4 [|m5 [|]]]]]]];
      (left; reflexivity) || (right; reflexivity).
  - destruct v as [|m0 [|m1 [|m2 [|m3 [|m4 [|m5 [|]]]]]]];
      first [ left; reflexivity | right; left; reflexivity
            | right; right; left; reflexivity
            | right; right; right; reflexivity ].
Qed.

End TensorShapes.

Lemma mt_full_then_witness :
  mt_full (Arr1 [Fin 1; Fin 2; Fin 3; Fin 4; Fin 5; Fin 6])
  = Ok [[Fin 1; Fin 4; Fin 5]; [Fin 4; Fin 2; Fin 6]; [Fin 5; Fin 6; Fin 3]]
  /\ mt_full (Arr2 [[Fin 1; Fin 4; Fin 5]; [Fin 4; Fin 2; Fin 6];
                    [Fin 5; Fin 6; Fin 3]])
     = Ok [[Fin 1; Fin 4; Fin 5]; [Fin 4; Fin 2; Fin 6]; [Fin 5; Fin 6; Fin 3]]
  /\ (forall six,
        Arr1 [Fin 1; Fin 2; Fin 3; Fin 4; Fin 5; Fin 6] = Arr1 six ->
        symmetric [[Fin 1; Fin 4; Fin 5]; [Fin 4; Fin 2; Fin 6];
                   [Fin 5; Fin 6; Fin 3]]
        /\ mt_angles double_couple_only
             (Arr2 [[Fin 1; Fin 4; Fin 5]; [Fin 4; Fin 2; Fin 6];
                    [Fin 5; Fin 6; Fin 3]])
           = mt_angles double_couple_only
               (Arr1 [Fin 1; Fin 2; Fin 3; Fin 4; Fin 5; Fin 6])).
Proof.
  split; [reflexivity|].
  apply (mt_full_then double_couple_only (Arr1 [Fin 1; Fin 2; Fin 3; Fin 4; Fin 5; Fin 6])).
  reflexivity.
Defined.


(** ** Rotation about an axis *)

Section Rotation.

Import Geometry.
Local Open Scope R_scope.

(** The Euler parameters of the rotation, in real arithmetic. *)
Definition Rquaternion (axis : R * R * R) (theta : R) : R * R * R * R :=
  let '(x, y, z) := axis in
  let n := sqrt (x * x + y * y + z * z) in
  (cos (theta / 2), - (x / n) * sin (theta / 2), - (y / n) * sin (theta / 2),
   - (z / n) * sin (theta / 2)).

Definition Rrotation (q : R * R * R * R)
  : (R * R * R) * (R * R * R) * (R * R * R) :=
  let '(a, b, c, d) := q in
  ((a * a + b * b - c * c - d * d, 2 * (b * c + a * d), 2 * (b * d - a * c)),
   (2 * (b * c - a * d), a * a + c * c - b * b - d * d, 2 * (c * d + a * b)),
   (2 * (b * d + a * c), 2 * (c * d - a * b), a * a + d * d - b * b - c * c)).

Definition triples (m : (R * R * R) * (R * R * R) * (R * R * R)) : mat3 :=
  let '(r0, r1, r2) := m in (triple r0, triple r1, triple r2).

Lemma rotation_matrix_Fin (axis : R * R * R) (theta : R) :
  axis <> (0, 0, 0) ->
  rotation_matrix (triple axis) (Fin theta)
  = triples (Rrotation (Rquaternion axis theta)).
Proof.
  destruct axis as [[x y] z]. intros Hn.
  assert (Hq : x * x + y * y + z * z <> 0).
  { intros E. apply Hn. apply sum_squares_zero in E as (-> & -> & ->).
    reflexivity. }
  pose proof (sum_squares_nonneg x y z) as H0.
  assert (Hs : sqrt (x * x + y * y + z * z) <> 0).
  { intros E. apply Hq, sqrt_eq_0; assumption. }
  unfold rotation_matrix, triple. cbn [np.mul np.add].
  rewrite sqrt_Fin by assumption. rewrite !div_Fin by (assumption || lra).
  cbn [np.cos np.sin np.neg np.mul np.add np.sub].
  unfold triples, Rrotation, Rquaternion, triple.
  repeat f_equal; ring.
Qed.

Lemma mat_vec_Fin (m : (R * R * R) * (R * R * R) * (R * R * R))
    (v : R * R * R) :
  mat_vec (triples m) (triple v)
  = triple (Rdot m.1.1 v, Rdot m.1.2 v, Rdot m.2 v).
Proof.
  destruct m as [[r0 r1] r2]. unfold triples, mat_vec.
  rewrite !dot_Fin. reflexivity.
Qed.

Lemma quaternion_unit (axis : R * R * R) (theta : R) :
  axis <> (0, 0, 0) ->
  let '(a, b, c, d) := Rquaternion axis theta in
  a * a + b * b + c * c + d * d = 1.
Proof.
  destruct axis as [[x y] z]. intros Hn. unfold Rquaternion.
  assert (Hq : x * x + y * y + z * z <> 0).
  { intros E. apply Hn. apply sum_squares_zero in E as (-> & -> & ->).
    reflexivity. }
  pose proof (sum_squares_nonneg x y z) as H0.
  set (n := sqrt (x * x + y * y + z * z)).
  assert (Hnn : n * n = x * x + y * y + z * z) by (apply sqrt_sqrt; lra).
  assert (Hn0 : n <> 0) by (intros E; rewrite E in Hnn; lra).
  pose proof (sin2_cos2 (theta / 2)) as P. unfold Rsqr in P.
  transitivity (cos (theta / 2) * cos (theta / 2)
                + sin (theta / 2) * sin (theta / 2)
                  * ((x * x + y * y + z * z) / (n * n))); [field; exact Hn0|].
  rewrite <- Hnn. replace (n * n / (n * n)) with 1 by (field; exact Hn0). lra.
Qed.

Lemma rotation_matrix_zero (axis v : R * R * R) :
  axis <> (0, 0, 0) ->
  mat_vec (rotation_matrix (triple axis) (Fin 0)) (triple v) = triple v.
Proof.
  intros Hn. rewrite rotation_matrix_Fin by exact Hn. rewrite mat_vec_Fin.
  destruct axis as [[x y] z], v as [[v0 v1] v2].
  unfold Rquaternion. replace (0 / 2) with 0 by lra. rewrite sin_0, cos_0.
  unfold Rrotation, Rdot, triple; cbn [fst snd]; cbv beta iota zeta.
  repeat f_equal; ring.
Qed.

(** X10. [rotation_matrix] about a finite axis that is not null is a
    rotation about that axis: applied with [np.dot] to a finite vector it
    keeps the length of the vector, it leaves the axis where it is, and
    for the angle zero it leaves every vector where it is. *)
Theorem rotation_matrix_rotates (axis v : R * R * R) (theta : R) :
  axis <> (0, 0, 0) ->
  (exists w : R * R * R,
     mat_vec (rotation_matrix (triple axis) (Fin theta)) (triple v) = triple w
     /\ Rnorm w = Rnorm v)
  /\ mat_vec (rotation_matrix (triple axis) (Fin theta)) (triple axis)
     = triple axis
  /\ mat_vec (rotation_matrix (triple axis) (Fin 0)) (triple v) = triple v.
Proof.
  intros Hn.
  pose proof (quaternion_unit axis theta Hn) as Hu.
  split; [| split]; [| | apply rotation_matrix_zero; exact Hn];
    rewrite !rotation_matrix_Fin by exact Hn; rewrite !mat_vec_Fin;
    destruct axis as [[x y] z], v as [[v0 v1] v2].
  - eexists. split; [reflexivity|].
    destruct (Rquaternion (x, y, z) theta) as [[[a b] c] d].
    unfold Rrotation, Rdot, Rnorm; cbn [fst snd]. f_equal.
    transitivity ((a * a + b * b + c * c + d * d)
                  * (a * a + b * b + c * c + d * d)
                  * (v0 * v0 + v1 * v1 + v2 * v2)); [ring|].
    rewrite Hu. ring.
  - assert (Hq : x * x + y * y + z * z <> 0).
    { intros E. apply Hn. apply sum_squares_zero in E as (-> & -> & ->).
      reflexivity. }
    pose proof (sum_squares_nonneg x y z) as H0.
    unfold Rquaternion in *. cbv beta iota zeta in Hu.
    unfold Rrotation, Rdot, triple; cbn [fst snd]; cbv beta iota zeta.
    set (n := sqrt (x * x + y * y + z * z)) in *.
    assert (Hnn : n * n = x * x + y * y + z * z) by (apply sqrt_sqrt; lra).
    assert (Hn0 : n <> 0) by (intros E; rewrite E in Hnn; lra).
    set (s := sin (theta / 2)) in *. set (a := cos (theta / 2)) in *.
    assert (Hx : x = n * (x / n)) by (field; exact Hn0).
    assert (Hy : y = n * (y / n)) by (field; exact Hn0).
    assert (Hz : z = n * (z / n)) by (field; exact Hn0).
    set (ux := x / n) in *. set (uy := y / n) in *. set (uz := z / n) in *.
    clearbody ux uy uz. rewrite Hx, Hy, Hz. clear Hx Hy Hz.
    repeat f_equal.
    + transitivity (n * ux * (a * a + - ux * s * (- ux * s)
                              + - uy * s * (- uy * s) + - uz * s * (- uz * s)));
        [ring | rewrite Hu; ring].
    + transitivity (n * uy * (a * a + - ux * s * (- ux * s)
                              + - uy * s * (- uy * s) + - uz * s * (- uz * s)));
        [ring | rewrite Hu; ring].
    + transitivity (n * uz * (a * a + - ux * s * (- ux * s)
                              + - uy * s * (- uy * s) + - uz * s * (- uz * s)));
        [ring | rewrite Hu; ring].
Qed.

Lemma rotation_matrix_rotates_witness :
  (0, 0, 1) <> (0, 0, 0)
  /\ (exists w : R * R * R,
        mat_vec (rotation_matrix (triple (0, 0, 1)) (Fin 1)) (triple (3, 5, 0))
        = triple w
        /\ Rnorm w = Rnorm (3, 5, 0))
  /\ mat_vec (rotation_matrix (triple (0, 0, 1)) (Fin 1)) (triple (0, 0, 1))
     = triple (0, 0, 1)
  /\ mat_vec (rotation_matrix (triple (0, 0, 1)) (Fin 0)) (triple (3, 5, 0))
     = triple (3, 5, 0).
Proof.
  assert (H : (0, 0, 1) <> (0, 0, 0)) by (intros E; inversion E; lra).
  split; [exact H | exact (rotation_matrix_rotates (0, 0, 1) (3, 5, 0) 1 H)].
Defined.

(** The unit axis and the half angle of the rotation. *)
Lemma quaternion_axis (axis : R * R * R) (theta : R) :
  axis <> (0, 0, 0) ->
  exists ux uy uz : R,
    ux * ux + uy * uy + uz * uz = 1
    /\ forall theta : R,
         Rquaternion axis theta
         = (cos (theta / 2), - ux * sin (theta / 2), - uy * sin (theta / 2),
            - uz * sin (theta / 2)).
Proof.
  destruct axis as [[x y] z]. intros Hn.
  assert (Hq : x * x + y * y + z * z <> 0).
  { intros E. apply Hn. apply sum_squares_zero in E as (-> & -> & ->).
    reflexivity. }
  pose proof (sum_squares_nonneg x y z) as H0.
  set (n := sqrt (x * x + y * y + z * z)).
  assert (Hnn : n * n = x * x + y * y + z * z) by (apply sqrt_sqrt; lra).
  assert (Hn0 : n <> 0) by (intros E; rewrite E in Hnn; lra).
  exists (x / n), (y / n), (z / n). split; [| intros t; reflexivity].
  transitivity ((x * x + y * y + z * z) / (n * n)); [field; exact Hn0|].
  rewrite <- Hnn. field. exact Hn0.
Qed.

(** X11. Rotations about one axis compose by adding their angles:
    applying [rotation_matrix axis theta2] and then
    [rotation_matrix axis theta1] to a finite vector is applying
    [rotation_matrix axis (theta1 + theta2)]; so the rotation by the
    opposite angle undoes a rotation. *)
Theorem rotation_matrix_composes (axis v : R * R * R) (theta1 theta2 : R) :
  axis <> (0, 0, 0) ->
  mat_vec (rotation_matrix (triple axis) (Fin theta1))
          (mat_vec (rotation_matrix (triple axis) (Fin theta2)) (triple v))
  = mat_vec (rotation_matrix (triple axis) (Fin (theta1 + theta2))) (triple v)
  /\ mat_vec (rotation_matrix (triple axis) (Fin (- theta1)))
             (mat_vec (rotation_matrix (triple axis) (Fin theta1)) (triple v))
     = triple v.
Proof.
  intros Hn.
  assert (Hc : forall t1 t2 : R,
            mat_vec (rotation_matrix (triple axis) (Fin t1))
              (mat_vec (rotation_matrix (triple axis) (Fin t2)) (triple v))
            = mat_vec (rotation_matrix (triple axis) (Fin (t1 + t2)))
                      (triple v)).
  { intros t1 t2.
    rewrite !rotation_matrix_Fin by exact Hn. rewrite !mat_vec_Fin.
    destruct (quaternion_axis axis 0 Hn) as (ux & uy & uz & Hu & Hq).
    rewrite !Hq. clear Hq. destruct v as [[v0 v1] v2].
    replace ((t1 + t2) / 2) with (t1 / 2 + t2 / 2) by lra.
    rewrite sin_plus, cos_plus.
    pose proof (sin2_cos2 (t1 / 2)) as P1. pose proof (sin2_cos2 (t2 / 2)) as P2.
    unfold Rsqr in P1, P2.
    set (s1 := sin (t1 / 2)) in *. set (a1 := cos (t1 / 2)) in *.
    set (s2 := sin (t2 / 2)) in *. set (a2 := cos (t2 / 2)) in *.
    unfold Rrotation, Rdot, triple; cbn [fst snd]; cbv beta iota zeta.
    clearbody s1 a1 s2 a2. clear P1 P2.
    f_equal; [f_equal|]; apply (f_equal Fin); nsatz. }
  split; [apply Hc|].
  rewrite Hc. replace (- theta1 + theta1) with 0 by lra.
  apply (rotation_matrix_zero axis v Hn).
Qed.

Lemma rotation_matrix_composes_witness :
  (0, 0, 1) <> (0, 0, 0)
  /\ mat_vec (rotation_matrix (triple (0, 0, 1)) (Fin 1))
       (mat_vec (rotation_matrix (triple (0, 0, 1)) (Fin 2)) (triple (3, 5, 0)))
     = mat_vec (rotation_matrix (triple (0, 0, 1)) (Fin (1 + 2)))
         (triple (3, 5, 0))
  /\ mat_vec (rotation_matrix (triple (0, 0, 1)) (Fin (- 1)))
       (mat_vec (rotation_matrix (triple (0, 0, 1)) (Fin 1)) (triple (3, 5, 0)))
     = triple (3, 5, 0).
Proof.
  assert (H : (0, 0, 1) <> (0, 0, 0)) by (intros E; inversion E; lra).
  split; [exact H | exact (rotation_matrix_composes (0, 0, 1) (3, 5, 0) 1 2 H)].
Defined.

End Rotation.

(** ** Points on the globe *)

Section GlobeMore.

Import Geometry.
Local Open Scope R_scope.

Lemma zip_with_zip_map {A B C D E : Type} (f : B * C -> D -> E)
    (a : A -> B) (b : A -> C) (c : A -> D) (l : list A) :
  zip_with f (zip (map a l) (map b l)) (map c l)
  = map (fun k => f (a k, b k) (c k)) l.
Proof. induction l as [|k l IH]; [reflexivity|]. cbn. rewrite <- IH. reflexivity. Qed.

(** The heights of [globe]: [n] equal steps from [1 - 1/n] down to
    [1/n - 1]. *)
Lemma globe_height (n k : nat) :
  (k < n)%nat ->
  let z := 1 - 1 / INR n + INR k * ((1 / INR n - 1 - (1 - 1 / INR n)) / INR (n - 1)) in
  z * z <= 1.
Proof.
  intros Hk z.
  assert (Hn : 1 <= INR n) by (apply (le_INR 1); lia).
  assert (Hk0 : 0 <= INR k) by apply pos_INR.
  destruct (decide (n = 1%nat)) as [->|Hn1].
  - assert (k = 0%nat) as -> by lia. subst z. cbn [INR]. 
    replace (1 - 1 / 1 + 0 * ((1 / 1 - 1 - (1 - 1 / 1)) / INR (1 - 1))) with 0
      by (cbn [Nat.sub INR]; unfold Rdiv; rewrite Rinv_1; ring).
    lra.
  - assert (Hn2 : 2 <= INR n) by (apply (le_INR 2); lia).
    assert (Hkn : INR k <= INR n - 1).
    { change 1 with (INR 1). rewrite <- (minus_INR n 1) by lia. apply le_INR. lia. }
    assert (Ez : z = 1 - (2 * INR k + 1) / INR n).
    { subst z. rewrite minus_INR by lia. cbn [INR]. field. lra. }
    assert (Hi : 0 < / INR n) by (apply Rinv_0_lt_compat; lra).
    assert (Hq : (2 * INR k + 1) / INR n <= 2).
    { assert (E : (2 * INR k + 1) / INR n * INR n = 2 * INR k + 1) by (field; lra).
      nra. }
    assert (Hq0 : 0 <= (2 * INR k + 1) / INR n).
    { unfold Rdiv. apply Rmult_le_pos; lra. }
    rewrite Ez. nra.
Qed.

(** X12. For a finite radius and at least one point, [globe] returns
    [n] points, each at the distance [|r|] from the origin: the points lie
    on the sphere of radius [|r|]. *)
Theorem globe_on_sphere (r : R) (n : nat) :
  (1 <= n)%nat ->
  exists points : list (R * R * R),
    globe (Fin r) n = map triple points
    /\ length points = n
    /\ Forall (fun p => Rnorm p = Rabs r) points.
Proof.
  intros Hn. unfold globe, Vavryeuk.linspace.
  rewrite map_map, zip_with_zip_map.
  set (z := fun k : nat =>
         1 - 1 / INR n
         + INR k * ((1 / INR n - 1 - (1 - 1 / INR n)) / INR (n - 1))).
  set (theta := fun k : nat => PI * (3 - sqrt 5) * INR k).
  exists (map (fun k => (r * sqrt (1 - z k * z k) * cos (theta k),
                         r * sqrt (1 - z k * z k) * sin (theta k),
                         r * z k)) (seq 0 n)).
  split; [| split].
  - rewrite map_map. apply map_ext_in. intros k Hk. apply in_seq in Hk.
    pose proof (globe_height n k ltac:(lia)) as Hz. cbn zeta in Hz. fold (z k) in Hz.
    assert (H5 : np.sqrt (Fin 5) = Fin (sqrt 5)) by (apply sqrt_Fin; lra).
    rewrite H5. cbn [fst snd np.mul np.sub np.add np.neg]. fold (z k).
    rewrite sqrt_Fin by lra. cbn [np.mul np.cos np.sin].
    unfold triple, theta. repeat f_equal; ring.
  - rewrite length_map, length_seq. reflexivity.
  - apply List.Forall_forall. intros p Hp.
    apply List.in_map_iff in Hp as (k & <- & Hk).
    apply in_seq in Hk.
    pose proof (globe_height n k ltac:(lia)) as Hz. cbn zeta in Hz. fold (z k) in Hz.
    unfold Rnorm. rewrite <- sqrt_Rsqr_abs. f_equal. unfold Rsqr.
    pose proof (sin2_cos2 (theta k)) as P. unfold Rsqr in P.
    assert (Hs : sqrt (1 - z k * z k) * sqrt (1 - z k * z k) = 1 - z k * z k)
      by (apply sqrt_sqrt; lra).
    set (s := sqrt (1 - z k * z k)) in *.
    transitivity (r * r * (s * s * (sin (theta k) * sin (theta k)
                                    + cos (theta k) * cos (theta k))
                           + z k * z k)); [ring|].
    rewrite P, Hs. ring.
Qed.

Lemma globe_on_sphere_witness :
  (1 <= 3)%nat
  /\ exists points : list (R * R * R),
       globe (Fin 2) 3 = map triple points
       /\ length points = 3%nat
       /\ Forall (fun p => Rnorm p = Rabs 2) points.
Proof. split; [lia | apply (globe_on_sphere 2 3); lia]. Defined.

End GlobeMore.

(** ** The radiation pattern of Aki and Richards *)

Section AkiRichardsMore.

Import Geometry.
Local Open Scope R_scope.

Variable empty : nat -> vec3.

(** A finite 3x3 tensor, as [mt_full] returns it. *)
Definition rows (M : (R * R * R) * (R * R * R) * (R * R * R))
  : list (list npfloat) :=
  let '((m00, m01, m02), (m10, m11, m12), (m20, m21, m22)) := M in
  [[Fin m00; Fin m01; Fin m02]; [Fin m10; Fin m11; Fin m12];
   [Fin m20; Fin m21; Fin m22]].

(** The direction of a point, the product of the tensor with a vector and
    the radial amplitude [gamma . M gamma], in real arithmetic. *)
Definition Runit (p : R * R * R) : R * R * R :=
  let '(x, y, z) := p in (x / Rnorm p, y / Rnorm p, z / Rnorm p).

Definition Rmat_vec (M : (R * R * R) * (R * R * R) * (R * R * R))
    (v : R * R * R) : R * R * R :=
  (Rdot M.1.1 v, Rdot M.1.2 v, Rdot M.2 v).

Definition Rscale (k : R) (v : R * R * R) : R * R * R :=
  let '(x, y, z) := v in (k * x, k * y, k * z).

Definition Rminus3 (u v : R * R * R) : R * R * R :=
  let '(u0, u1, u2) := u in
  let '(v0, v1, v2) := v in (u0 - v0, u1 - v1, u2 - v2).

Definition Rradial (M : (R * R * R) * (R * R * R) * (R * R * R))
    (p : R * R * R) : R :=
  Rdot (Runit p) (Rmat_vec M (Runit p)).

Lemma Rnorm_nonzero (p : R * R * R) : p <> (0, 0, 0) -> Rnorm p <> 0.
Proof.
  destruct p as [[x y] z]. intros Hn E. apply Hn.
  apply sqrt_eq_0 in E; [| apply sum_squares_nonneg].
  apply sum_squares_zero in E as (-> & -> & ->). reflexivity.
Qed.

Lemma gamma_of_Fin (p : R * R * R) :
  p <> (0, 0, 0) -> Aki_Richards.gamma_of (triple p) = triple (Runit p).
Proof.
  intros Hn. pose proof (Rnorm_nonzero p Hn) as H0.
  destruct p as [[x y] z]. unfold Aki_Richards.gamma_of, triple, Runit.
  cbn [np.mul np.add]. rewrite sqrt_Fin by apply sum_squares_nonneg.
  unfold Rnorm in H0 |- *. rewrite !div_Fin by exact H0. reflexivity.
Qed.

Lemma Runit_unit (p : R * R * R) :
  p <> (0, 0, 0) -> Rdot (Runit p) (Runit p) = 1.
Proof.
  intros Hn. pose proof (Rnorm_nonzero p Hn) as H0.
  destruct p as [[x y] z]. unfold Runit, Rdot.
  assert (Hnn : Rnorm (x, y, z) * Rnorm (x, y, z) = x * x + y * y + z * z)
    by (apply sqrt_sqrt, sum_squares_nonneg).
  set (n := Rnorm (x, y, z)) in *.
  transitivity ((x * x + y * y + z * z) / (n * n)); [field; exact H0|].
  rewrite <- Hnn. field. exact H0.
Qed.

Lemma disp_P_Fin (M : (R * R * R) * (R * R * R) * (R * R * R))
    (g : R * R * R) :
  Aki_Richards.disp_P (triples M) (triple g)
  = triple (Rscale (Rdot g (Rmat_vec M g)) g).
Proof.
  destruct M as [[[[m00 m01] m02] [[m10 m11] m12]] [[m20 m21] m22]].
  destruct g as [[g0 g1] g2].
  unfold Aki_Richards.disp_P, triples, triple, Rscale, Rmat_vec, Rdot.
  cbn [fst snd np.sum foldl np.mul np.add].
  f_equal; [f_equal|]; apply (f_equal Fin); ring.
Qed.

Lemma disp_S_Fin (M : (R * R * R) * (R * R * R) * (R * R * R))
    (g : R * R * R) :
  Rdot g g = 1 ->
  exists d : R * R * R,
    Aki_Richards.disp_S (triples M) (triple g) = triple d
    /\ d = Rminus3 (Rscale (Rdot g (Rmat_vec M g)) g) (Rmat_vec M g)
    /\ Rdot g d = 0.
Proof.
  intros Hg. unfold Aki_Richards.disp_S. rewrite mat_vec_Fin.
  destruct M as [[[[m00 m01] m02] [[m10 m11] m12]] [[m20 m21] m22]].
  destruct g as [[g0 g1] g2].
  unfold triple, Rscale, Rmat_vec, Rminus3, Rdot in *.
  cbn [fst snd np.mul np.add np.sub np.neg] in *.
  eexists (_, _, _). split; [reflexivity|]. split.
  - f_equal; [f_equal|]; ring.
  - set (q0 := m00 * g0 + m01 * g1 + m02 * g2).
    set (q1 := m10 * g0 + m11 * g1 + m12 * g2).
    set (q2 := m20 * g0 + m21 * g1 + m22 * g2).
    transitivity ((g0 * g0 + g1 * g1 + g2 * g2 - 1)
                  * (g0 * q0 + g1 * q1 + g2 * q2)); [ring|].
    rewrite Hg. ring.
Qed.

(** The wave names of the plain branches are no names of a projection. *)
Lemma plain_waves (wave : string) :
  wave ∈ Aki_Richards.waves_P ++ Aki_Richards.waves_S ->
  (wave ∉ Aki_Richards.waves_Sv) /\ (wave ∉ Aki_Richards.waves_Sm)
  /\ (wave ∉ Aki_Richards.waves_Sh)
  /\ (wave ∈ Aki_Richards.waves_P -> wave ∉ Aki_Richards.waves_S).
Proof.
  unfold Aki_Richards.waves_P, Aki_Richards.waves_S, Aki_Richards.waves_Sv,
    Aki_Richards.waves_Sm, Aki_Richards.waves_Sh.
  cbn [app]. intros H.
  repeat (apply elem_of_cons in H as [H|H];
          [subst wave;
           (split; [|split; [|split]]); intros E;
           first [ exfalso; not_member E
                 | let E' := fresh in intros E'; not_member E' ]|]).
  apply elem_of_nil in H. contradiction.
Qed.

Lemma radpat_plain_branch (self : Aki_Richards.t) (wave : string)
    (obs_cart : option field) (obs_sph : option (list spherical)) :
  wave ∈ Aki_Richards.waves_P ++ Aki_Richards.waves_S ->
  Aki_Richards.radpat empty self wave obs_cart obs_sph
  = Aki_Richards.radpat_plain empty self wave obs_cart obs_sph.
Proof.
  intros H. destruct (plain_waves wave H) as (Hv & Hm & Hh & _).
  unfold Aki_Richards.radpat. repeat case_decide; try contradiction.
  reflexivity.
Qed.

Lemma imap_const_map {A B : Type} (f : A -> B) (l : list A) :
  imap (fun _ x => f x) l = map f l.
Proof.
  induction l as [|x l IH]; [reflexivity|]. cbn. f_equal. exact IH.
Qed.

(** X13. The [P] pattern is radial.  For a finite tensor and finite
    observation points off the origin, [radpat] with a [P] wave name
    returns the points as given and, at each point, the direction of the
    point (the point taken to unit distance) scaled by the amplitude
    [gamma . M gamma]. *)
Theorem radpat_P_radial (self : Aki_Richards.t) (wave : string)
    (M : (R * R * R) * (R * R * R) * (R * R * R)) (obs : list (R * R * R))
    (obs_sph : option (list spherical)) :
  mt_full (Aki_Richards.mt self) = Ok (rows M) ->
  wave ∈ Aki_Richards.waves_P ->
  Forall (fun p => p <> (0, 0, 0)) obs ->
  Aki_Richards.radpat empty self wave (Some (map triple obs)) obs_sph
  = Ok (map (fun p => triple (Rscale (Rradial M p) (Runit p))) obs,
        map triple obs).
Proof.
  intros HM Hw Hobs.
  assert (Hw' : wave ∈ Aki_Richards.waves_P ++ Aki_Richards.waves_S)
    by (apply elem_of_app; left; exact Hw).
  rewrite radpat_plain_branch by exact Hw'.
  destruct (plain_waves wave Hw') as (_ & _ & _ & HS). specialize (HS Hw).
  unfold Aki_Richards.radpat_plain. rewrite HM.
  destruct M as [[[[m00 m01] m02] [[m10 m11] m12]] [[m20 m21] m22]].
  cbn [rows mbind result_bind].
  repeat case_decide; try contradiction.
  rewrite imap_const_map, !map_map. do 2 f_equal.
  apply map_ext_in. intros p Hp.
  rewrite List.Forall_forall in Hobs. specialize (Hobs p Hp).
  rewrite gamma_of_Fin by exact Hobs.
  apply (disp_P_Fin ((m00, m01, m02), (m10, m11, m12), (m20, m21, m22))).
Qed.

(** X14. The [S] pattern is transverse.  For a finite tensor and finite
    observation points off the origin, [radpat] with an [S] wave name
    returns, at each point, a displacement orthogonal to the point: the
    [P] displacement less the product of the tensor with the direction of
    the point. *)
Theorem radpat_S_transverse (self : Aki_Richards.t) (wave : string)
    (M : (R * R * R) * (R * R * R) * (R * R * R)) (obs : list (R * R * R))
    (obs_sph : option (list spherical)) :
  mt_full (Aki_Richards.mt self) = Ok (rows M) ->
  wave ∈ Aki_Richards.waves_S ->
  Forall (fun p => p <> (0, 0, 0)) obs ->
  exists disp : list (R * R * R),
    Aki_Richards.radpat empty self wave (Some (map triple obs)) obs_sph
    = Ok (map triple disp, map triple obs)
    /\ Forall2 (fun p d =>
                  d = Rminus3 (Rscale (Rradial M p) (Runit p))
                              (Rmat_vec M (Runit p))
                  /\ Rdot p d = 0) obs disp.
Proof.
  intros HM Hw Hobs.
  assert (Hw' : wave ∈ Aki_Richards.waves_P ++ Aki_Richards.waves_S)
    by (apply elem_of_app; right; exact Hw).
  rewrite radpat_plain_branch by exact Hw'.
  unfold Aki_Richards.radpat_plain. rewrite HM.
  destruct M as [[[[m00 m01] m02] [[m10 m11] m12]] [[m20 m21] m22]].
  cbn [rows mbind result_bind].
  repeat case_decide; try contradiction.
  rewrite imap_const_map, !map_map.
  set (M := ((m00, m01, m02), (m10, m11, m12), (m20, m21, m22))) in *.
  induction obs as [|p obs IH].
  - exists []. split; [reflexivity | constructor].
  - apply Forall_cons in Hobs as [Hp Hobs].
    destruct (IH Hobs) as (disp & E & HF).
    destruct (disp_S_Fin M (Runit p) (Runit_unit p Hp)) as (d & Ed & Hd & H0).
    exists (d :: disp). split.
    + cbn [map]. injection E as E. rewrite E.
      rewrite gamma_of_Fin by exact Hp.
      change ((Fin m00, Fin m01, Fin m02), (Fin m10, Fin m11, Fin m12),
              (Fin m20, Fin m21, Fin m22)) with (triples M).
      rewrite Ed. reflexivity.
    + constructor; [| exact HF]. split; [exact Hd|].
      pose proof (Rnorm_nonzero p Hp) as Hn.
      destruct p as [[x y] z], d as [[d0 d1] d2].
      unfold Runit, Rdot in H0 |- *.
      set (n := Rnorm (x, y, z)) in *.
      transitivity (n * (x / n * d0 + y / n * d1 + z / n * d2));
        [field; exact Hn | rewrite H0; ring].
Qed.

End AkiRichardsMore.

Section AkiRichardsExamples.

Import Geometry.
Local Open Scope R_scope.

Lemma radpat_P_radial_witness :
  mt_full (Arr1 [Fin 1; Fin 2; Fin 3; Fin 4; Fin 5; Fin 6])
  = Ok (rows ((1, 4, 5), (4, 2, 6), (5, 6, 3)))
  /\ "P"%string ∈ Aki_Richards.waves_P
  /\ Forall (fun p : R * R * R => p <> (0, 0, 0)) [(1, 2, 2)]
  /\ Aki_Richards.radpat (fun _ => (Fin 0, Fin 0, Fin 0))
       {| Aki_Richards.mt := Arr1 [Fin 1; Fin 2; Fin 3; Fin 4; Fin 5; Fin 6] |}
       "P" (Some (map triple [(1, 2, 2)])) None
     = Ok (map (fun p => triple
                           (Rscale (Rradial ((1, 4, 5), (4, 2, 6), (5, 6, 3)) p)
                                   (Runit p))) [(1, 2, 2)],
           map triple [(1, 2, 2)]).
Proof.
  assert (H1 : mt_full (Arr1 [Fin 1; Fin 2; Fin 3; Fin 4; Fin 5; Fin 6])
               = Ok (rows ((1, 4, 5), (4, 2, 6), (5, 6, 3)))) by reflexivity.
  assert (H2 : "P"%string ∈ Aki_Richards.waves_P)
    by (unfold Aki_Richards.waves_P; is_member).
  assert (H3 : Forall (fun p : R * R * R => p <> (0, 0, 0)) [(1, 2, 2)])
    by (repeat constructor; intros E; inversion E; lra).
  split; [exact H1 | split; [exact H2 | split; [exact H3 |]]].
  exact (radpat_P_radial (fun _ => (Fin 0, Fin 0, Fin 0))
           {| Aki_Richards.mt := Arr1 [Fin 1; Fin 2; Fin 3; Fin 4; Fin 5; Fin 6] |}
           "P" ((1, 4, 5), (4, 2, 6), (5, 6, 3)) [(1, 2, 2)] None H1 H2 H3).
Defined.

Lemma radpat_S_transverse_witness :
  mt_full (Arr1 [Fin 1; Fin 2; Fin 3; Fin 4; Fin 5; Fin 6])
  = Ok (rows ((1, 4, 5), (4, 2, 6), (5, 6, 3)))
  /\ "S"%string ∈ Aki_Richards.waves_S
  /\ Forall (fun p : R * R * R => p <> (0, 0, 0)) [(1, 2, 2)]
  /\ exists disp : list (R * R * R),
       Aki_Richards.radpat (fun _ => (Fin 0, Fin 0, Fin 0))
         {| Aki_Richards.mt := Arr1 [Fin 1; Fin 2; Fin 3; Fin 4; Fin 5; Fin 6] |}
         "S" (Some (map triple [(1, 2, 2)])) None
       = Ok (map triple disp, map triple [(1, 2, 2)])
       /\ Forall2 (fun p d =>
                     d = Rminus3
                           (Rscale (Rradial ((1, 4, 5), (4, 2, 6), (5, 6, 3)) p)
                                   (Runit p))
                           (Rmat_vec ((1, 4, 5), (4, 2, 6), (5, 6, 3)) (Runit p))
                     /\ Rdot p d = 0) [(1, 2, 2)] disp.
Proof.
  assert (H1 : mt_full (Arr1 [Fin 1; Fin 2; Fin 3; Fin 4; Fin 5; Fin 6])
               = Ok (rows ((1, 4, 5), (4, 2, 6), (5, 6, 3)))) by reflexivity.
  assert (H2 : "S"%string ∈ Aki_Richards.waves_S)
    by (unfold Aki_Richards.waves_S; is_member).
  assert (H3 : Forall (fun p : R * R * R => p <> (0, 0, 0)) [(1, 2, 2)])
    by (repeat constructor; intros E; inversion E; lra).
  split; [exact H1 | split; [exact H2 | split; [exact H3 |]]].
  exact (radpat_S_transverse (fun _ => (Fin 0, Fin 0, Fin 0))
           {| Aki_Richards.mt := Arr1 [Fin 1; Fin 2; Fin 3; Fin 4; Fin 5; Fin 6] |}
           "S" ((1, 4, 5), (4, 2, 6), (5, 6, 3)) [(1, 2, 2)] None H1 H2 H3).
Defined.

End AkiRichardsExamples.

(** ** Ratios of radiation patterns *)

Section RatioWaves.

Import Geometry.

Variable MomentTensor : list npfloat -> mopad.

(** The wave names [Vavryeuk.radpat] documents as amplitude ratios. *)
Definition ratio_waves : list string :=
  ["S/P"; "s/p"; "P/S"; "p/s"; "SH/P"; "sh/p"; "SV/P"; "sv/p";
   "SH/S"; "sh/s"; "SV/S"; "sv/s"]%string.

Lemma plain_wave_returns
    (f : string -> option field -> option (list spherical)
         -> Vavryeuk.outcome)
    (self : Vavryeuk.t) (wave : string) (obs_cart : option field)
    (obs_sph : option (list spherical))
    (x : angles * percentages) :
  mt_angles MomentTensor (Vavryeuk.mt self) = Ok x ->
  wave ∈ ["P"; "SH"; "SV"; "S"]%string ->
  exists r, Vavryeuk.radpat_body MomentTensor f self wave obs_cart obs_sph
            = ([], Ok r).
Proof.
  intros Hx Hw. unfold Vavryeuk.radpat_body. rewrite Hx.
  destruct x as [[[strike dip] rake] [[[DC CLVD] iso] devi]].
  repeat (apply elem_of_cons in Hw as [Hw|Hw];
          [subst wave; eexists; take_branch; reflexivity|]).
  apply elem_of_nil in Hw. contradiction.
Qed.

(** X15. No ratio of patterns is returned.  With one of the documented
    ratio names ([S/P], [P/S], [SH/P], [SV/P], [SH/S], [SV/S] or their
    lower-case forms), [Vavryeuk.radpat] computes both patterns and then
    ends in the [TypeError] of a tuple divided by a tuple; when
    [mt_angles] rejects the mechanism it ends in the error of [mt_angles].
    Nothing is printed. *)
Theorem radpat_ratio_waves (self : Vavryeuk.t) (wave : string)
    (obs_cart : option field)
    (obs_sph : option (list spherical)) :
  wave ∈ ratio_waves ->
  Vavryeuk.radpat MomentTensor self wave obs_cart obs_sph
  = ([], match mt_angles MomentTensor (Vavryeuk.mt self) with
         | Ok _ => Raise TypeError
         | Raise e => Raise e
         end).
Proof.
  intros Hw. unfold Vavryeuk.radpat.
  destruct (mt_angles MomentTensor (Vavryeuk.mt self)) as [x|e] eqn:Hx;
    [| unfold Vavryeuk.radpat_body; rewrite Hx; reflexivity].
  assert (Hp : forall w oc os,
            w ∈ ["P"; "SH"; "SV"; "S"]%string ->
            exists r,
              Vavryeuk.radpat_body MomentTensor
                (fun _ _ _ => ([], Raise TypeError)) self w oc os
              = ([], Ok r)).
  { intros w oc os Hin. apply (plain_wave_returns _ self w oc os x Hx Hin). }
  assert (Hd : forall w1 oc1 os1 w2 oc2 os2,
            w1 ∈ ["P"; "SH"; "SV"; "S"]%string ->
            w2 ∈ ["P"; "SH"; "SV"; "S"]%string ->
            Vavryeuk.divide_tuples
              (Vavryeuk.radpat_body MomentTensor
                 (fun _ _ _ => ([], Raise TypeError)) self w1 oc1 os1)
              (Vavryeuk.radpat_body MomentTensor
                 (fun _ _ _ => ([], Raise TypeError)) self w2 oc2 os2)
            = ([], Raise TypeError)).
  { intros w1 oc1 os1 w2 oc2 os2 H1 H2.
    destruct (Hp w1 oc1 os1 H1) as (r1 & ->).
    destruct (Hp w2 oc2 os2 H2) as (r2 & ->). reflexivity. }
  set (inner := Vavryeuk.radpat_body MomentTensor
                  (fun _ _ _ => ([], Raise TypeError)) self) in *.
  unfold Vavryeuk.radpat_body at 1. rewrite Hx.
  destruct x as [[[strike dip] rake] [[[DC CLVD] iso] devi]].
  unfold ratio_waves in Hw.
  repeat (apply elem_of_cons in Hw as [Hw|Hw];
          [subst wave;
           take_branch; apply Hd; is_member|]).
  apply elem_of_nil in Hw. contradiction.
Qed.

End RatioWaves.

Lemma radpat_ratio_waves_witness :
  "S/P"%string ∈ ratio_waves
  /\ Vavryeuk.radpat double_couple_only
       {| Vavryeuk.mt := Arr1 [Fin 10; Fin 5; Fin 82];
          Vavryeuk.poisson := Fin 0.25 |} "S/P" None None
     = ([], match mt_angles double_couple_only (Arr1 [Fin 10; Fin 5; Fin 82]) with
            | Ok _ => Raise TypeError
            | Raise e => Raise e
            end).
Proof.
  assert (H : "S/P"%string ∈ ratio_waves) by (unfold ratio_waves; is_member).
  split; [exact H|].
  exact (radpat_ratio_waves double_couple_only
           {| Vavryeuk.mt := Arr1 [Fin 10; Fin 5; Fin 82];
              Vavryeuk.poisson := Fin 0.25 |} "S/P" None None H).
Defined.

(** ** Energy of a pattern *)

Section EnergyMore.

Import Geometry.
Local Open Scope R_scope.

Lemma foldl_maximum_same (a : R) (n : nat) :
  foldl np.maximum (Fin a) (replicate n (Fin a)) = Fin a.
Proof.
  induction n as [|n IH]; [reflexivity|]. cbn [replicate foldl].
  replace (np.maximum (Fin a) (Fin a)) with (Fin a); [exact IH|].
  unfold np.maximum, np.lt. cbn [np.isnan].
  rewrite bool_decide_eq_false_2 by lra. reflexivity.
Qed.

Lemma sum_zeros (n : nat) : np.sum (replicate n (Fin 0)) = Fin 0.
Proof.
  unfold np.sum.
  induction n as [|n IH]; [reflexivity|]. cbn [replicate foldl np.add].
  replace (0 + 0) with 0 by lra. exact IH.
Qed.

Lemma map_replicate {A B : Type} (f : A -> B) (n : nat) (x : A) :
  map f (replicate n x) = replicate n (f x).
Proof. induction n as [|n IH]; [reflexivity|]. cbn. rewrite IH. reflexivity. Qed.

Lemma zip_with_replicate {A B C : Type} (f : A -> B -> C) (n : nat)
    (x : A) (y : B) :
  zip_with f (replicate n x) (replicate n y) = replicate n (f x y).
Proof. induction n as [|n IH]; [reflexivity|]. cbn. rewrite IH. reflexivity. Qed.

Lemma map_uniform {A B : Type} (f : A -> B) (l : list A) (y : B) :
  Forall (fun x => f x = y) l -> map f l = replicate (length l) y.
Proof.
  induction 1 as [|x l Hx _ IH]; [reflexivity|]. cbn. rewrite Hx, IH.
  reflexivity.
Qed.

Lemma norm_nonneg (g : vec3) (a : R) : norm g = Fin a -> 0 <= a.
Proof.
  destruct g as [[x y] z]. unfold norm.
  destruct (x² + y² + z²)%npf as [b| | |]; cbn [np.sqrt]; try discriminate.
  case_decide; [| discriminate]. intros [= <-]. apply sqrt_pos.
Qed.

(** X16. A pattern without contrast has no energy statistics.  When the
    displacements of a pattern with at least one point all have the same
    finite length, every weight is zero and
    [energy_seismicsourcemodel] returns NaN as rms, 0 as Euclidean norm
    and NaN as average; a pattern of one point is such a pattern. *)
Theorem energy_uniform (G XYZ : field) (a : R) :
  G <> [] ->
  Forall (fun g => norm g = Fin a) G ->
  energy_seismicsourcemodel G XYZ = Ok (NaN, Fin 0, NaN).
Proof.
  intros Hne Hall. unfold energy_seismicsourcemodel.
  assert (Ha : 0 <= a).
  { destruct G as [|g G]; [contradiction|].
    apply Forall_cons in Hall as [Hg _]. exact (norm_nonneg g a Hg). }
  rewrite (map_uniform norm G (Fin a) Hall).
  destruct (length G) as [|n] eqn:Hlen.
  { destruct G; [contradiction | discriminate]. }
  rewrite !map_replicate. cbn [np.abs]. rewrite Rabs_right by lra.
  cbn [replicate np.max mbind result_bind]. rewrite foldl_maximum_same.
  change (Fin a :: replicate n (Fin a)) with (replicate (S n) (Fin a)).
  rewrite !map_replicate, !zip_with_replicate, !map_replicate.
  cbn [np.square np.sub np.neg np.add np.mul np.abs].
  replace ((a + - a) * (a + - a)) with 0 by ring.
  replace (0 * a * (0 * a)) with 0 by ring.
  replace (Rabs (a * 0)) with 0 by (rewrite Rmult_0_r, Rabs_R0; reflexivity).
  unfold np.nansum. rewrite map_replicate. cbn [np.nan_to_zero np.isnan].
  rewrite sum_zeros.
  unfold np.div, np.signed_inf.
  rewrite decide_True by reflexivity. rewrite !decide_False by lra.
  cbn [np.sqrt]. rewrite decide_True by lra. rewrite sqrt_0. reflexivity.
Qed.

Lemma energy_uniform_witness :
  [(Fin 3, Fin 4, Fin 0); (Fin 0, Fin 0, Fin 5)] <> []
  /\ Forall (fun g => norm g = Fin 5)
            [(Fin 3, Fin 4, Fin 0); (Fin 0, Fin 0, Fin 5)]
  /\ energy_seismicsourcemodel
       [(Fin 3, Fin 4, Fin 0); (Fin 0, Fin 0, Fin 5)] [] = Ok (NaN, Fin 0, NaN).
Proof.
  assert (H1 : [(Fin 3, Fin 4, Fin 0); (Fin 0, Fin 0, Fin 5)] <> [])
    by discriminate.
  assert (H2 : Forall (fun g => norm g = Fin 5)
                 [(Fin 3, Fin 4, Fin 0); (Fin 0, Fin 0, Fin 5)]).
  { repeat constructor; unfold norm; cbn [np.square np.mul np.add];
      (rewrite sqrt_Fin by lra); f_equal; apply sqrt_lem_1; lra. }
  split; [exact H1 | split; [exact H2 |]].
  exact (energy_uniform _ [] 5 H1 H2).
Defined.

End EnergyMore.

(** ** Distance between two mechanisms *)

Section MechanismDistanceMore.

Import Geometry.
Local Open Scope R_scope.

(** The [while] loop of [mt_diff] on a distance of at most [pi]: one
    subtraction at most. *)
Definition Rfold (t : R) : R := if decide (PI / 2 < t) then t - PI / 2 else t.

Lemma fold_quarter_Fin (fuel : nat) (t : R) :
  0 <= t <= PI -> (2 <= fuel)%nat ->
  fold_quarter fuel (Fin t) = Some (Fin (Rfold t)) /\ 0 <= Rfold t <= PI / 2.
Proof.
  intros Ht Hf. pose proof PI_RGT_0 as Hpi. unfold Rfold.
  destruct fuel as [|[|fuel]]; [lia | lia |].
  cbn [fold_quarter]. rewrite !div_Fin by lra. unfold np.gt, np.lt.
  destruct (decide (PI / 2 < t)) as [H|H].
  - rewrite bool_decide_eq_true_2 by exact H. cbn [np.sub np.neg np.add].
    rewrite bool_decide_eq_false_2 by lra.
    split; [repeat f_equal; lra | lra].
  - rewrite bool_decide_eq_false_2 by exact H. split; [reflexivity | lra].
Qed.

Lemma haversine_formula_same (lon lat radius : R) :
  haversine_formula (Fin lon) (Fin lat) (Fin lon) (Fin lat) (Fin radius)
  = Fin 0.
Proof.
  rewrite haversine_formula_hav. unfold hav.
  replace ((lat - lat) / 2) with 0 by lra.
  replace ((lon - lon) / 2) with 0 by lra. rewrite sin_0.
  replace (0 * 0 + cos lat * cos lat * (0 * 0)) with 0 by ring.
  rewrite sqrt_Fin by lra. rewrite sqrt_0.
  rewrite arcsin_Fin by lra. rewrite asin_0. cbn [np.mul].
  f_equal. ring.
Qed.

(** One step of the inner loop, on planes in radians with dips in
    [0, pi]: the bound [D] is lowered to the folded distance, which is
    at most [pi/2]; it is zero between a plane and itself. *)
Lemma mt_diff_step_Fin (p q : R * R * R) (D : R) :
  0 <= p.1.2 <= PI -> 0 <= q.1.2 <= PI -> 0 <= D ->
  exists d : R,
    (forall fuel, (2 <= fuel)%nat ->
       mt_diff_step fuel (triple p) (triple q) (Fin D) = Some (Ok (Fin d)))
    /\ 0 <= d <= D /\ (PI / 2 <= D -> d <= PI / 2)
    /\ (p.1 = q.1 -> d = 0).
Proof.
  destruct p as [[s1 d1] r1], q as [[s2 d2] r2]. cbn [fst snd].
  intros H1 H2 HD. pose proof PI_RGT_0 as Hpi.
  destruct (haversine_formula_range s1 (PI / 2 - d1) s2 (PI / 2 - d2) 1)
    as (t & Et & Ht); [lra ..|].
  rewrite Rmult_1_r in Ht.
  exists (if decide (Rfold t < D) then Rfold t else D).
  assert (Hfold : 0 <= Rfold t <= PI / 2).
  { apply (fold_quarter_Fin 2 t Ht). lia. }
  split; [| split; [| split]].
  - intros fuel Hf. unfold mt_diff_step, triple. cbn [fst snd].
    rewrite div_Fin by lra.
    change (haversine (Fin s1) 0%npf (Fin s2) (Fin (PI / 2)) 1%npf
                      (Some (Fin d1)) (Some (Fin d2)))
      with (haversine (Fin s1) (Fin 0) (Fin s2) (Fin (PI / 2)) (Fin 1)
                      (Some (Fin d1)) (Some (Fin d2))).
    rewrite haversine_polar, Et.
    destruct (fold_quarter_Fin fuel t Ht Hf) as [-> _].
    cbn [mbind option_bind]. unfold np.lt.
    destruct (decide (Rfold t < D)) as [H|H].
    + rewrite bool_decide_eq_true_2 by exact H. reflexivity.
    + rewrite bool_decide_eq_false_2 by exact H. reflexivity.
  - destruct (decide (Rfold t < D)); lra.
  - intros HD2. destruct (decide (Rfold t < D)); lra.
  - intros E. injection E as -> ->.
    rewrite haversine_formula_same in Et. injection Et as Et. subst t.
    unfold Rfold. rewrite (decide_False (P := PI / 2 < 0)) by lra.
    destruct (decide (0 < D)); lra.
Qed.

(** The two steps for one plane of the first mechanism. *)
Lemma mt_diff_row_Fin (p q0 q1 : R * R * R) :
  0 <= p.1.2 <= PI -> 0 <= q0.1.2 <= PI -> 0 <= q1.1.2 <= PI ->
  exists d : R,
    (forall fuel, (2 <= fuel)%nat ->
       mt_diff_row fuel (triple p) (triple q0) (triple q1) = Some (Ok (Fin d)))
    /\ 0 <= d <= PI / 2
    /\ (p.1 = q0.1 \/ p.1 = q1.1 -> d = 0).
Proof.
  intros Hp H0 H1. pose proof PI2_3_2 as Hpi. pose proof PI_RGT_0.
  destruct (mt_diff_step_Fin p q0 999999999 Hp H0) as (d0 & E0 & B0 & Q0 & Z0);
    [lra|].
  destruct (mt_diff_step_Fin p q1 d0 Hp H1) as (d & E & B & Q & Z); [lra|].
  exists d. split; [| split].
  - intros fuel Hf. unfold mt_diff_row.
    rewrite (E0 fuel Hf). apply E. exact Hf.
  - assert (d0 <= PI / 2) by (apply Q0; pose proof PI_4; lra). lra.
  - intros [Hs|Hs]; [| apply Z; exact Hs].
    rewrite (Z0 Hs) in B. lra.
Qed.

(** The fault planes of a mechanism, in degrees: finite, with dips between
    0 and 180. *)
Definition planes (m : mopad) (p0 p1 : R * R * R) : Prop :=
  get_fps m = (triple p0, triple p1)
  /\ 0 <= p0.1.2 <= 180 /\ 0 <= p1.1.2 <= 180.

(** X17. The distance between two mechanisms whose fault planes are
    finite with dips between 0 and 180 degrees is a finite angle between
    0 and 90 degrees: each [while] loop of [mt_diff] ends after one
    subtraction at most.  The distance of a mechanism to itself is 0. *)
Theorem mt_diff_range (mt1 mt2 : mopad) (p0 p1 q0 q1 : R * R * R) :
  planes mt1 p0 p1 -> planes mt2 q0 q1 ->
  exists d : R,
    (forall fuel, (2 <= fuel)%nat -> mt_diff fuel mt1 mt2 = Some (Ok (Fin d)))
    /\ 0 <= d <= 90
    /\ (mt1 = mt2 -> d = 0).
Proof.
  intros (E1 & Hp0 & Hp1) (E2 & Hq0 & Hq1). pose proof PI_RGT_0 as Hpi.
  set (rad := fun p : R * R * R =>
                (p.1.1 * (PI / 180), p.1.2 * (PI / 180), p.2 * (PI / 180))).
  assert (Hrad : forall p : R * R * R,
            0 <= p.1.2 <= 180 -> 0 <= (rad p).1.2 <= PI).
  { intros p Hp. unfold rad. cbn [fst snd]. split; [nra|].
    replace PI with (180 * (PI / 180)) at 2 by (field; lra). nra. }
  destruct (mt_diff_row_Fin (rad p0) (rad q0) (rad q1))
    as (d0 & F0 & B0 & Z0); [apply Hrad; assumption ..|].
  destruct (mt_diff_row_Fin (rad p1) (rad q0) (rad q1))
    as (d1 & F1 & B1 & Z1); [apply Hrad; assumption ..|].
  exists ((0 + d0 + d1) / 2 * (180 / PI)).
  split; [| split].
  - intros fuel Hf. unfold mt_diff. rewrite E1, E2.
    destruct p0 as [[s0 dp0] r0], p1 as [[s1 dp1] r1].
    destruct q0 as [[t0 dq0] u0], q1 as [[t1 dq1] u1].
    unfold triple, np.deg2rad. cbn [fst snd np.mul].
    specialize (F0 fuel Hf). specialize (F1 fuel Hf).
    unfold rad, triple in F0, F1. cbn [fst snd] in F0, F1.
    rewrite F0, F1. unfold np.mean, np.sum, np.len, np.rad2deg.
    cbn [foldl np.add length INR]. rewrite div_Fin by lra.
    cbn [np.mul]. reflexivity.
  - assert (H180 : 0 < 180 / PI) by (apply Rdiv_lt_0_compat; lra).
    split; [apply Rmult_le_pos; lra|].
    replace 90 with (PI / 2 * (180 / PI)) by (field; lra).
    apply Rmult_le_compat_r; lra.
  - intros ->. rewrite E1 in E2. injection E2 as E20 E21.
    assert (A0 : p0 = q0).
    { destruct p0 as [[? ?] ?], q0 as [[? ?] ?]. unfold triple in E20.
      congruence. }
    assert (A1 : p1 = q1).
    { destruct p1 as [[? ?] ?], q1 as [[? ?] ?]. unfold triple in E21.
      congruence. }
    subst q0 q1. rewrite Z0 by (left; reflexivity).
    rewrite Z1 by (right; reflexivity).
    unfold Rdiv. ring.
Qed.

Definition example_planes : mopad :=
  {| get_DC_percentage := Fin 100; get_CLVD_percentage := Fin 0;
     get_iso_percentage := Fin 0; get_devi_percentage := Fin 100;
     get_fps := ((Fin 10, Fin 45, Fin 90), (Fin 190, Fin 45, Fin 90)) |}.

Lemma mt_diff_range_witness :
  planes example_planes (10, 45, 90) (190, 45, 90)
  /\ exists d : R,
       (forall fuel, (2 <= fuel)%nat ->
          mt_diff fuel example_planes example_planes = Some (Ok (Fin d)))
       /\ 0 <= d <= 90
       /\ (example_planes = example_planes -> d = 0).
Proof.
  assert (H : planes example_planes (10, 45, 90) (190, 45, 90)).
  { unfold planes. cbn [fst snd]. split; [reflexivity | lra]. }
  split; [exact H|].
  exact (mt_diff_range example_planes example_planes _ _ _ _ H H).
Defined.

End MechanismDistanceMore.

(** ** The scanner: the probabilities and the best mechanism *)

Section Extremum.

(** Where no entry is NaN, [np.argmax] points at the value [np.nanmax]
    returns, and no entry exceeds it. *)

Lemma le_refl (x : npfloat) : np.isnan x = false -> np.le x x = true.
Proof.
  destruct x; intros H; try discriminate; unfold np.le, np.lt, np.eqb;
    try reflexivity.
  rewrite (bool_decide_eq_true_2 (r = r)) by reflexivity.
  apply orb_true_r.
Qed.

Lemma le_trans (x y z : npfloat) :
  np.le x y = true -> np.le y z = true -> np.le x z = true.
Proof.
  unfold np.le, np.lt, np.eqb.
  destruct x, y, z; cbn; try discriminate; try reflexivity;
    rewrite ?orb_true_iff, ?bool_decide_eq_true; try lra;
    intros [?|?]; try discriminate; intros [?|?]; try discriminate; lra.
Qed.

Lemma lt_le (x y : npfloat) : np.lt x y = true -> np.le x y = true.
Proof. intros H. unfold np.le. rewrite H. reflexivity. Qed.

Lemma not_lt_le (x y : npfloat) :
  np.isnan x = false -> np.isnan y = false ->
  np.lt x y = false -> np.le y x = true.
Proof.
  unfold np.le, np.lt, np.eqb.
  destruct x, y; cbn; try discriminate; try reflexivity.
  intros _ _. rewrite bool_decide_eq_false, orb_true_iff, !bool_decide_eq_true.
  lra.
Qed.

Lemma maximum_spec (v x : npfloat) :
  np.isnan v = false -> np.isnan x = false ->
  np.maximum v x = (if np.lt v x then x else v)
  /\ np.isnan (np.maximum v x) = false
  /\ np.le v (np.maximum v x) = true /\ np.le x (np.maximum v x) = true.
Proof.
  intros Hv Hx. unfold np.maximum. rewrite Hv, Hx.
  destruct (np.lt v x) eqn:E.
  - auto using lt_le, le_refl.
  - auto using not_lt_le, le_refl.
Qed.

Lemma foldl_maximum_spec (v : npfloat) (l : list npfloat) :
  np.isnan v = false -> Forall (fun x => np.isnan x = false) l ->
  np.isnan (foldl np.maximum v l) = false
  /\ Forall (fun x => np.le x (foldl np.maximum v l) = true) (v :: l).
Proof.
  intros Hv Hl. revert v Hv. induction Hl as [|x l Hx _ IH]; intros v Hv.
  - cbn. split; [exact Hv|]. repeat constructor. apply le_refl, Hv.
  - cbn [foldl].
    destruct (maximum_spec v x Hv Hx) as (_ & Hm & Hlv & Hlx).
    destruct (IH (np.maximum v x) Hm) as [Hn Hall].
    split; [exact Hn|].
    apply Forall_cons in Hall as [Htop Hall].
    constructor; [eapply le_trans; eassumption|].
    constructor; [eapply le_trans; eassumption | exact Hall].
Qed.

Lemma argmax_from_spec (l : list npfloat) (best i : nat) (vbest : npfloat) :
  np.isnan vbest = false -> Forall (fun x => np.isnan x = false) l ->
  (np.argmax_from best vbest i l = best /\ foldl np.maximum vbest l = vbest)
  \/ exists j, np.argmax_from best vbest i l = (i + j)%nat
               /\ l !! j = Some (foldl np.maximum vbest l).
Proof.
  intros Hv Hl. revert best i vbest Hv.
  induction Hl as [|x l Hx _ IH]; intros best i vbest Hv.
  - left. split; reflexivity.
  - cbn [np.argmax_from foldl]. rewrite Hv, Hx. cbn [orb].
    destruct (maximum_spec vbest x Hv Hx) as (-> & _).
    destruct (np.lt vbest x).
    + destruct (IH i (S i) x Hx) as [[E1 E2]|(j & E1 & E2)].
      * right. exists 0%nat. rewrite E1, E2, Nat.add_0_r. split; reflexivity.
      * right. exists (S j). rewrite E1. split; [lia | exact E2].
    + destruct (IH best (S i) vbest Hv) as [[E1 E2]|(j & E1 & E2)].
      * left. split; assumption.
      * right. exists (S j). rewrite E1. split; [lia | exact E2].
Qed.

Lemma argmax_nanmax (l : list npfloat) (k : nat) (top : npfloat) :
  Forall (fun x => np.isnan x = false) l ->
  np.argmax l = Ok k -> np.nanmax l = Ok top ->
  l !! k = Some top /\ Forall (fun x => np.le x top = true) l.
Proof.
  intros Hl Hk Ht. destruct l as [|x l]; [discriminate|].
  apply Forall_cons in Hl as [Hx Hl].
  unfold np.nanmax in Ht. cbn [filter] in Ht.
  assert (Hf : filter (fun y => np.not_nan y = true) (x :: l) = x :: l).
  { assert (H : Forall (fun y => np.not_nan y = true) (x :: l)).
    { constructor; [unfold np.not_nan; rewrite Hx; reflexivity|].
      eapply Forall_impl; [exact Hl|]. intros y Hy. cbn beta.
      unfold np.not_nan. rewrite Hy. reflexivity. }
    clear -H. induction H as [|y l' Hy _ IH]; [reflexivity|].
    rewrite filter_cons_True by exact Hy. rewrite IH. reflexivity. }
  rewrite Hf in Ht. injection Ht as <-.
  unfold np.argmax in Hk. injection Hk as <-.
  destruct (foldl_maximum_spec x l Hx Hl) as [_ Hall].
  split; [| exact Hall].
  destruct (argmax_from_spec l 0 1 x Hx Hl) as [[E1 E2]|(j & E1 & E2)].
  - rewrite E1, E2. reflexivity.
  - rewrite E1. exact E2.
Qed.

End Extremum.

Section ScanResults.

Import Geometry SourceScan.
Local Open Scope npfloat_scope.

Variable Aki_Richards_radpat :
  list npfloat -> string -> list vec3 -> result field.

(** The arrays, the data binding and the best likelihood of [s'] are those
    of [s]. *)
Definition keeps_results (s s' : SourceScan.t) : Prop :=
  source_mechanisms s' = source_mechanisms s
  /\ bound s' = bound s
  /\ best_likelyhood s' = best_likelyhood s.

#[local] Instance keeps_results_preorder : PreOrder keeps_results.
Proof.
  split; [intros s; repeat split |].
  intros s1 s2 s3 (A1 & B1 & C1) (A2 & B2 & C2). repeat split; congruence.
Qed.

Lemma corrected_data_keeps_results mt dat :
  preserves keeps_results (corrected_data Aki_Richards_radpat mt dat).
Proof.
  unfold corrected_data.
  pose proof (preserves_sm_vector keeps_results).
  pose proof (preserves_sm_item keeps_results).
  preserves_auto idtac.
Qed.

Lemma scan_centroid_keeps_results dat centroid_factor :
  preserves keeps_results
    (scan_centroid Aki_Richards_radpat dat centroid_factor).
Proof.
  unfold scan_centroid.
  pose proof (preserves_sm_vector keeps_results).
  pose proof (preserves_sm_matrix keeps_results).
  pose proof corrected_data_keeps_results.
  preserves_auto ltac:(repeat split).
Qed.

(** What the arrays hold once the probabilities are computed: the
    likelihood of the data is the score over the power of the synthetic
    stack, the posterior is the likelihood times the prior over the stored
    [P(d)]. *)
Definition posterior (s : SourceScan.t) : Prop :=
  exists rms PMt Pd prod,
    source_mechanisms s !! "rms" = Some (Arr1 rms)
    /\ source_mechanisms s !! "P(Mt)" = Some (Arr1 PMt)
    /\ source_mechanisms s !! "P(d)" = Some (Arr0 Pd)
    /\ source_mechanisms s !! "P(d|Mt)"
       = Some (Arr1 (map (fun r => r / power_synth_stack (bound s)) rms))
    /\ broadcast np.mul
         (map (fun r => r / power_synth_stack (bound s)) rms) PMt = Ok prod
    /\ source_mechanisms s !! "P(Mt|d)"
       = Some (Arr1 (map (fun x => x / Pd) prod)).

Lemma scan_probabilities_posterior s :
  wp scan_probabilities (fun _ s' => posterior s') s.
Proof.
  unfold scan_probabilities. wp_steps.
  unfold posterior. state_simpl.
  repeat first [ rewrite lookup_insert_eq
               | rewrite lookup_insert_ne by discriminate ].
  eauto 10.
Qed.

(** The arrays and the data binding of [s'] are those of [s]. *)
Definition keeps_probabilities (s s' : SourceScan.t) : Prop :=
  source_mechanisms s' = source_mechanisms s /\ bound s' = bound s.

#[local] Instance keeps_probabilities_preorder : PreOrder keeps_probabilities.
Proof.
  split; [intros s; split; reflexivity |].
  intros s1 s2 s3 (A1 & B1) (A2 & B2). split; congruence.
Qed.

Lemma scan_centroid_keeps_probabilities dat centroid_factor :
  preserves keeps_probabilities
    (scan_centroid Aki_Richards_radpat dat centroid_factor).
Proof.
  intros s. destruct (scan_centroid_keeps_results dat centroid_factor s)
    as (A & B & _). split; assumption.
Qed.

Lemma scan_posterior_holds (dat : Wavelets) (centroid_factor : npfloat)
    (s s' : SourceScan.t) :
  scan Aki_Richards_radpat dat centroid_factor s = (s', Ok tt) ->
  posterior s'.
Proof.
  intros Hrun. wp_of Hrun. unfold scan.
  do 6 (apply wp_bind, wp_any; intros).
  apply wp_bind. eapply wp_mono; [apply scan_probabilities_posterior|].
  intros [] s1 Hp. cbn beta.
  eapply wp_mono.
  - apply (wp_preserves keeps_probabilities).
    pose proof (preserves_sm_vector keeps_probabilities).
    pose proof (preserves_sm_matrix keeps_probabilities).
    pose proof scan_centroid_keeps_probabilities.
    preserves_auto ltac:(split; reflexivity).
  - intros [] s2 (Hs & Hb). cbn beta in Hs, Hb.
    unfold posterior. rewrite Hs, Hb. exact Hp.
Qed.

(** X18. After a call of [scan] that returns, the stored likelihood
    ['P(d|Mt)'] is the score ['rms'] over the power of the synthetic stack,
    and the stored posterior ['P(Mt|d)'] is the likelihood times the prior
    ['P(Mt)'] over the stored ['P(d)']: entry by entry where the prior has
    one entry per mechanism. *)
Theorem scan_posterior (dat : Wavelets) (centroid_factor : npfloat)
    (s s' : SourceScan.t) :
  scan Aki_Richards_radpat dat centroid_factor s = (s', Ok tt) ->
  exists rms PMt Pd PdMt PMtd,
    source_mechanisms s' !! "rms" = Some (Arr1 rms)
    /\ source_mechanisms s' !! "P(Mt)" = Some (Arr1 PMt)
    /\ source_mechanisms s' !! "P(d)" = Some (Arr0 Pd)
    /\ source_mechanisms s' !! "P(d|Mt)" = Some (Arr1 PdMt)
    /\ source_mechanisms s' !! "P(Mt|d)" = Some (Arr1 PMtd)
    /\ PdMt = map (fun r => r / power_synth_stack (bound s')) rms
    /\ (length rms = length PMt ->
        length PMtd = length rms
        /\ forall i r p, rms !! i = Some r -> PMt !! i = Some p ->
             PMtd !! i
             = Some (r / power_synth_stack (bound s') * p / Pd)).
Proof.
  intros Hrun.
  destruct (scan_posterior_holds dat centroid_factor s s' Hrun)
    as (rms & PMt & Pd & prod & Hrms & HPMt & HPd & HPdMt & Hprod & HPMtd).
  exists rms, PMt, Pd, (map (fun r => r / power_synth_stack (bound s')) rms),
    (map (fun x => x / Pd) prod).
  repeat (split; [assumption || reflexivity|]).
  intros Hlen. unfold broadcast in Hprod.
  rewrite decide_True in Hprod by (rewrite length_map; exact Hlen).
  injection Hprod as <-. split.
  - rewrite length_map, length_zip_with, length_map. lia.
  - intros i r p Hr Hp.
    rewrite list_lookup_fmap, lookup_zip_with, list_lookup_fmap, Hr, Hp.
    reflexivity.
Qed.

(** X19. After a call of [scan] that returns with a posterior free of
    NaN, [best_likelyhood] holds a mechanism of the grid together with its
    posterior probability, which no entry of ['P(Mt|d)'] exceeds; the
    [scanned] flag is 1. *)
Theorem scan_best_likelyhood (dat : Wavelets) (centroid_factor : npfloat)
    (s s' : SourceScan.t) (PMtd : list npfloat) :
  scan Aki_Richards_radpat dat centroid_factor s = (s', Ok tt) ->
  source_mechanisms s' !! "P(Mt|d)" = Some (Arr1 PMtd) ->
  Forall (fun x => np.isnan x = false) PMtd ->
  exists Mt k best top,
    source_mechanisms s' !! "Mt" = Some (Arr2 Mt)
    /\ Mt !! k = Some best
    /\ PMtd !! k = Some top
    /\ Forall (fun x => (x <=? top) = true) PMtd
    /\ best_likelyhood s' = Some (best, top)
    /\ scanned s' = 1%nat.
Proof.
  intros Hrun.
  cut (wp (scan Aki_Richards_radpat dat centroid_factor)
         (fun _ t =>
            forall PMtd,
              source_mechanisms t !! "P(Mt|d)" = Some (Arr1 PMtd) ->
              Forall (fun x => np.isnan x = false) PMtd ->
              exists Mt k best top,
                source_mechanisms t !! "Mt" = Some (Arr2 Mt)
                /\ Mt !! k = Some best
                /\ PMtd !! k = Some top
                /\ Forall (fun x => (x <=? top) = true) PMtd
                /\ best_likelyhood t = Some (best, top)
                /\ scanned t = 1%nat) s).
  { intros Hwp. exact (wp_run _ _ _ _ _ Hwp Hrun PMtd). }
  clear Hrun PMtd. unfold scan.
  do 7 (apply wp_bind, wp_any; intros).
  apply wp_bind, wp_sm_vector. intros PMtd0 HP.
  apply wp_bind, wp_sm_matrix. intros Mt HMt.
  apply wp_bind, wp_lift. intros k Hk.
  apply wp_bind, wp_lift. intros best Hbest.
  apply wp_bind, wp_lift. intros top Htop.
  apply wp_bind, wp_modify.
  apply wp_bind. eapply wp_mono.
  - apply (wp_preserves keeps_results), scan_centroid_keeps_results.
  - intros [] s2 (Hs & _ & Hb). cbn beta in Hs, Hb.
    state_simpl_in Hs. state_simpl_in Hb.
    apply wp_modify. state_simpl. rewrite Hs, Hb.
    intros PMtd HP' Hnan.
    assert (PMtd = PMtd0) as -> by congruence.
    destruct (argmax_nanmax PMtd0 k top Hnan Hk Htop) as [Hat Hall].
    exists Mt, k, best, top.
    assert (Hrow : Mt !! k = Some best).
    { unfold item in Hbest. destruct (Mt !! k); [congruence | discriminate]. }
    auto 10.
Qed.

(** X20. Without a waveform nothing is scanned: on data whose [Stream] is
    empty, [_data_init] ends in the [UnboundLocalError] of its loop
    variable [i], and so does [scan]. *)
Theorem scan_empty_stream (dat : Wavelets) (centroid_factor : npfloat)
    (s : SourceScan.t) :
  Stream dat = [] ->
  (_data_init dat s).2 = Raise (UnboundLocalError "i")
  /\ (scan Aki_Richards_radpat dat centroid_factor s).2
     = Raise (UnboundLocalError "i").
Proof.
  intros HS.
  assert (H : (_data_init dat s).2 = Raise (UnboundLocalError "i")).
  { unfold _data_init. rewrite HS. reflexivity. }
  split; [exact H|].
  unfold scan. unfold mbind at 1. unfold M_bind.
  destruct (_data_init dat s) as [s1 [[]|e]]; cbn in H |- *;
    [discriminate | exact H].
Qed.

End ScanResults.

Section ScanResultsExample.

Import Geometry SourceScan.
Local Open Scope R_scope.
Local Open Scope npfloat_scope.

Lemma scan_posterior_witness :
  scan example_radpat example_data (Fin 1) example_source
  = (example_result, Ok tt)
  /\ exists rms PMt Pd PdMt PMtd,
       source_mechanisms example_result !! "rms" = Some (Arr1 rms)
       /\ source_mechanisms example_result !! "P(Mt)" = Some (Arr1 PMt)
       /\ source_mechanisms example_result !! "P(d)" = Some (Arr0 Pd)
       /\ source_mechanisms example_result !! "P(d|Mt)" = Some (Arr1 PdMt)
       /\ source_mechanisms example_result !! "P(Mt|d)" = Some (Arr1 PMtd)
       /\ PdMt = map (fun r => r / power_synth_stack (bound example_result)) rms
       /\ (length rms = length PMt ->
           length PMtd = length rms
           /\ forall i r p, rms !! i = Some r -> PMt !! i = Some p ->
                PMtd !! i
                = Some (r / power_synth_stack (bound example_result) * p / Pd)).
Proof.
  split; [exact example_scan_returns|].
  exact (scan_posterior example_radpat example_data (Fin 1) example_source
           example_result example_scan_returns).
Defined.

(** The posterior of the example. *)
Lemma example_posterior :
  source_mechanisms example_result !! "P(Mt|d)"
  = Some (Arr1 (replicate 3 (Fin (0.8 * (2 / 3) / (2 / 3))))).
Proof.
  destruct example_scan as (Hrun & Hrms & HPMt & HPdMt & HPd).
  destruct (scan_posterior_holds example_radpat example_data (Fin 1)
              example_source example_result Hrun)
    as (rms & PMt & Pd & prod & Hrms' & HPMt' & HPd' & HPdMt' & Hprod & HPMtd).
  rewrite HPMtd. rewrite HPdMt in HPdMt'. injection HPdMt' as E1.
  rewrite HPMt in HPMt'. injection HPMt' as E2.
  rewrite HPd in HPd'. injection HPd' as E3.
  rewrite <- E1, <- E2 in Hprod. subst Pd.
  cbn in Hprod. injection Hprod as <-.
  cbn [map replicate]. rewrite !div_Fin by lra. reflexivity.
Qed.

Lemma scan_best_likelyhood_witness :
  scan example_radpat example_data (Fin 1) example_source
  = (example_result, Ok tt)
  /\ source_mechanisms example_result !! "P(Mt|d)"
     = Some (Arr1 (replicate 3 (Fin (0.8 * (2 / 3) / (2 / 3)))))
  /\ Forall (fun x => np.isnan x = false)
       (replicate 3 (Fin (0.8 * (2 / 3) / (2 / 3))))
  /\ exists Mt k best top,
       source_mechanisms example_result !! "Mt" = Some (Arr2 Mt)
       /\ Mt !! k = Some best
       /\ replicate 3 (Fin (0.8 * (2 / 3) / (2 / 3))) !! k = Some top
       /\ Forall (fun x => (x <=? top) = true)
            (replicate 3 (Fin (0.8 * (2 / 3) / (2 / 3))))
       /\ best_likelyhood example_result = Some (best, top)
       /\ scanned example_result = 1%nat.
Proof.
  assert (Hnan : Forall (fun x => np.isnan x = false)
                   (replicate 3 (Fin (0.8 * (2 / 3) / (2 / 3)))))
    by (repeat constructor).
  split; [exact example_scan_returns|].
  split; [exact example_posterior|].
  split; [exact Hnan|].
  exact (scan_best_likelyhood example_radpat example_data (Fin 1)
           example_source example_result _ example_scan_returns
           example_posterior Hnan).
Defined.

Lemma scan_empty_stream_witness :
  Stream {| Stream := []; types := []; sph := []; cart := [] |} = []
  /\ (_data_init {| Stream := []; types := []; sph := []; cart := [] |}
        example_source).2 = Raise (UnboundLocalError "i")
  /\ (scan example_radpat {| Stream := []; types := []; sph := []; cart := [] |}
        (Fin 1) example_source).2 = Raise (UnboundLocalError "i").
Proof.
  split; [reflexivity|].
  apply (scan_empty_stream example_radpat
           {| Stream := []; types := []; sph := []; cart := [] |}
           (Fin 1) example_source).
  reflexivity.
Defined.

End ScanResultsExample.

(** ** The taper of a waveform *)

Section Taper.

Import SourceScan.
Local Open Scope R_scope.

Lemma rev_seq (l : nat) :
  rev (seq 0 l) = map (fun k => (l - 1 - k)%nat) (seq 0 l).
Proof.
  induction l as [|l IH]; [reflexivity|].
  assert (E : rev (seq 0 (S l)) = l :: rev (seq 0 l))
    by (rewrite seq_S, rev_app_distr; reflexivity).
  rewrite E, IH. cbn [seq map]. rewrite <- seq_shift, map_map. f_equal; [lia|].
  apply map_ext. intros k. lia.
Qed.

(** X21. The taper [_data_init] stores for a waveform of [l] samples has
    [l] entries; entry [k] is [2 (l - k) / l] capped at 1, a finite value
    in (0, 1]: the taper is flat at 1 over the first half of the waveform
    and falls in equal steps to [2 / l] at its last sample. *)
Theorem taper_window_values (l k : nat) :
  (k < l)%nat ->
  length (taper_window l) = l
  /\ taper_window l !! k = Some (Fin (Rmin 1 (2 * INR (l - k) / INR l)))
  /\ 0 < Rmin 1 (2 * INR (l - k) / INR l) <= 1.
Proof.
  intros Hk. unfold taper_window. rewrite rev_seq, !map_map.
  assert (Hl : 0 < INR l) by (apply lt_0_INR; lia).
  assert (Hlk : 1 <= INR (l - k)) by (apply (le_INR 1); lia).
  assert (Hq : 0 < 2 * INR (l - k) / INR l).
  { apply Rdiv_lt_0_compat; lra. }
  split; [| split].
  - rewrite length_map, length_seq. reflexivity.
  - change (map ?f ?x) with (f <$> x).
    rewrite list_lookup_fmap, lookup_seq_lt by exact Hk.
    cbn [fmap option_fmap option_map Nat.add np.add np.mul]. f_equal.
    replace (1 + INR (l - 1 - k)) with (INR (l - k)).
    2:{ replace (l - k)%nat with (S (l - 1 - k)) by lia. rewrite S_INR. lra. }
    unfold np.gt, np.lt.
    destruct (Rle_dec (2 * INR (l - k)) (INR l)) as [H|H].
    + rewrite bool_decide_eq_false_2 by lra.
      rewrite div_Fin by lra. f_equal. rewrite Rmin_right; [reflexivity|].
      apply Rmult_le_reg_r with (INR l); [exact Hl|].
      unfold Rdiv. rewrite Rmult_assoc, Rinv_l by lra. lra.
    + rewrite bool_decide_eq_true_2 by lra.
      rewrite div_Fin by lra. f_equal. rewrite Rmin_left.
      * field. lra.
      * apply Rmult_le_reg_r with (INR l); [exact Hl|].
        unfold Rdiv. rewrite Rmult_assoc, Rinv_l by lra. lra.
  - split; [apply Rmin_glb_lt; lra | apply Rmin_l].
Qed.

Lemma taper_window_values_witness :
  (3 < 4)%nat
  /\ length (taper_window 4) = 4%nat
  /\ taper_window 4 !! 3%nat = Some (Fin (Rmin 1 (2 * INR (4 - 3) / INR 4)))
  /\ 0 < Rmin 1 (2 * INR (4 - 3) / INR 4) <= 1.
Proof. split; [lia | apply (taper_window_values 4 3); lia]. Defined.

End Taper.

(** ** What the pattern of Vavryeuk returns *)

Section VavryeukMore.

Import Geometry.
Local Open Scope R_scope.

Variable MomentTensor : list npfloat -> mopad.

(** The wave names with an amplitude formula of their own. *)
Definition plain_names : list string :=
  ["P"; "P-wave"; "P wave";
   "ST"; "St"; "SH"; "Sh"; "Sh-wave"; "Sh wave"; "SH-wave"; "SH wave";
   "SV"; "Sv"; "Sv-wave"; "Sv wave"; "SV-wave"; "SV wave";
   "S"; "S-wave"; "S wave"]%string.

(** How [radpat] ends for these names: one amplitude per direction, placed
    as radius on the direction, and the directions without their radius. *)
Lemma radpat_plain_form (self : Vavryeuk.t) (wave : string)
    (obs_cart : option field) (dirs : list spherical)
    (x : angles * percentages) :
  mt_angles MomentTensor (Vavryeuk.mt self) = Ok x ->
  wave ∈ plain_names ->
  exists G : list npfloat,
    length G = length dirs
    /\ Vavryeuk.radpat MomentTensor self wave obs_cart (Some dirs)
       = ([], Ok (spherical_to_cartesian
                    (zip_with (fun at_ g => ATR at_.1 at_.2 g)
                       (zip (map Vavryeuk.azimuth_of dirs)
                            (map Vavryeuk.takeoff_of dirs)) G),
                  spherical_to_cartesian
                    (zip_with AT (map Vavryeuk.azimuth_of dirs)
                                 (map Vavryeuk.takeoff_of dirs)))).
Proof.
  intros Hx Hw. unfold Vavryeuk.radpat, Vavryeuk.radpat_body. rewrite Hx.
  destruct x as [[[strike dip] rake] [[[DC CLVD] iso] devi]].
  unfold plain_names in Hw.
  repeat (apply elem_of_cons in Hw as [Hw|Hw];
          [subst wave; take_branch; eexists; (split; [| reflexivity]);
           rewrite ?length_map, ?length_zip_with, ?length_map; lia|]).
  apply elem_of_nil in Hw. contradiction.
Qed.

(** A direction of finite azimuth and polar angle, with a radius or
    without, and the point of the unit sphere in that direction. *)
Definition with_radius (v : R * R * option npfloat) : spherical :=
  let '(a, t, r) := v in
  match r with
  | Some r => ATR (Fin a) (Fin t) r
  | None => AT (Fin a) (Fin t)
  end.

Definition unit_point (v : R * R * option npfloat) : R * R * R :=
  let '(a, t, _) := v in (sin t * cos a, sin t * sin a, cos t).

Lemma tuple3_eq {A : Type} (a a' b b' c c' : A) :
  a = a' -> b = b' -> c = c' -> (a, b, c) = (a', b', c').
Proof. intros -> -> ->. reflexivity. Qed.

Lemma mul_finite2 (g : npfloat) (c v : R) :
  np.mul g (Fin c) = Fin v -> exists gr, g = Fin gr.
Proof.
  destruct g as [gr| | |]; [eauto| | |]; cbn [np.mul]; unfold np.signed_inf;
    repeat case_decide; discriminate.
Qed.

(** X22. [Vavryeuk.radpat] returns amplitudes along the directions, on
    the unit sphere.  With a wave name that has an amplitude formula, a
    mechanism [mt_angles] accepts and finite observation directions given
    in spherical coordinates, the points it returns are those directions
    at unit distance, with whatever radius they were given; it returns one
    displacement per point, and every finite displacement is a multiple of
    its point. *)
Theorem radpat_along_directions (self : Vavryeuk.t) (wave : string)
    (obs_cart : option field) (dirs : list (R * R * option npfloat))
    (x : angles * percentages) :
  mt_angles MomentTensor (Vavryeuk.mt self) = Ok x ->
  wave ∈ plain_names ->
  exists disp : field,
    Vavryeuk.radpat MomentTensor self wave obs_cart
      (Some (map with_radius dirs))
    = ([], Ok (disp, map (fun v => triple (unit_point v)) dirs))
    /\ Forall (fun v => Rnorm (unit_point v) = 1) dirs
    /\ Forall2 (fun d v => forall w, d = triple w ->
                             exists g : R, w = Rscale g (unit_point v))
         disp dirs.
Proof.
  intros Hx Hw.
  destruct (radpat_plain_form self wave obs_cart (map with_radius dirs) x
              Hx Hw) as (G & HG & ->).
  rewrite length_map in HG.
  eexists. split; [| split].
  - do 3 f_equal. unfold spherical_to_cartesian.
    rewrite !map_map. clear. induction dirs as [|[[a t] r] dirs IH];
      [reflexivity|].
    cbn [map zip_with]. rewrite <- IH. f_equal.
    destruct r; cbn [with_radius Vavryeuk.azimuth_of Vavryeuk.takeoff_of];
      unfold spherical_to_cartesian1, unit_point, triple;
      cbn [np.sin np.cos np.mul]; repeat f_equal; ring.
  - apply List.Forall_forall. intros [[a t] r] _. unfold unit_point.
    pose proof (Rnorm_spherical a t 1) as H. rewrite Rabs_R1 in H.
    rewrite <- H. unfold Rnorm. f_equal. ring.
  - unfold spherical_to_cartesian. rewrite !map_map. clear Hx Hw.
    revert G HG. induction dirs as [|[[a t] r] dirs IH]; intros [|g G] HG;
      try discriminate; cbn [map zip zip_with]; constructor.
    + destruct r; cbn [with_radius Vavryeuk.azimuth_of Vavryeuk.takeoff_of
                       fst snd];
        unfold spherical_to_cartesian1, unit_point, triple, Rscale;
        cbn [np.sin np.cos]; intros [[w0 w1] w2] E;
        injection E as E0 E1 E2;
        destruct (mul_finite2 _ _ _ E2) as [gr ->];
        cbn [np.mul] in E0, E1, E2;
        injection E0 as <-; injection E1 as <-; injection E2 as <-;
        exists gr; apply tuple3_eq; ring.
    + apply IH. cbn in HG. lia.
Qed.

End VavryeukMore.

Lemma radpat_along_directions_witness :
  mt_angles double_couple_only (Arr1 [Fin 10; Fin 5; Fin 82])
  = Ok ((Fin 10, Fin 5, Fin 82), (Fin 100, Fin 0, Fin 0, Fin 100))
  /\ "S"%string ∈ plain_names
  /\ exists disp : Geometry.field,
       Vavryeuk.radpat double_couple_only
         {| Vavryeuk.mt := Arr1 [Fin 10; Fin 5; Fin 82];
            Vavryeuk.poisson := Fin 0.25 |} "S" None
         (Some (map with_radius [(0%R, 1%R, Some (Fin 7))]))
       = ([], Ok (disp, map (fun v => triple (unit_point v))
                          [(0%R, 1%R, Some (Fin 7))]))
       /\ Forall (fun v => Rnorm (unit_point v) = 1%R)
            [(0%R, 1%R, Some (Fin 7))]
       /\ Forall2 (fun d v => forall w, d = triple w ->
                                exists g : R, w = Rscale g (unit_point v))
            disp [(0%R, 1%R, Some (Fin 7))].
Proof.
  assert (H1 : mt_angles double_couple_only (Arr1 [Fin 10; Fin 5; Fin 82])
               = Ok ((Fin 10, Fin 5, Fin 82), (Fin 100, Fin 0, Fin 0, Fin 100)))
    by reflexivity.
  assert (H2 : "S"%string ∈ plain_names) by (unfold plain_names; is_member).
  split; [exact H1 | split; [exact H2 |]].
  exact (radpat_along_directions double_couple_only
           {| Vavryeuk.mt := Arr1 [Fin 10; Fin 5; Fin 82];
              Vavryeuk.poisson := Fin 0.25 |} "S" None
           [(0%R, 1%R, Some (Fin 7))] _ H1 H2).
Defined.

(** ** The default mesh of directions *)

Section SphereMesh.

Import Geometry.
Local Open Scope R_scope.

Lemma linspace_range (start stop : R) (num : nat) :
  start <= stop ->
  Forall (fun x => exists v : R, x = Fin v /\ start <= v <= stop)
         (Vavryeuk.linspace start stop num).
Proof.
  intros Hs. unfold Vavryeuk.linspace.
  apply List.Forall_forall. intros x Hx.
  apply List.in_map_iff in Hx as (i & <- & Hi). apply in_seq in Hi.
  eexists. split; [reflexivity|].
  destruct (decide (num = 1%nat)) as [->|H1].
  - assert (i = 0%nat) as -> by lia. cbn [INR]. lra.
  - assert (Hn : 0 < INR (num - 1)) by (apply lt_0_INR; lia).
    assert (Hi0 : 0 <= INR i) by apply pos_INR.
    assert (Hin : INR i <= INR (num - 1)) by (apply le_INR; lia).
    set (q := (stop - start) / INR (num - 1)).
    assert (Hq : q * INR (num - 1) = stop - start) by (unfold q; field; lra).
    assert (Hq0 : 0 <= q).
    { unfold q. apply Rmult_le_pos; [lra|]. left. apply Rinv_0_lt_compat, Hn. }
    nra.
Qed.

Lemma length_flat_map_const {A B : Type} (f : A -> list B) (l : list A)
    (n : nat) :
  (forall x, length (f x) = n) -> length (flat_map f l) = (length l * n)%nat.
Proof.
  intros Hf. induction l as [|x l IH]; [reflexivity|].
  cbn [flat_map]. rewrite length_app, Hf, IH. reflexivity.
Qed.

(** X23. The mesh of [sphere(r, n)], for a positive [n]: every direction
    has a finite azimuth in [0, 2 pi], a finite polar angle in [0, pi] and
    the radius [r]; there are as many directions as the truncations of
    [n^0.538 + 1] and [n^0.462] multiply to. *)
Theorem sphere_mesh (r n : R) :
  0 < n ->
  Forall (fun v => exists a t : R,
            v = ATR (Fin a) (Fin t) (Fin r)
            /\ 0 <= a <= 2 * PI /\ 0 <= t <= PI)
         (Vavryeuk.sphere r n)
  /\ length (Vavryeuk.sphere r n)
     = (Z.to_nat (Int_part (Rpower n 0.462))
        * Z.to_nat (Int_part (Rpower n 0.538 + 1)))%nat.
Proof.
  intros Hn. pose proof PI_RGT_0 as Hpi. unfold Vavryeuk.sphere.
  replace (0.5 + 0.038) with 0.538 by lra.
  replace (0.5 - 0.038) with 0.462 by lra.
  set (na := Z.to_nat (Int_part (Rpower n 0.538 + 1))).
  set (nt := Z.to_nat (Int_part (Rpower n 0.462))).
  split.
  - apply List.Forall_forall. intros v Hv.
    apply List.in_flat_map in Hv as (t_i & Ht & Hv).
    apply List.in_map_iff in Hv as (a_j & <- & Ha).
    pose proof (linspace_range 0 (2 * PI) na ltac:(lra)) as Fa.
    pose proof (linspace_range 0 (1 * PI) nt ltac:(lra)) as Ft.
    rewrite List.Forall_forall in Fa, Ft.
    destruct (Fa a_j Ha) as (a & -> & Ba).
    destruct (Ft t_i Ht) as (t & -> & Bt).
    exists a, t. cbn [np.mul]. rewrite Rmult_1_l.
    split; [reflexivity|]. split; lra.
  - rewrite (length_flat_map_const _ _ na).
    + unfold Vavryeuk.linspace. rewrite length_map, length_seq. reflexivity.
    + intros t_i. unfold Vavryeuk.linspace.
      rewrite !length_map, length_seq. reflexivity.
Qed.

Lemma sphere_mesh_witness :
  0 < 1000
  /\ Forall (fun v => exists a t : R,
               v = ATR (Fin a) (Fin t) (Fin 1)
               /\ 0 <= a <= 2 * PI /\ 0 <= t <= PI)
            (Vavryeuk.sphere 1 1000)
  /\ length (Vavryeuk.sphere 1 1000)
     = (Z.to_nat (Int_part (Rpower 1000 0.462))
        * Z.to_nat (Int_part (Rpower 1000 0.538 + 1)))%nat.
Proof. split; [lra | apply (sphere_mesh 1 1000); lra]. Defined.

End SphereMesh.

(** ** The scanner: the correlation of a null score *)

Section ScanCorrelation.

Import Geometry SourceScan.
Local Open Scope R_scope.
Local Open Scope npfloat_scope.

Variable Aki_Richards_radpat :
  list npfloat -> string -> list vec3 -> result field.

(** The arrays ['rms'] and ['xcorr'] of [s'] are those of [s]. *)
Definition keeps_correlation (s s' : SourceScan.t) : Prop :=
  source_mechanisms s' !! "rms" = source_mechanisms s !! "rms"
  /\ source_mechanisms s' !! "xcorr" = source_mechanisms s !! "xcorr".

#[local] Instance keeps_correlation_preorder : PreOrder keeps_correlation.
Proof.
  split; [intros s; split; reflexivity |].
  intros s1 s2 s3 (A1 & B1) (A2 & B2). split; congruence.
Qed.





End ScanCorrelation.

Section ScanCorrelationExample.

Import Geometry SourceScan.
Local Open Scope R_scope.
Local Open Scope npfloat_scope.


End ScanCorrelationExample.

(** ** The scanner: binding the data *)

Section DataBinding.

Import Geometry SourceScan.
Local Open Scope R_scope.
Local Open Scope npfloat_scope.

(** A loop over a list, with an invariant on the entries done. *)
Lemma wp_for_acc_list {A B : Type} (I : list A -> B -> SourceScan.t -> Prop)
    (l : list A) (acc : B) (body : B -> A -> M B) s :
  I [] acc s ->
  (forall done x acc s, I done acc s ->
     wp (body acc x) (fun acc' s' => I (done ++ [x]) acc' s') s) ->
  wp (for_acc l acc body) (fun acc' s' => I l acc' s') s.
Proof.
  intros H0 Hb.
  cut (forall done acc s, I done acc s ->
         wp (for_acc l acc body) (fun acc' s' => I (done ++ l) acc' s') s).
  { intros H. apply (H [] acc s H0). }
  clear H0 acc s. induction l as [|x l IH]; intros done acc s H.
  - cbn. apply wp_ret. rewrite app_nil_r. exact H.
  - cbn [for_acc]. apply wp_bind.
    eapply wp_mono; [apply (Hb done x acc s H)|].
    intros acc' s' H'. cbn beta in H'.
    replace (done ++ x :: l) with ((done ++ [x]) ++ l)
      by (rewrite <- app_assoc; reflexivity).
    apply IH. exact H'.
Qed.

(** [np.argmin] returns an index of the array. *)
Lemma argmin_from_range (l : list npfloat) (best i : nat) (vbest : npfloat) :
  np.argmin_from best vbest i l = best
  \/ (i <= np.argmin_from best vbest i l < i + length l)%nat.
Proof.
  revert best i vbest. induction l as [|x l IH]; intros best i vbest.
  - left. reflexivity.
  - cbn [np.argmin_from length].
    destruct (np.isnan vbest); [left; reflexivity|].
    destruct (np.isnan x || np.lt x vbest).
    + right. destruct (IH i (S i) x) as [->|H]; lia.
    + destruct (IH best (S i) vbest) as [->|H]; [left; reflexivity | right; lia].
Qed.

Lemma argmin_lt (l : list npfloat) (d : nat) :
  np.argmin l = Ok d -> (d < length l)%nat.
Proof.
  destruct l as [|x l]; [discriminate|]. cbn [np.argmin length].
  intros [= <-]. destruct (argmin_from_range l 0 1 x) as [->|H]; lia.
Qed.

(** A waveform as [_data_init] stores it: divided by its peak. *)
Definition normalised (w : Trace) (row : list npfloat) : Prop :=
  exists peak,
    np.max (map np.abs (tr_data w)) = Ok peak
    /\ row = map (fun x => x / peak) (tr_data w).

(** The waveforms, the tapers and the grid of [s'] are those of [s]. *)
Definition keeps_wavelets (s s' : SourceScan.t) : Prop :=
  grid s' = grid s
  /\ data (bound s') = data (bound s)
  /\ data_wavelets (bound s') = data_wavelets (bound s)
  /\ data_taperwindows (bound s') = data_taperwindows (bound s).

#[local] Instance keeps_wavelets_preorder : PreOrder keeps_wavelets.
Proof.
  split; [intros s; repeat split |].
  intros s1 s2 s3 (A1 & B1 & C1 & D1) (A2 & B2 & C2 & D2).
  repeat split; congruence.
Qed.

(** Besides, the indexes of [s'] are those of [s]. *)
Definition keeps_binding (s s' : SourceScan.t) : Prop :=
  keeps_wavelets s s'
  /\ data_indexes (bound s') = data_indexes (bound s).

#[local] Instance keeps_binding_preorder : PreOrder keeps_binding.
Proof.
  split; [intros s; split; reflexivity |].
  intros s1 s2 s3 (A1 & B1) (A2 & B2).
  split; [etransitivity; eassumption | congruence].
Qed.

(** The loop over the waveforms. *)
Lemma bind_wavelets_spec (stream : list Trace) s :
  data_wavelets (bound s) = [] -> data_taperwindows (bound s) = [] ->
  wp (for_acc stream 0%nat bind_wavelet)
     (fun _ s' =>
        grid s' = grid s /\ data (bound s') = data (bound s)
        /\ Forall2 normalised stream (data_wavelets (bound s'))
        /\ data_taperwindows (bound s')
           = map (fun w => taper_window (length (tr_data w))) stream) s.
Proof.
  intros Hw Ht.
  apply (wp_for_acc_list
           (fun done (_ : nat) s' =>
              grid s' = grid s /\ data (bound s') = data (bound s)
              /\ Forall2 normalised done (data_wavelets (bound s'))
              /\ data_taperwindows (bound s')
                 = map (fun w => taper_window (length (tr_data w))) done)).
  - rewrite Hw, Ht. repeat split. constructor.
  - intros done w lm s1 (Hg & Hd & Hws & Htw). unfold bind_wavelet.
    wp_steps. rewrite Htw, map_app. repeat split; try assumption.
    apply Forall2_app; [exact Hws|]. constructor; [| constructor].
    eexists. split; [eassumption | reflexivity].
Qed.

(** The loop that binds the waveforms to the grid. *)
Lemma bind_indexes_spec (dat : Wavelets) (n : nat) s :
  length (data_indexes (bound s)) = n ->
  wp (for_each (seq 0 n) (bind_index dat))
     (fun _ s' =>
        keeps_wavelets s s'
        /\ length (data_indexes (bound s')) = n
        /\ Forall (fun d => (d < length (atr (grid s')))%nat)
             (data_indexes (bound s'))) s.
Proof.
  intros Hn.
  eapply wp_mono.
  - apply (wp_for_each_seq
             (fun k s' =>
                keeps_wavelets s s'
                /\ length (data_indexes (bound s')) = n
                /\ forall j d, (j < k)%nat ->
                     data_indexes (bound s') !! j = Some d ->
                     (d < length (atr (grid s')))%nat)).
    + split; [reflexivity|]. split; [exact Hn|]. intros j d Hj. lia.
    + intros k s1 Hk (Hkeep & Hlen & Hall). unfold bind_index.
      wp_steps. split; [| split].
      * destruct Hkeep as (A & B & C & D). repeat split; assumption.
      * rewrite length_insert. exact Hlen.
      * intros j d Hj Hd.
        destruct (decide (j = k)) as [->|Hne].
        -- rewrite list_lookup_insert_eq in Hd by lia. injection Hd as <-.
           match goal with
           | H : np.argmin _ = Ok _ |- _ =>
               apply argmin_lt in H; rewrite length_map in H; exact H
           end.
        -- rewrite list_lookup_insert_ne in Hd by congruence.
           apply (Hall j d); [lia | exact Hd].
  - intros [] s' (Hkeep & Hlen & Hall). cbn beta.
    split; [exact Hkeep|]. split; [exact Hlen|].
    apply Forall_lookup. intros j d Hd. apply (Hall j d); [| exact Hd].
    rewrite Nat.add_0_l, <- Hlen. eapply lookup_lt_Some. exact Hd.
Qed.

(** X25. After a call of [_data_init] that returns, the data are bound:
    every stored waveform is a waveform of [data.Stream] divided by its
    largest absolute sample, in the order of the stream; with it is stored
    the taper of its length; and every waveform has an index into the grid
    of observation directions. *)
Theorem data_init_binds (dat : Wavelets) (s s' : SourceScan.t) :
  _data_init dat s = (s', Ok tt) ->
  data (bound s') = Some dat
  /\ Forall2 normalised (Stream dat) (data_wavelets (bound s'))
  /\ data_taperwindows (bound s')
     = map (fun w => taper_window (length (tr_data w))) (Stream dat)
  /\ length (data_indexes (bound s')) = length (Stream dat)
  /\ Forall (fun d => (d < length (atr (grid s')))%nat)
       (data_indexes (bound s')).
Proof.
  intros Hrun. wp_of Hrun. unfold _data_init.
  do 3 (apply wp_bind, wp_modify).
  apply wp_bind. eapply wp_mono; [apply bind_wavelets_spec; reflexivity|].
  intros lm s1 (Hg & Hd & Hws & Htw). cbn beta.
  state_simpl_in Hg. state_simpl_in Hd.
  apply wp_bind, wp_gets. cbn beta. apply wp_bind.
  destruct (rectangular (data_wavelets (bound s1))); [| apply wp_raise].
  apply wp_ret. do 2 (apply wp_bind, wp_modify).
  apply wp_bind. eapply wp_mono.
  { apply (bind_indexes_spec dat (length (Stream dat))).
    state_simpl. rewrite length_replicate.
    symmetry. eapply Forall2_length. exact Hws. }
  intros [] s2 ((Hg2 & Hd2 & Hw2 & Ht2) & Hlen & Hidx). cbn beta.
  state_simpl_in Hg2. state_simpl_in Hd2. state_simpl_in Hw2.
  state_simpl_in Ht2.
  eapply wp_mono.
  - apply (wp_preserves keeps_binding).
    unfold stack_wavelet.
    preserves_auto ltac:(repeat split).
  - intros [] s3 ((Hg3 & Hd3 & Hw3 & Ht3) & Hi3). cbn beta in *.
    rewrite Hd3, Hw3, Ht3, Hi3, Hg3, Hd2, Hw2, Ht2, Hd.
    repeat split; assumption.
Qed.

End DataBinding.

Section DataBindingExample.

Import Geometry SourceScan.
Local Open Scope R_scope.
Local Open Scope npfloat_scope.

(** The state the binding of the example leaves. *)
Definition example_binding : SourceScan.t :=
  (_data_init example_data example_source).1.

Lemma example_binding_returns :
  _data_init example_data example_source = (example_binding, Ok tt).
Proof.
  destruct (returns_run _ _ _ (example_data_init example_source eq_refl))
    as ([] & s' & E & _).
  unfold example_binding. rewrite E. reflexivity.
Qed.

Lemma data_init_binds_witness :
  _data_init example_data example_source = (example_binding, Ok tt)
  /\ data (bound example_binding) = Some example_data
  /\ Forall2 normalised (Stream example_data)
       (data_wavelets (bound example_binding))
  /\ data_taperwindows (bound example_binding)
     = map (fun w => taper_window (length (tr_data w))) (Stream example_data)
  /\ length (data_indexes (bound example_binding))
     = length (Stream example_data)
  /\ Forall (fun d => (d < length (atr (grid example_binding)))%nat)
       (data_indexes (bound example_binding)).
Proof.
  split; [exact example_binding_returns|].
  exact (data_init_binds example_data example_source example_binding
           example_binding_returns).
Defined.

End DataBindingExample.
